(** * Cpp-Turbo-Compile: the dependency graph and compile-cost engine

    A shallow embedding of [src/CppProjectAnalyzer.py] (class
    [CppProjectAnalyzer]) and of the configuration defaults of
    [src/config/__init__.py], followed by the properties of the engine.

    Conventions of the embedding.
    - Text is a [string]; a character is a code point below 256.
    - A [pathlib.Path] is identified with its string form.
    - The disk, [pathlib], [fnmatch], the iteration order of Python sets and
      the regular expressions of the complexity scorer are the environment of
      the program: they are the fields of the class [Env].  The two regular
      expressions that decide what an include directive is are embedded as
      matchers.
    - The analyzer object is the record [Analyzer]; methods that mutate it
      are computations of the monad [M], which threads the record and
      propagates a raised exception until a [try_except] catches it. *)

From Stdlib Require Import Ascii String Floats Uint63 ZArith.
From stdpp Require Import gmap strings list fin_maps sorting.

Set Warnings "-inexact-float,-clear-no-such-hyp".


(* ===================================================================== *)
(** ** Text helpers                                                        *)
(* ===================================================================== *)

Module Text.

(** [\s] of the [re] module on str patterns, for code points below 256:
    TAB..CR, FS..US, SPACE, NEL and NBSP. *)
Definition is_space (c : ascii) : bool :=
  let n := nat_of_ascii c in
  ((9 <=? n)%nat && (n <=? 13)%nat) || ((28 <=? n)%nat && (n <=? 32)%nat)
  || (n =? 133)%nat || (n =? 160)%nat.

Definition newline : ascii := ascii_of_nat 10.

(** The double quote character. *)
Definition dquote : ascii := ascii_of_nat 34.

(** [s] between double quotes. *)
Definition quoted (s : string) : string := String dquote (s +:+ String dquote "").

(** One line of text: [s] and a newline. *)
Definition line (s : string) : string := s +:+ String newline "".

Definition is_newline (c : ascii) : bool := Ascii.eqb c newline.

(** Greedy [\s*]: what is left after the leading white space. *)
Fixpoint skip_spaces (s : string) : string :=
  match s with
  | String c s' => if is_space c then skip_spaces s' else s
  | EmptyString => EmptyString
  end.

(** A literal prefix: what is left after it, when it is there. *)
Fixpoint strip_prefix (lit s : string) : option string :=
  match lit with
  | EmptyString => Some s
  | String a lit' =>
      match s with
      | String b s' => if Ascii.eqb a b then strip_prefix lit' s' else None
      | EmptyString => None
      end
  end.

(** The longest prefix whose characters satisfy [p], and the rest. *)
Fixpoint span (p : ascii -> bool) (s : string) : string * string :=
  match s with
  | String c s' =>
      if p c then let '(a, b) := span p s' in (String c a, b)
      else (EmptyString, s)
  | EmptyString => (EmptyString, EmptyString)
  end.

(** [c in s]. *)
Fixpoint contains (c : ascii) (s : string) : bool :=
  match s with
  | String d s' => Ascii.eqb c d || contains c s'
  | EmptyString => false
  end.

(** [s.startswith(c)] for a one-character [c]. *)
Definition startswith (c : ascii) (s : string) : bool :=
  match s with
  | String d _ => Ascii.eqb c d
  | EmptyString => false
  end.

Fixpoint lstrip (c : ascii) (s : string) : string :=
  match s with
  | String d s' => if Ascii.eqb c d then lstrip c s' else s
  | EmptyString => EmptyString
  end.

Fixpoint rstrip (c : ascii) (s : string) : string :=
  match s with
  | String d s' =>
      match rstrip c s' with
      | EmptyString => if Ascii.eqb c d then EmptyString else String d EmptyString
      | r => String d r
      end
  | EmptyString => EmptyString
  end.

(** [s.strip(c)] for a one-character [c]. *)
Definition strip (c : ascii) (s : string) : string := rstrip c (lstrip c s).

(** [s.endswith(t)]. *)
Fixpoint endswith (t s : string) : bool :=
  String.eqb t s ||
  match s with
  | String _ s' => endswith t s'
  | EmptyString => false
  end.

(** [len(f.readlines())] on the text [s] read in text mode: one line per
    newline, and one more for a last line that has no newline. *)
Fixpoint count_lines_from (open_line : bool) (s : string) : nat :=
  match s with
  | String c s' =>
      if is_newline c then S (count_lines_from false s')
      else count_lines_from true s'
  | EmptyString => if open_line then 1 else 0
  end.

Definition count_lines (s : string) : nat := count_lines_from false s.

End Text.

(* ===================================================================== *)
(** ** The two include recognizers                                         *)
(* ===================================================================== *)

Module Regex.
Import Text.

Definition is_open (c : ascii) : bool := Ascii.eqb c "<" || Ascii.eqb c dquote.
Definition is_close (c : ascii) : bool := Ascii.eqb c ">" || Ascii.eqb c dquote.

(** The common prefix [\s*#\s*include] of both patterns, tried at one
    position: what is left after it. *)
Definition match_include_keyword (s : string) : option string :=
  match skip_spaces s with
  | String "#" s1 => strip_prefix "include" (skip_spaces s1)
  | _ => None
  end.

(** [include_pattern] tried at one position: the keyword, white space, an
    opening delimiter (less-than sign or double quote), the captured group
    (one or more characters that are neither a greater-than sign nor a
    double quote) and a closing delimiter (greater-than sign or double
    quote).  The result is the captured group and what is left after the
    match.  Every repetition is followed by a character outside its own
    class, so the greedy choice is the only one that can succeed. *)
Definition match_include_body (s : string) : option (string * string) :=
  match match_include_keyword s with
  | Some s1 =>
      match skip_spaces s1 with
      | String o s2 =>
          if is_open o then
            match span (fun c => negb (is_close c)) s2 with
            | (String n name, String _ rest) => Some (String n name, rest)
            | _ => None
            end
          else None
      | EmptyString => None
      end
  | None => None
  end.

(** [include_pattern] of [_analyze_file_includes] is compiled without
    [re.MULTILINE]: its [^] holds at offset 0 of the text only. *)
Definition include_pattern_at (pos : nat) (s : string) : option (string * string) :=
  if (pos =? 0)%nat then match_include_body s else None.

(** [include_pattern.findall(content)]: scan from the left; after a match
    go on where it ended, otherwise one character further. *)
Fixpoint findall_scan (fuel pos : nat) (s : string) : list string :=
  match fuel with
  | O => []
  | S fuel' =>
      match include_pattern_at pos s with
      | Some (name, rest) =>
          name :: findall_scan fuel' (pos + (String.length s - String.length rest)) rest
      | None =>
          match s with
          | String _ s' => findall_scan fuel' (S pos) s'
          | EmptyString => []
          end
      end
  end.

Definition findall_includes (content : string) : list string :=
  findall_scan (S (String.length content)) 0 content.

(** [re.findall(r'^\s*#\s*include', content, re.MULTILINE)]: with
    [re.MULTILINE] the [^] holds at offset 0 and after every newline.
    [bol] tells whether it holds at the current position; a match ends in
    the letter [e], so it does not hold where the scan resumes. *)
Fixpoint count_scan (fuel : nat) (bol : bool) (s : string) : nat :=
  match fuel with
  | O => 0
  | S fuel' =>
      match (if bol then match_include_keyword s else None) with
      | Some rest => S (count_scan fuel' false rest)
      | None =>
          match s with
          | String c s' => count_scan fuel' (is_newline c) s'
          | EmptyString => 0
          end
      end
  end.

Definition count_include_lines (content : string) : nat :=
  count_scan (S (String.length content)) true content.

End Regex.

(* ===================================================================== *)
(** ** Paths                                                               *)
(* ===================================================================== *)

Abbreviation Path := string.

Module PathOps.
Import Text.

(** The part of [s] that starts at the last occurrence of [c]. *)
Fixpoint from_last (c : ascii) (s : string) : option string :=
  match s with
  | EmptyString => None
  | String d s' =>
      match from_last c s' with
      | Some r => Some r
      | None => if Ascii.eqb c d then Some s else None
      end
  end.

(** [Path.name]: the final component. *)
Definition name (p : Path) : string :=
  match from_last "/" p with
  | Some (String _ r) => r
  | _ => p
  end.

(** [Path.suffix]: the name from its last dot on, unless that dot opens or
    closes the name. *)
Definition suffix (p : Path) : string :=
  match name p with
  | String _ tail =>
      match from_last "." tail with
      | Some (String dot (String c r)) => String dot (String c r)
      | _ => EmptyString
      end
  | EmptyString => EmptyString
  end.

(** The components of a path. *)
Fixpoint parts_from (cur : string -> string) (s : string) : list string :=
  match s with
  | EmptyString => [cur EmptyString]
  | String c s' =>
      if Ascii.eqb c "/" then cur EmptyString :: parts_from (fun r => r) s'
      else parts_from (fun r => cur (String c r)) s'
  end.

Definition parts (p : Path) : list string := parts_from (fun r => r) p.

(** Tuples of strings compare like Python's: first difference decides, a
    proper prefix is smaller. *)
Fixpoint parts_leb (a b : list string) : bool :=
  match a, b with
  | [], _ => true
  | _ :: _, [] => false
  | x :: a', y :: b' =>
      match String.compare x y with
      | Lt => true
      | Gt => false
      | Eq => parts_leb a' b'
      end
  end.

(** The order of [pathlib] paths: component by component. *)
Definition path_leb (p q : Path) : bool := parts_leb (parts p) (parts q).

Fixpoint insert_sorted (p : Path) (l : list Path) : list Path :=
  match l with
  | [] => [p]
  | q :: l' => if path_leb p q then p :: l else q :: insert_sorted p l'
  end.

(** [sorted(l)] on a list of paths. *)
Definition sorted (l : list Path) : list Path := foldr insert_sorted [] l.

End PathOps.

(* ===================================================================== *)
(** ** Exceptions and state                                                *)
(* ===================================================================== *)

Inductive outcome (A : Type) : Type :=
| Returns (a : A)
| Raises.
Arguments Returns {A} a.
Arguments Raises {A}.

(** Computations over a mutable object of type [S] that may raise. *)
Definition ST (S A : Type) : Type := S -> outcome A * S.

Definition st_ret {S A} (a : A) : ST S A := fun s => (Returns a, s).

Definition st_bind {S A B} (m : ST S A) (k : A -> ST S B) : ST S B :=
  fun s =>
    match m s with
    | (Returns a, s') => k a s'
    | (Raises, s') => (Raises, s')
    end.

Definition st_raise {S A} : ST S A := fun s => (Raises, s).

Definition st_get {S} : ST S S := fun s => (Returns s, s).

Definition st_modify {S} (f : S -> S) : ST S unit := fun s => (Returns tt, f s).

Definition st_lift {S A} (o : outcome A) : ST S A := fun s => (o, s).

(** [try: body except Exception: handler]. *)
Definition try_except {S} (body handler : ST S unit) : ST S unit :=
  fun s =>
    match body s with
    | (Returns a, s') => (Returns a, s')
    | (Raises, s') => handler s'
    end.

Notation "x <- m ;; k" := (st_bind m (fun x => k))
  (at level 20, m at level 99, k at level 200, only parsing).
Notation "m ;;; k" := (st_bind m (fun _ => k))
  (at level 100, k at level 200, right associativity, only parsing).

(** [for x in l: body(x)]. *)
Fixpoint for_each {S A} (l : list A) (body : A -> ST S unit) : ST S unit :=
  match l with
  | [] => st_ret tt
  | x :: l' => body x ;;; for_each l' body
  end.

(** The object after the computation, whatever its outcome. *)
Definition exec {S A} (m : ST S A) (s : S) : S := snd (m s).

(* ===================================================================== *)
(** ** The environment of the program                                      *)
(* ===================================================================== *)

(** The regular expressions of [_calculate_complexity] other than the
    include counter. *)
Inductive ScoreRegex :=
| TemplateDecl | TemplateSpecialization | ClassDecl | FunctionDef | MacroDef.

Class Env := {
  (** [self.project_path] *)
  project_path : Path;
  (** [p / name] *)
  joinpath : Path -> string -> Path;
  (** [p.parent] *)
  parent : Path -> Path;
  (** [str(p.relative_to(self.project_path))] *)
  relative_to_project : Path -> string;
  (** [p.exists()] *)
  path_exists : Path -> bool;
  (** [p.is_file()] *)
  is_file : Path -> bool;
  (** [self.project_path.glob(pattern)] *)
  glob : string -> list Path;
  (** [self.project_path.rglob(pattern)]; it raises on some patterns *)
  rglob : string -> outcome (list Path);
  (** [fnmatch.fnmatch(name, pattern)] *)
  fnmatch : string -> string -> bool;
  (** [open(p, 'r', encoding='utf-8', errors='ignore').read()]; [None] when
      it raises *)
  open_ignore : Path -> option string;
  (** [open(p).read()]; [None] when it raises *)
  open_default : Path -> option string;
  (** [list(s)] for a Python set [s]: the order of its hash table *)
  set_order : gset Path -> list Path;
  (** [len(pattern.findall(content))] *)
  re_count : ScoreRegex -> string -> nat;
  (** the number of nested calls of [dfs] that fit before Python raises
      [RecursionError]: the limit of the interpreter less the frames of the
      callers *)
  recursion_limit : nat;
}.

(* ===================================================================== *)
(** ** Configuration, issues and the analyzer object                       *)
(* ===================================================================== *)

Inductive Severity := LOW | MEDIUM | HIGH.

Record AnalysisConfig := {
  max_header_includes : Z;
  max_file_complexity : Z;
  max_header_size : Z;
  pch_max_headers : Z;
  enable_template_analysis : bool;
  enable_circular_dep_check : bool;
  enable_unused_header_check : bool;
  parallel_analysis : bool;
  analysis_timeout : Z;
}.

(** [AnalysisConfig()] *)
Definition default_analysis_config : AnalysisConfig := {|
  max_header_includes := 20;
  max_file_complexity := 50;
  max_header_size := 10000;
  pch_max_headers := 25;
  enable_template_analysis := true;
  enable_circular_dep_check := true;
  enable_unused_header_check := true;
  parallel_analysis := true;
  analysis_timeout := 30;
|}.

Inductive IssueType :=
| EXCESSIVE_INCLUDES | HIGH_COMPLEXITY | LARGE_HEADER
| CIRCULAR_DEPENDENCY | UNUSED_HEADER.

(** The ['file'] entry of an issue: a path, or [Cycle i]. *)
Inductive Subject :=
| OfFile (p : Path)
| OfCycle (i : nat).

(** What the ['message'] entry of an issue is formatted from. *)
Inductive Message :=
| MsgIncludes (include_count : nat) (threshold : Z)
| MsgComplexity (score : nat)
| MsgSize (file_size : nat)
| MsgCycle (cycle : list Path)
| MsgUnused.

(** An issue dictionary; its ['suggestion'] entry is a fixed text per type. *)
Record Issue := {
  issue_type : IssueType;
  issue_file : Subject;
  issue_severity : Severity;
  issue_message : Message;
}.

Record Analyzer := {
  ignore_patterns : list string;
  analysis_config : AnalysisConfig;
  files : list Path;
  include_graph : gmap Path (gset Path);
  dependency_count : gmap Path nat;
  file_sizes : gmap Path nat;
  header_frequency : gmap string nat;
  circular_deps : list (list Path);
  unused_headers : gset Path;
  issues : list Issue;
  build_times_estimate : list (Path * float);
}.

(** [CppProjectAnalyzer(project_path, ignore_patterns=..., analysis_config=...)] *)
Definition new_analyzer (ignore : list string) (cfg : AnalysisConfig) : Analyzer := {|
  ignore_patterns := ignore;
  analysis_config := cfg;
  files := [];
  include_graph := ∅;
  dependency_count := ∅;
  file_sizes := ∅;
  header_frequency := ∅;
  circular_deps := [];
  unused_headers := ∅;
  issues := [];
  build_times_estimate := [];
|}.

Definition set_files (v : list Path) (a : Analyzer) : Analyzer :=
  {| ignore_patterns := ignore_patterns a; analysis_config := analysis_config a;
     files := v; include_graph := include_graph a;
     dependency_count := dependency_count a; file_sizes := file_sizes a;
     header_frequency := header_frequency a; circular_deps := circular_deps a;
     unused_headers := unused_headers a; issues := issues a;
     build_times_estimate := build_times_estimate a |}.

Definition set_include_graph (v : gmap Path (gset Path)) (a : Analyzer) : Analyzer :=
  {| ignore_patterns := ignore_patterns a; analysis_config := analysis_config a;
     files := files a; include_graph := v;
     dependency_count := dependency_count a; file_sizes := file_sizes a;
     header_frequency := header_frequency a; circular_deps := circular_deps a;
     unused_headers := unused_headers a; issues := issues a;
     build_times_estimate := build_times_estimate a |}.

Definition set_dependency_count (v : gmap Path nat) (a : Analyzer) : Analyzer :=
  {| ignore_patterns := ignore_patterns a; analysis_config := analysis_config a;
     files := files a; include_graph := include_graph a;
     dependency_count := v; file_sizes := file_sizes a;
     header_frequency := header_frequency a; circular_deps := circular_deps a;
     unused_headers := unused_headers a; issues := issues a;
     build_times_estimate := build_times_estimate a |}.

Definition set_file_sizes (v : gmap Path nat) (a : Analyzer) : Analyzer :=
  {| ignore_patterns := ignore_patterns a; analysis_config := analysis_config a;
     files := files a; include_graph := include_graph a;
     dependency_count := dependency_count a; file_sizes := v;
     header_frequency := header_frequency a; circular_deps := circular_deps a;
     unused_headers := unused_headers a; issues := issues a;
     build_times_estimate := build_times_estimate a |}.

Definition set_header_frequency (v : gmap string nat) (a : Analyzer) : Analyzer :=
  {| ignore_patterns := ignore_patterns a; analysis_config := analysis_config a;
     files := files a; include_graph := include_graph a;
     dependency_count := dependency_count a; file_sizes := file_sizes a;
     header_frequency := v; circular_deps := circular_deps a;
     unused_headers := unused_headers a; issues := issues a;
     build_times_estimate := build_times_estimate a |}.

Definition set_circular_deps (v : list (list Path)) (a : Analyzer) : Analyzer :=
  {| ignore_patterns := ignore_patterns a; analysis_config := analysis_config a;
     files := files a; include_graph := include_graph a;
     dependency_count := dependency_count a; file_sizes := file_sizes a;
     header_frequency := header_frequency a; circular_deps := v;
     unused_headers := unused_headers a; issues := issues a;
     build_times_estimate := build_times_estimate a |}.

Definition set_unused_headers (v : gset Path) (a : Analyzer) : Analyzer :=
  {| ignore_patterns := ignore_patterns a; analysis_config := analysis_config a;
     files := files a; include_graph := include_graph a;
     dependency_count := dependency_count a; file_sizes := file_sizes a;
     header_frequency := header_frequency a; circular_deps := circular_deps a;
     unused_headers := v; issues := issues a;
     build_times_estimate := build_times_estimate a |}.

Definition set_issues (v : list Issue) (a : Analyzer) : Analyzer :=
  {| ignore_patterns := ignore_patterns a; analysis_config := analysis_config a;
     files := files a; include_graph := include_graph a;
     dependency_count := dependency_count a; file_sizes := file_sizes a;
     header_frequency := header_frequency a; circular_deps := circular_deps a;
     unused_headers := unused_headers a; issues := v;
     build_times_estimate := build_times_estimate a |}.

Definition set_build_times_estimate (v : list (Path * float)) (a : Analyzer) : Analyzer :=
  {| ignore_patterns := ignore_patterns a; analysis_config := analysis_config a;
     files := files a; include_graph := include_graph a;
     dependency_count := dependency_count a; file_sizes := file_sizes a;
     header_frequency := header_frequency a; circular_deps := circular_deps a;
     unused_headers := unused_headers a; issues := issues a;
     build_times_estimate := v |}.

(** The analyzer methods run in [M]. *)
Abbreviation M := (ST Analyzer).

(** [self.issues.append(i)] *)
Definition append_issue (i : Issue) : M unit :=
  st_modify (fun a => set_issues (issues a ++ [i]) a).

(* ===================================================================== *)
(** ** The methods of [CppProjectAnalyzer]                                 *)
(* ===================================================================== *)

Definition cpp_extensions : list string := [".cpp"; ".cc"; ".cxx"; ".c++"; ".C"].

Definition header_extensions : list string :=
  [".h"; ".hpp"; ".hh"; ".hxx"; ".h++"; ".inl"].

Definition default_ignore_patterns : list string :=
  ["build/"; "cmake-build-"; ".git/"; "third_party/";
   "external/"; "test/"; "tests/"; "benchmark/"; "vendor/";
   "node_modules/"; "__pycache__/"; ".vscode/"; ".vs/";
   "Debug/"; "Release/"; "x64/"; "x86/"].

(** The extensions tried by [_resolve_include_path]. *)
Definition resolve_extensions : list string := [""; ".h"; ".hpp"; ".hh"; ".hxx"].

(** [{'.h', '.hpp', '.hh'}], the headers of the checks. *)
Definition checked_header_suffixes : list string := [".h"; ".hpp"; ".hh"].

(** [{'.cpp', '.cc', '.cxx'}], the sources of the estimator. *)
Definition estimated_source_suffixes : list string := [".cpp"; ".cc"; ".cxx"].

(** [p.suffix in l] *)
Definition suffix_in (l : list string) (p : Path) : bool :=
  existsb (String.eqb (PathOps.suffix p)) l.

(** [d.get(k, set())] *)
Definition graph_get (g : gmap Path (gset Path)) (k : Path) : gset Path :=
  default ∅ (g !! k).

(** [d[k]] of a [defaultdict(int)] or a [Counter], without the insertion. *)
Definition count_get `{Countable K} (m : gmap K nat) (k : K) : nat :=
  default 0%nat (m !! k).

(** [l.index(x)] when [x] is in [l]. *)
Fixpoint list_index (x : Path) (l : list Path) : nat :=
  match l with
  | [] => 0
  | y :: l' => if String.eqb x y then 0 else S (list_index x l')
  end.

(** [enumerate(l)], counted from [i]. *)
Fixpoint enumerate_from {A} (i : nat) (l : list A) : list (nat * A) :=
  match l with
  | [] => []
  | x :: l' => (i, x) :: enumerate_from (S i) l'
  end.

(** [d[k] = v] on a dictionary kept in insertion order. *)
Fixpoint dict_set {V} (k : Path) (v : V) (d : list (Path * V)) : list (Path * V) :=
  match d with
  | [] => [(k, v)]
  | (k', v') :: d' =>
      if String.eqb k k' then (k, v) :: d' else (k', v') :: dict_set k v d'
  end.

Fixpoint dict_get {V} (k : Path) (d : list (Path * V)) : option V :=
  match d with
  | [] => None
  | (k', v') :: d' => if String.eqb k k' then Some v' else dict_get k d'
  end.

(** An [int] count as a [float]; exact below 2^53. *)
Definition float_of_nat (n : nat) : float :=
  PrimFloat.of_uint63 (Uint63.of_Z (Z.of_nat n)).

Definition base_compile_time_per_line : float := 0.001%float.

(** The expression of [_estimate_build_times], with Python's left to right
    products. *)
Definition estimated_time (lines complexity outgoing : nat) : float :=
  let dependency_penalty := (float_of_nat outgoing * 0.1)%float in
  (float_of_nat lines * base_compile_time_per_line
   * (1 + float_of_nat complexity * 0.01) * (1 + dependency_penalty))%float.

(** [sum(l)] on floats: from 0, left to right, each addition rounded (an
    interpreter that compensates the rounding of float sums may differ in
    the last digits). *)
Definition py_sum (l : list float) : float :=
  fold_left PrimFloat.add l 0%float.

(** The local state of [_detect_circular_dependencies]. *)
Record DfsState := {
  visited : gset Path;
  recursion_stack : gset Path;
  found_cycles : list (list Path);
}.

(** The part of [_get_analysis_summary] that is computed. *)
Record Summary := {
  total_files : nat;
  header_files : nat;
  source_files : nat;
  estimated_build_time : float;
  issues_found : nat;
  circular_deps_found : nat;
  unused_headers_found : nat;
}.

Section Engine.
Context {E : Env}.
Import Text Regex.

(** [_should_ignore_file] *)
Definition _should_ignore_file (ignore : list string) (file_path : Path) : bool :=
  let all_ignore_patterns := default_ignore_patterns ++ ignore in
  let file_str := relative_to_project file_path in
  existsb (fun pattern => fnmatch file_str pattern) all_ignore_patterns.

(** [discover_files]; the extensions are taken in a fixed order, which the
    final [sorted] makes irrelevant. *)
Definition discover_files : M (list Path) :=
  a <- st_get ;;
  let all_files :=
    flat_map
      (fun ext =>
         List.filter
           (fun file_path => negb (_should_ignore_file (ignore_patterns a) file_path))
           (glob ("**/*" +:+ ext)))
      (cpp_extensions ++ header_extensions) in
  st_modify (set_files (PathOps.sorted all_files)) ;;;
  st_ret (PathOps.sorted all_files).

(** The first path of a [rglob] result that is a regular file. *)
Fixpoint first_file (l : list Path) : option Path :=
  match l with
  | [] => None
  | header_file :: l' =>
      if is_file header_file then Some header_file else first_file l'
  end.

(** The loop over the extensions of [_resolve_include_path]. *)
Fixpoint search_project (include_name : string) (exts : list string)
  : outcome (option Path) :=
  match exts with
  | [] => Returns None
  | ext :: exts' =>
      let candidate_path := include_name +:+ ext in
      let candidate := joinpath project_path candidate_path in
      if path_exists candidate then Returns (Some candidate)
      else
        match rglob candidate_path with
        | Raises => Raises
        | Returns l =>
            match first_file l with
            | Some header_file => Returns (Some header_file)
            | None => search_project include_name exts'
            end
        end
  end.

(** [_resolve_include_path] *)
Definition _resolve_include_path (source_file : Path) (include_name : string)
  : outcome (option Path) :=
  if startswith "<" include_name && contains ">" include_name then Returns None
  else if startswith dquote include_name then
    let include_name := strip dquote include_name in
    let candidate := joinpath (parent source_file) include_name in
    if path_exists candidate then Returns (Some candidate)
    else search_project include_name resolve_extensions
  else search_project include_name resolve_extensions.

(** [_calculate_complexity]; the sum is an integer plus half the number of
    macro definitions, and [int] truncates it. *)
Definition _calculate_complexity (cfg : AnalysisConfig) (content : string) : nat :=
  let templates :=
    if enable_template_analysis cfg
    then re_count TemplateDecl content * 3 + re_count TemplateSpecialization content * 2
    else 0 in
  (templates + count_include_lines content + re_count ClassDecl content * 2
   + re_count FunctionDef content + re_count MacroDef content / 2)%nat.

(** [_detect_file_issues] *)
Definition _detect_file_issues (file_path : Path) (content : string) : M unit :=
  a <- st_get ;;
  let cfg := analysis_config a in
  let include_count := count_include_lines content in
  let complexity_score := _calculate_complexity cfg content in
  let file_size := String.length content in
  (if (max_header_includes cfg <? Z.of_nat include_count)%Z
   then append_issue {| issue_type := EXCESSIVE_INCLUDES;
                        issue_file := OfFile file_path;
                        issue_severity := MEDIUM;
                        issue_message := MsgIncludes include_count (max_header_includes cfg) |}
   else st_ret tt) ;;;
  (if (max_file_complexity cfg <? Z.of_nat complexity_score)%Z
   then append_issue {| issue_type := HIGH_COMPLEXITY;
                        issue_file := OfFile file_path;
                        issue_severity := HIGH;
                        issue_message := MsgComplexity complexity_score |}
   else st_ret tt) ;;;
  (if suffix_in checked_header_suffixes file_path
      && (max_header_size cfg <? Z.of_nat file_size)%Z
   then append_issue {| issue_type := LARGE_HEADER;
                        issue_file := OfFile file_path;
                        issue_severity := MEDIUM;
                        issue_message := MsgSize file_size |}
   else st_ret tt).

(** Lines 169 and 170: the edge and the counter of its target. *)
Definition add_edge (file_path resolved_path : Path) : M unit :=
  st_modify (fun a =>
    set_include_graph
      (<[file_path := graph_get (include_graph a) file_path ∪ {[resolved_path]}]>
         (include_graph a)) a) ;;;
  st_modify (fun a =>
    set_dependency_count
      (<[resolved_path := S (count_get (dependency_count a) resolved_path)]>
         (dependency_count a)) a).

(** The body of the loop over the includes of a file. *)
Definition process_include (file_path : Path) (included : string) : M unit :=
  st_modify (fun a =>
    set_header_frequency
      (<[included := S (count_get (header_frequency a) included)]>
         (header_frequency a)) a) ;;;
  resolved_path <- st_lift (_resolve_include_path file_path included) ;;
  match resolved_path with
  | Some p => add_edge file_path p
  | None => st_ret tt
  end.

Definition open_or_raise {S} (o : option string) : ST S string :=
  match o with
  | Some content => st_ret content
  | None => st_raise
  end.

(** [_analyze_file_includes] *)
Definition _analyze_file_includes (file_path : Path) : M unit :=
  try_except
    (content <- open_or_raise (open_ignore file_path) ;;
     st_modify (fun a =>
       set_file_sizes (<[file_path := String.length content]> (file_sizes a)) a) ;;;
     for_each (findall_includes content) (process_include file_path) ;;;
     _detect_file_issues file_path content)
    (st_ret tt).

(** [_sequential_analyze_files] *)
Definition _sequential_analyze_files : M unit :=
  a <- st_get ;;
  for_each (files a)
    (fun file_path => try_except (_analyze_file_includes file_path) (st_ret tt)).

(** The inner function [dfs]; [depth] is the number of frames left before
    [RecursionError]. *)
Fixpoint dfs (depth : nat) (graph : gmap Path (gset Path)) (file_path : Path)
  : ST DfsState unit :=
  match depth with
  | O => st_raise
  | S depth' =>
      st <- st_get ;;
      if bool_decide (file_path ∈ recursion_stack st) then
        let stack_list := set_order (recursion_stack st) in
        let cycle_start := list_index file_path stack_list in
        let cycle := drop cycle_start stack_list in
        st_modify (fun st =>
          {| visited := visited st; recursion_stack := recursion_stack st;
             found_cycles := found_cycles st ++ [cycle] |})
      else if bool_decide (file_path ∈ visited st) then st_ret tt
      else
        st_modify (fun st =>
          {| visited := visited st ∪ {[file_path]};
             recursion_stack := recursion_stack st ∪ {[file_path]};
             found_cycles := found_cycles st |}) ;;;
        for_each (set_order (graph_get graph file_path)) (dfs depth' graph) ;;;
        st_modify (fun st =>
          {| visited := visited st;
             recursion_stack := recursion_stack st ∖ {[file_path]};
             found_cycles := found_cycles st |})
  end.

(** The loop of [_detect_circular_dependencies] over [self.files]. *)
Definition dfs_all (graph : gmap Path (gset Path)) (fs : list Path)
  : ST DfsState unit :=
  for_each fs (fun file_path =>
    st <- st_get ;;
    if bool_decide (file_path ∈ visited st) then st_ret tt
    else dfs recursion_limit graph file_path).

Definition cycle_issue (ic : nat * list Path) : Issue :=
  {| issue_type := CIRCULAR_DEPENDENCY;
     issue_file := OfCycle (fst ic + 1);
     issue_severity := HIGH;
     issue_message := MsgCycle (snd ic) |}.

(** [_detect_circular_dependencies] *)
Definition _detect_circular_dependencies : M unit :=
  a <- st_get ;;
  let '(r, st) :=
    dfs_all (include_graph a) (files a)
      {| visited := ∅; recursion_stack := ∅; found_cycles := circular_deps a |} in
  st_modify (set_circular_deps (found_cycles st)) ;;;
  st_lift r ;;;
  for_each (enumerate_from 0 (found_cycles st))
    (fun ic => append_issue (cycle_issue ic)).

Definition unused_issue (header : Path) : Issue :=
  {| issue_type := UNUSED_HEADER;
     issue_file := OfFile header;
     issue_severity := LOW;
     issue_message := MsgUnused |}.

(** [_detect_unused_headers] *)
Definition _detect_unused_headers : M unit :=
  a <- st_get ;;
  let included_headers : gset Path :=
    ⋃ ((map_to_list (include_graph a)).*2) in
  let all_headers : gset Path :=
    list_to_set (List.filter (suffix_in checked_header_suffixes) (files a)) in
  let unused := all_headers ∖ included_headers in
  st_modify (set_unused_headers unused) ;;;
  for_each (set_order unused) (fun header => append_issue (unused_issue header)).

(** The [try] block of [_estimate_build_times] for one file. *)
Definition estimate_one (file_path : Path) : M unit :=
  content <- open_or_raise (open_ignore file_path) ;;
  let lines := count_lines content in
  content' <- open_or_raise (open_default file_path) ;;
  a <- st_get ;;
  let complexity := _calculate_complexity (analysis_config a) content' in
  let outgoing := size (graph_get (include_graph a) file_path) in
  st_modify (fun a =>
    set_build_times_estimate
      (dict_set file_path (estimated_time lines complexity outgoing)
         (build_times_estimate a)) a).

(** [_estimate_build_times] *)
Definition _estimate_build_times : M unit :=
  a <- st_get ;;
  for_each (files a) (fun file_path =>
    if suffix_in estimated_source_suffixes file_path then
      try_except (estimate_one file_path)
        (st_modify (fun a =>
           set_build_times_estimate
             (dict_set file_path 0%float (build_times_estimate a)) a))
    else st_ret tt).

(** [_get_analysis_summary] *)
Definition _get_analysis_summary (a : Analyzer) : Summary :=
  let headers := List.filter (suffix_in checked_header_suffixes) (files a) in
  let sources := List.filter (suffix_in estimated_source_suffixes) (files a) in
  let total_estimated_build_time := py_sum (build_times_estimate a).*2 in
  {| total_files := length (files a);
     header_files := length headers;
     source_files := length sources;
     estimated_build_time := total_estimated_build_time;
     issues_found := length (issues a);
     circular_deps_found := length (circular_deps a);
     unused_headers_found := size (unused_headers a) |}.

(** [_parallel_analyze_files], on the schedule where the pool runs the
    submitted calls one after the other in the order of submission; a call
    catches its own exceptions.  The pool of the program may complete the
    calls in another order and interleave them, so what is stated of the
    order of the issues, or of the whole state after the pass, is stated for
    the sequential mode. *)
Definition _parallel_analyze_files : M unit :=
  a <- st_get ;;
  for_each (files a)
    (fun file_path => try_except (_analyze_file_includes file_path) (st_ret tt)).

(** [analyze_project].  The template and suggestion passes do not write to
    the fields kept here. *)
Definition analyze_project : M Summary :=
  discover_files ;;;
  a <- st_get ;;
  (if parallel_analysis (analysis_config a)
   then _parallel_analyze_files else _sequential_analyze_files) ;;;
  (if enable_circular_dep_check (analysis_config a)
   then _detect_circular_dependencies else st_ret tt) ;;;
  (if enable_unused_header_check (analysis_config a)
   then _detect_unused_headers else st_ret tt) ;;;
  _estimate_build_times ;;;
  a <- st_get ;;
  st_ret (_get_analysis_summary a).

End Engine.

(* ===================================================================== *)
(** ** A small concrete environment                                        *)
(* ===================================================================== *)

(** A project directory [/proj] given by its regular files (path relative to
    the root, text); the directories are those the paths go through.  It is
    the environment of the examples. *)
Module Toy.
Import Text.

Definition root : Path := "/proj".

Definition full (rel : string) : Path := root +:+ "/" +:+ rel.

Definition file_paths (disk : list (string * string)) : list Path :=
  map (fun e => full (fst e)) disk.

Definition is_regular (disk : list (string * string)) (p : Path) : bool :=
  existsb (String.eqb p) (file_paths disk).

Definition is_dir (disk : list (string * string)) (p : Path) : bool :=
  String.eqb p root
  || existsb (fun q => String.prefix (p +:+ "/") q) (file_paths disk).

Fixpoint dirname (s : string) : string :=
  match s with
  | EmptyString => EmptyString
  | String c s' => if contains "/" s' then String c (dirname s') else EmptyString
  end.

Definition relative (p : Path) : string :=
  match strip_prefix (root +:+ "/") p with
  | Some rel => rel
  | None => p
  end.

Definition read (disk : list (string * string)) (p : Path) : option string :=
  snd <$> List.find (fun e => String.eqb p (full (fst e))) disk.

(** Shell-style matching with [*] and [?] on the whole name. *)
Fixpoint wildcard (pat : string) : string -> bool :=
  match pat with
  | EmptyString => fun s => match s with EmptyString => true | _ => false end
  | String "*" pat' =>
      fix star (s : string) : bool :=
        wildcard pat' s
        || match s with String _ s' => star s' | EmptyString => false end
  | String "?" pat' =>
      fun s => match s with String _ s' => wildcard pat' s' | EmptyString => false end
  | String c pat' =>
      fun s =>
        match s with
        | String d s' => Ascii.eqb c d && wildcard pat' s'
        | EmptyString => false
        end
  end.

(** The files whose name ends with the extension of a [**/*ext] pattern. *)
Definition glob_ext (disk : list (string * string)) (pattern : string) : list Path :=
  match strip_prefix "**/*" pattern with
  | Some ext => List.filter (endswith ext) (file_paths disk)
  | None => []
  end.

(** The files found under any directory by their relative name; an
    absolute pattern raises. *)
Definition rglob_name (disk : list (string * string)) (pattern : string)
  : outcome (list Path) :=
  if startswith "/" pattern then Raises
  else Returns (List.filter (endswith ("/" +:+ pattern)) (file_paths disk)).

(** Sets listed in increasing, respectively decreasing, path order. *)
Definition ascending (s : gset Path) : list Path := PathOps.sorted (elements s).
Definition descending (s : gset Path) : list Path := rev (ascending s).

(** The toy environment of the examples.  Its scorer finds no class,
    function, template or macro in any text ([re_count] is 0), and it leaves
    1000 frames to the traversal: the scores, the estimates and the depths
    of the examples are those of this environment. *)
Definition env (disk : list (string * string)) (order : gset Path -> list Path) : Env := {|
  project_path := root;
  joinpath := fun p n => p +:+ "/" +:+ n;
  parent := dirname;
  relative_to_project := relative;
  path_exists := fun p => is_regular disk p || is_dir disk p;
  is_file := is_regular disk;
  glob := glob_ext disk;
  rglob := rglob_name disk;
  fnmatch := fun name pat => wildcard pat name;
  open_ignore := read disk;
  open_default := read disk;
  set_order := order;
  re_count := fun _ _ => 0%nat;
  recursion_limit := 1000;
|}.

(** The default configuration with the sequential mode. *)
Definition config : AnalysisConfig := {|
  max_header_includes := 20;
  max_file_complexity := 50;
  max_header_size := 10000;
  pch_max_headers := 25;
  enable_template_analysis := true;
  enable_circular_dep_check := true;
  enable_unused_header_check := true;
  parallel_analysis := false;
  analysis_timeout := 30;
|}.

(** A run of [analyze_project] on a fresh analyzer. *)
Definition run (disk : list (string * string)) (order : gset Path -> list Path)
    (ignore : list string) (cfg : AnalysisConfig) : Analyzer :=
  exec (analyze_project (E := env disk order)) (new_analyzer ignore cfg).

End Toy.

(* ===================================================================== *)
(** ** Vocabulary of the statements                                        *)
(* ===================================================================== *)

Module Directive.
Import Text.

(** Only white space. *)
Fixpoint all_spaces (s : string) : bool :=
  match s with
  | String c s' => is_space c && all_spaces s'
  | EmptyString => true
  end.

(** A name the recognizer can capture: not empty, and free of greater-than
    signs and of double quotes. *)
Definition capturable (name : string) : Prop :=
  name ≠ EmptyString ∧ contains ">" name = false ∧ contains dquote name = false.

(** The text of a directive: white space [ws0], the hash sign, white space
    [ws1], the keyword, white space [ws2], the name between the delimiters
    [o] and [c], and whatever follows. *)
Definition text (ws0 ws1 ws2 : string) (o : ascii) (name : string) (c : ascii)
    (rest : string) : string :=
  ws0 +:+ String "#" (ws1 +:+ "include" +:+ ws2 +:+ String o (name +:+ String c rest)).

End Directive.

(** The places where an include may be looked up. *)
Inductive Probe :=
| Sibling (source_file : Path) (name : string)
| AtRoot (candidate_path : string)
| Recursive (candidate_path : string).

Section SearchOrders.
Context {E : Env}.

(** One lookup: a path next to the including file or under the root counts
    when it exists, a recursive search gives its first regular file. *)
Definition probe_hit (p : Probe) : outcome (option Path) :=
  match p with
  | Sibling source_file name =>
      let candidate := joinpath (parent source_file) name in
      Returns (if path_exists candidate then Some candidate else None)
  | AtRoot candidate_path =>
      let candidate := joinpath project_path candidate_path in
      Returns (if path_exists candidate then Some candidate else None)
  | Recursive candidate_path =>
      match rglob candidate_path with
      | Returns l => Returns (first_file l)
      | Raises => Raises
      end
  end.

(** The first lookup of a list that finds something. *)
Fixpoint first_hit (l : list Probe) : outcome (option Path) :=
  match l with
  | [] => Returns None
  | p :: l' =>
      match probe_hit p with
      | Returns None => first_hit l'
      | r => r
      end
  end.

(** The order of the specification: the directory of the including file,
    then the root with each extension, then a recursive search by
    basename. *)
Definition specified_order (source_file : Path) (name : string) : list Probe :=
  Sibling source_file name
  :: map (λ ext, AtRoot (name +:+ ext)) resolve_extensions
  ++ [Recursive (PathOps.name name)].

(** The order of the loop: extension by extension, the root and then a
    recursive search for the name with that extension. *)
Definition interleaved_order (name : string) : list Probe :=
  flat_map (λ ext, [AtRoot (name +:+ ext); Recursive (name +:+ ext)])
    resolve_extensions.

End SearchOrders.

Global Instance IssueType_eq_dec : EqDecision IssueType.
Proof. solve_decision. Defined.

Global Instance Severity_eq_dec : EqDecision Severity.
Proof. solve_decision. Defined.

(** The projects of the examples. *)
Module Projects.
Import Text.

(** A source that includes [util.h] between angle brackets, next to a
    project file of that name. *)
Definition angle : list (string * string) :=
  [("a.cpp", line "#include <util.h>" +:+ "int main() { return f(); }");
   ("util.h", "int f();")].

(** A quoted include of [foo], with [foo.h] at the root and a file [foo]
    in a subdirectory. *)
Definition shadow : list (string * string) :=
  [("a.cpp", "#include " +:+ quoted "foo");
   ("foo.h", "int g();");
   ("sub/foo", "int h();")].

(** Two headers that include each other. *)
Definition mutual : list (string * string) :=
  [("x.h", "#include " +:+ quoted "y.h");
   ("y.h", "#include " +:+ quoted "x.h")].

(** The analyzer of a project whose graph has exactly the edges
    [x.h -> y.h] and [y.h -> x.h]. *)
Definition mutual_analyzer : Analyzer :=
  set_include_graph
    (<["/proj/x.h" := {["/proj/y.h"]}]> (<["/proj/y.h" := {["/proj/x.h"]}]> ∅))
    (set_files ["/proj/x.h"; "/proj/y.h"] (new_analyzer [] default_analysis_config)).

(** [n] include lines. *)
Fixpoint include_lines (n : nat) : string :=
  match n with
  | O => EmptyString
  | S n' => line "#include <vector>" +:+ include_lines n'
  end.

(** A source that includes a text file of the project. *)
Definition notes : list (string * string) :=
  [("a.cpp", "#include " +:+ quoted "notes.txt");
   ("notes.txt", "to do")].

(** A header and a source with extensions that only the catalog knows. *)
Definition rare_extensions : list (string * string) :=
  [("main.C", line "int main() {" +:+ line "  return 0;" +:+ line "}");
   ("w.hxx", "struct W;")].

(** A generated source under [build/] and a file under [.git/]. *)
Definition with_build_dir : list (string * string) :=
  [(".git/hooks/probe.cc", "int probe;");
   ("build/gen.cpp", "int generated;");
   ("main.cpp", "int main() { return 0; }")].

(** A source with one include, one header that is included and one that
    is not. *)
Definition small : list (string * string) :=
  [("main.cpp", line ("#include " +:+ quoted "used.h") +:+ line "int main() { return 0; }");
   ("unused.h", "struct U;");
   ("used.h", "struct V;")].

End Projects.

(** The ExcessiveIncludes issue of a file. *)
Definition excessive_includes_issue (file_path : Path) (include_count : nat)
    (threshold : Z) : Issue :=
  {| issue_type := EXCESSIVE_INCLUDES;
     issue_file := OfFile file_path;
     issue_severity := MEDIUM;
     issue_message := MsgIncludes include_count threshold |}.


Global Instance Subject_eq_dec : EqDecision Subject.
Proof. solve_decision. Defined.

Section GraphVocabulary.
Context {E : Env}.

(** A path the disk knows: it exists, or it is a regular file. *)
Definition on_disk (p : Path) : Prop := path_exists p = true ∨ is_file p = true.

(** Every edge starts at a file of the catalog and ends at a path of the
    disk. *)
Definition edges_grounded (a : Analyzer) : Prop :=
  ∀ A B, B ∈ graph_get (include_graph a) A → A ∈ files a ∧ on_disk B.

End GraphVocabulary.

(** The number of distinct files with an edge to [T]. *)
Definition fan_in (g : gmap Path (gset Path)) (T : Path) : nat :=
  size (filter (λ f, T ∈ graph_get g f) (dom g)).

(** No reverse count is below the fan-in of its file. *)
Definition fan_in_bounded (a : Analyzer) : Prop :=
  ∀ T, fan_in (include_graph a) T ≤ count_get (dependency_count a) T.

(** A reverse count is positive exactly for the targets of edges. *)
Definition counts_mark_targets (a : Analyzer) : Prop :=
  ∀ T, 0 < count_get (dependency_count a) T ↔ ∃ A, T ∈ graph_get (include_graph a) A.

(** The issues of a list whose subject is the file [h]. *)
Definition issues_about (h : Path) (l : list Issue) : list Issue :=
  List.filter (λ i, bool_decide (issue_file i = OfFile h)) l.

Section EstimateVocabulary.
Context {E : Env}.

(** What [_estimate_build_times] stores for a file it handles: the
    expression on the two readings of the file, or 0 when one of them
    raises. *)
Definition file_estimate (a : Analyzer) (f : Path) : float :=
  match open_ignore f, open_default f with
  | Some content, Some content' =>
      estimated_time (Text.count_lines content)
        (_calculate_complexity (analysis_config a) content')
        (size (graph_get (include_graph a) f))
  | _, _ => 0%float
  end.

(** One round of the loop of [_estimate_build_times] on the table [d]. *)
Definition estimate_step (a : Analyzer) (d : list (Path * float)) (f : Path)
  : list (Path * float) :=
  if suffix_in estimated_source_suffixes f then dict_set f (file_estimate a f) d else d.

End EstimateVocabulary.

(* ===================================================================== *)
(** ** Vocabulary of the further properties                                *)
(* ===================================================================== *)

(** The HighComplexity issue of a file. *)
Definition high_complexity_issue (file_path : Path) (score : nat) : Issue :=
  {| issue_type := HIGH_COMPLEXITY;
     issue_file := OfFile file_path;
     issue_severity := HIGH;
     issue_message := MsgComplexity score |}.

(** The LargeHeader issue of a file. *)
Definition large_header_issue (file_path : Path) (file_size : nat) : Issue :=
  {| issue_type := LARGE_HEADER;
     issue_file := OfFile file_path;
     issue_severity := MEDIUM;
     issue_message := MsgSize file_size |}.

(** The issues of a list that have the type [t]. *)
Definition issues_of_type (t : IssueType) (l : list Issue) : list Issue :=
  List.filter (λ i, bool_decide (issue_type i = t)) l.

Section AnalysisVocabulary.
Context {E : Env}.

(** The name in the include directive that opens the text of a file, when
    the file can be read and its text opens with one. *)
Definition opening_include (f : Path) : option string :=
  match open_ignore f with
  | Some content =>
      match Regex.match_include_body content with
      | Some (name, _) => Some name
      | None => None
      end
  | None => None
  end.

(** The project path that the opening include of a file resolves to. *)
Definition opening_target (f : Path) : option Path :=
  match opening_include f with
  | Some name =>
      match _resolve_include_path f name with
      | Returns (Some T) => Some T
      | _ => None
      end
  | None => None
  end.

(** The analysis of the files of a list, one after the other. *)
Definition analyze_files (l : list Path) (a : Analyzer) : Analyzer :=
  fold_left (λ s f, exec (_analyze_file_includes f) s) l a.

(** A fresh analyzer after discovery and the sequential analysis. *)
Definition analyzed (ignore : list string) (cfg : AnalysisConfig) : Analyzer :=
  exec (discover_files ;;; _sequential_analyze_files) (new_analyzer ignore cfg).

End AnalysisVocabulary.

(** A source whose opening include is an absolute path that does not exist,
    followed by 25 more includes. *)
Definition absolute_include_project : list (string * string) :=
  [("a.cpp", Text.line ("#include " +:+ Text.quoted "/nowhere/x.h")
             +:+ Projects.include_lines 25)].



(** An include edge of the graph. *)
Definition edge (g : gmap Path (gset Path)) (x y : Path) : Prop := y ∈ graph_get g x.

(** The files that the traversal can meet: the catalog, the files with
    edges and the targets of edges. *)
Definition graph_nodes (g : gmap Path (gset Path)) (fs : list Path) : gset Path :=
  list_to_set fs ∪ dom g ∪ ⋃ ((map_to_list g).*2).

(** Entering and leaving a file in [dfs]. *)
Definition dfs_push (f : Path) (st : DfsState) : DfsState :=
  {| visited := visited st ∪ {[f]};
     recursion_stack := recursion_stack st ∪ {[f]};
     found_cycles := found_cycles st |}.

Definition dfs_pop (f : Path) (st : DfsState) : DfsState :=
  {| visited := visited st;
     recursion_stack := recursion_stack st ∖ {[f]};
     found_cycles := found_cycles st |}.

(** The files whose traversal is over. *)
Definition finished (st : DfsState) : gset Path := visited st ∖ recursion_stack st.

(** The finished files are ranked so that every edge from one of them goes
    to a finished file of lower rank. *)
Definition ranked (g : gmap Path (gset Path)) (st : DfsState) : Prop :=
  ∃ (rk : Path → nat) (bound : nat),
    ∀ u, u ∈ finished st →
         rk u < bound ∧ ∀ w, edge g u w → w ∈ finished st ∧ rk w < rk u.

(** What every call of the traversal keeps: the cycles found so far stay,
    the visited set grows, and a call that returns leaves the stack as it
    found it. *)
Definition keeps (m : ST DfsState unit) : Prop :=
  ∀ st, (∃ new, found_cycles (snd (m st)) = found_cycles st ++ new)
        ∧ visited st ⊆ visited (snd (m st))
        ∧ (fst (m st) = Returns tt → recursion_stack (snd (m st)) = recursion_stack st).

(** A reported list that starts at a file which includes itself through
    one or more edges. *)
Definition closes_cycle (g : gmap Path (gset Path)) (c : list Path) : Prop :=
  ∃ h, head c = Some h ∧ tc (edge g) h h.

(** The traversal that [_detect_circular_dependencies] runs on an analyzer. *)
Definition traversal {E : Env} (a : Analyzer) : outcome unit * DfsState :=
  dfs_all (include_graph a) (files a)
    {| visited := ∅; recursion_stack := ∅; found_cycles := circular_deps a |}.

(** The paths that [glob] gives for the recognized extensions and that no
    ignore pattern matches, with their repetitions. *)
Definition glob_hits {E : Env} (ignore : list string) : list Path :=
  flat_map
    (λ ext, List.filter (λ file_path, negb (_should_ignore_file ignore file_path))
              (glob ("**/*" +:+ ext)))
    (cpp_extensions ++ header_extensions).

(** The passes of [analyze_project] that follow cycle detection. *)
Definition later_passes {E : Env} (cfg : AnalysisConfig) (a : Analyzer) : Analyzer :=
  exec _estimate_build_times
    (if enable_unused_header_check cfg then exec _detect_unused_headers a else a).

(** A chain of includes: every file of the list but the last has the next
    one as its only edge. *)
Fixpoint include_chain (g : gmap Path (gset Path)) (c : list Path) : Prop :=
  match c with
  | x :: c' =>
      match c' with
      | y :: _ => graph_get g x = {[y]} ∧ include_chain g c'
      | [] => True
      end
  | [] => True
  end.

(** The toy environment with another recursion limit. *)
Definition shallow_env (disk : list (string * string)) (order : gset Path → list Path)
    (limit : nat) : Env := {|
  project_path := project_path (Env := Toy.env disk order);
  joinpath := joinpath (Env := Toy.env disk order);
  parent := parent (Env := Toy.env disk order);
  relative_to_project := relative_to_project (Env := Toy.env disk order);
  path_exists := path_exists (Env := Toy.env disk order);
  is_file := is_file (Env := Toy.env disk order);
  glob := glob (Env := Toy.env disk order);
  rglob := rglob (Env := Toy.env disk order);
  fnmatch := fnmatch (Env := Toy.env disk order);
  open_ignore := open_ignore (Env := Toy.env disk order);
  open_default := open_default (Env := Toy.env disk order);
  set_order := order;
  re_count := re_count (Env := Toy.env disk order);
  recursion_limit := limit;
|}.

(** An analyzer whose graph is the chain [a.h -> b.h -> c.h]. *)
Definition chain_analyzer : Analyzer :=
  set_include_graph
    (<["/proj/a.h" := {["/proj/b.h"]}]> (<["/proj/b.h" := {["/proj/c.h"]}]> ∅))
    (set_files ["/proj/a.h"; "/proj/b.h"; "/proj/c.h"]
       (new_analyzer [] default_analysis_config)).

(** The issues that the checks of [_detect_file_issues] give for the text of
    a file, in the order of the checks. *)
Definition issues_for {E : Env} (cfg : AnalysisConfig) (file_path : Path)
    (content : string) : list Issue :=
  let n := Regex.count_include_lines content in
  let score := _calculate_complexity cfg content in
  let size := String.length content in
  (if (max_header_includes cfg <? Z.of_nat n)%Z
   then [excessive_includes_issue file_path n (max_header_includes cfg)] else [])
  ++ (if (max_file_complexity cfg <? Z.of_nat score)%Z
      then [high_complexity_issue file_path score] else [])
  ++ (if suffix_in checked_header_suffixes file_path
         && (max_header_size cfg <? Z.of_nat size)%Z
      then [large_header_issue file_path size] else []).

(** The text of a file whose analysis reaches the checks: the file is read
    and its opening include, if it has one, is resolved without an
    exception. *)
Definition checked_text {E : Env} (f : Path) : option string :=
  match open_ignore f with
  | None => None
  | Some content =>
      match Regex.match_include_body content with
      | None => Some content
      | Some (name, _) =>
          match _resolve_include_path f name with
          | Raises => None
          | Returns _ => Some content
          end
      end
  end.

(* ===================================================================== *)
(** ** The suggestions                                                     *)
(* ===================================================================== *)

(** [config.enums.Compiler] and [config.enums.BuildSystem] *)
Inductive Compiler := GCC | CLANG | MSVC | ICC.

Inductive BuildSystem := CMAKE | QMAKE | NINJA | MSBUILD | MAKE | BAZEL | MESON.

(** [b.value] for a build system [b] *)
Definition build_system_value (b : BuildSystem) : string :=
  match b with
  | CMAKE => "cmake" | QMAKE => "qmake" | NINJA => "ninja" | MSBUILD => "msbuild"
  | MAKE => "make" | BAZEL => "bazel" | MESON => "meson"
  end.

(** [OptimizationConfig] and its defaults *)
Record OptimizationConfig := {
  generate_pch : bool;
  compile_pch : bool;
  pch_name : string;
  enable_lto : bool;
  enable_ipo : bool;
  enable_pgo : bool;
  unity_build : bool;
  cache_compilation : bool;
  parallel_build : bool;
}.

Definition default_optimization_config : OptimizationConfig := {|
  generate_pch := false;
  compile_pch := false;
  pch_name := "pch.h";
  enable_lto := true;
  enable_ipo := true;
  enable_pgo := false;
  unity_build := false;
  cache_compilation := true;
  parallel_build := true;
|}.

Inductive SuggestionType :=
| FORWARD_DECLARATION | PIMPL_PATTERN | UNIFIED_HEADER | BUILD_OPTIMIZATION
| COMPILER_OPTIMIZATION | CODE_RESTRUCTURING | CACHING_STRATEGY.

(** What the ['description'] and ['action'] entries of a suggestion are
    formatted from. *)
Inductive Advice :=
| AdviceForwardDeclaration (header : Path) (count : nat)
| AdvicePimpl (header : Path)
| AdviceUnifiedHeader
| AdviceParallelBuild (system command : string)
| AdviceCompilationCache
| AdviceUnityBuild
| AdviceLTO
| AdvicePGO
| AdviceThinLTO
| AdviceWholeProgram
| AdviceIPO
| AdviceSplitFile (est_time : float)
| AdviceDistributedCache.

(** A suggestion dictionary; ['target'] is [str(path)], ['PROJECT'] or the
    name of a compiler. *)
Record Suggestion := {
  suggestion_type : SuggestionType;
  suggestion_target : string;
  suggestion_priority : Severity;
  suggestion_advice : Advice;
}.

(** The analyzer object with the fields that only the suggestions use:
    [base] holds the fields of the analysis. *)
Record Advisor := {
  base : Analyzer;
  compiler : Compiler;
  build_system : BuildSystem;
  optimization_config : OptimizationConfig;
  suggestions : list Suggestion;
}.

(** [CppProjectAnalyzer(project_path, compiler, build_system, ignore_patterns,
    analysis_config, optimization_config)] *)
Definition new_advisor (c : Compiler) (b : BuildSystem) (ignore : list string)
    (cfg : AnalysisConfig) (opt : OptimizationConfig) : Advisor := {|
  base := new_analyzer ignore cfg;
  compiler := c;
  build_system := b;
  optimization_config := opt;
  suggestions := [];
|}.

Definition set_base (v : Analyzer) (o : Advisor) : Advisor :=
  {| base := v; compiler := compiler o; build_system := build_system o;
     optimization_config := optimization_config o; suggestions := suggestions o |}.

Definition set_suggestions (v : list Suggestion) (o : Advisor) : Advisor :=
  {| base := base o; compiler := compiler o; build_system := build_system o;
     optimization_config := optimization_config o; suggestions := v |}.

Definition set_optimization_config (v : OptimizationConfig) (o : Advisor) : Advisor :=
  {| base := base o; compiler := compiler o; build_system := build_system o;
     optimization_config := v; suggestions := suggestions o |}.

(** [self.suggestions.append(s)] and [self.suggestions.extend(l)] *)
Definition append_suggestion (s : Suggestion) : ST Advisor unit :=
  st_modify (fun o => set_suggestions (suggestions o ++ [s]) o).

Definition extend_suggestions (l : list Suggestion) : ST Advisor unit :=
  st_modify (fun o => set_suggestions (suggestions o ++ l) o).

(** A method of the analysis, run on the whole object. *)
Definition on_base {A} (m : M A) : ST Advisor A :=
  fun o => let '(r, a) := m (base o) in (r, set_base a o).

(** What the suggestions need from the interpreter beyond [Env]. *)
Class AdviceEnv := {
  (** [d.items()] for a dictionary keyed by paths: the order of insertion *)
  dict_items : forall {V : Type}, gmap Path V -> list (Path * V);
  (** the number of matches of the forward declaration pattern of
      [_suggest_unified_headers] in a text *)
  forward_declaration_count : string -> nat;
}.

(** [_get_parallel_build_command] *)
Definition _get_parallel_build_command (b : BuildSystem) : string :=
  match b with
  | CMAKE => "cmake --build . --parallel"
  | MAKE => "make -j$(nproc)"
  | NINJA => "ninja -j$(nproc)"
  | QMAKE => "make -j$(nproc)"
  | MSBUILD => "msbuild /m"
  | BAZEL => "bazel build --jobs=$(nproc)"
  | MESON => "ninja -j$(nproc)"
  end.

(** The table of [_suggest_compiler_specific_optimizations]. *)
Definition compiler_suggestions (c : Compiler) : list Suggestion :=
  match c with
  | GCC =>
      [ {| suggestion_type := COMPILER_OPTIMIZATION; suggestion_target := "GCC";
           suggestion_priority := MEDIUM; suggestion_advice := AdviceLTO |};
        {| suggestion_type := COMPILER_OPTIMIZATION; suggestion_target := "GCC";
           suggestion_priority := LOW; suggestion_advice := AdvicePGO |} ]
  | CLANG =>
      [ {| suggestion_type := COMPILER_OPTIMIZATION; suggestion_target := "Clang";
           suggestion_priority := MEDIUM; suggestion_advice := AdviceThinLTO |} ]
  | MSVC =>
      [ {| suggestion_type := COMPILER_OPTIMIZATION; suggestion_target := "MSVC";
           suggestion_priority := MEDIUM; suggestion_advice := AdviceWholeProgram |} ]
  | ICC =>
      [ {| suggestion_type := COMPILER_OPTIMIZATION; suggestion_target := "ICC";
           suggestion_priority := MEDIUM; suggestion_advice := AdviceIPO |} ]
  end.

(** [sorted(l, key=lambda x: x[1], reverse=True)]: by decreasing time, the
    entries of equal time in their order in [l]. *)
Fixpoint insert_by_time (x : Path * float) (l : list (Path * float))
  : list (Path * float) :=
  match l with
  | [] => [x]
  | y :: l' =>
      if PrimFloat.ltb (snd x) (snd y) then y :: insert_by_time x l' else x :: l
  end.

Definition sorted_by_time (l : list (Path * float)) : list (Path * float) :=
  foldr insert_by_time [] l.

Definition forward_declaration_suggestion (header : Path) (count : nat) : Suggestion :=
  {| suggestion_type := FORWARD_DECLARATION; suggestion_target := header;
     suggestion_priority := HIGH;
     suggestion_advice := AdviceForwardDeclaration header count |}.

Definition pimpl_suggestion (header : Path) : Suggestion :=
  {| suggestion_type := PIMPL_PATTERN; suggestion_target := header;
     suggestion_priority := MEDIUM; suggestion_advice := AdvicePimpl header |}.

Definition unified_header_suggestion (header : Path) : Suggestion :=
  {| suggestion_type := UNIFIED_HEADER; suggestion_target := header;
     suggestion_priority := LOW; suggestion_advice := AdviceUnifiedHeader |}.

Definition code_restructuring_suggestion (file_path : Path) (est_time : float)
  : Suggestion :=
  {| suggestion_type := CODE_RESTRUCTURING; suggestion_target := file_path;
     suggestion_priority := MEDIUM; suggestion_advice := AdviceSplitFile est_time |}.

Section Suggestions.
Context {E : Env} {D : AdviceEnv}.

(** [_suggest_forward_declarations] *)
Definition _suggest_forward_declarations : ST Advisor unit :=
  o <- st_get ;;
  let highly_included_headers :=
    map fst
      (List.filter
         (fun hc => (5 <? Z.of_nat (snd hc))%Z
                    && suffix_in checked_header_suffixes (fst hc))
         (dict_items (dependency_count (base o)))) in
  for_each highly_included_headers (fun header =>
    append_suggestion
      (forward_declaration_suggestion header
         (count_get (dependency_count (base o)) header))).

(** [_suggest_pimpl_pattern] *)
Definition _suggest_pimpl_pattern : ST Advisor unit :=
  o <- st_get ;;
  let large_headers :=
    map fst
      (List.filter
         (fun fs => (15000 <? Z.of_nat (snd fs))%Z
                    && suffix_in checked_header_suffixes (fst fs))
         (dict_items (file_sizes (base o)))) in
  for_each large_headers (fun header => append_suggestion (pimpl_suggestion header)).

(** [_suggest_unified_headers]; a header that cannot be read is skipped. *)
Definition _suggest_unified_headers : ST Advisor unit :=
  o <- st_get ;;
  let header_files := List.filter (suffix_in checked_header_suffixes) (files (base o)) in
  for_each header_files (fun header =>
    match open_ignore header with
    | None => st_ret tt
    | Some content =>
        let forward_decls := forward_declaration_count content in
        let includes := Regex.count_include_lines content in
        if (5 <? forward_decls)%nat && (includes <? 3)%nat
        then append_suggestion (unified_header_suggestion header)
        else st_ret tt
    end).

(** [_suggest_build_optimizations]; the number of processors that it reads
    is not used. *)
Definition _suggest_build_optimizations : ST Advisor unit :=
  o <- st_get ;;
  let build_suggestions :=
    [ {| suggestion_type := BUILD_OPTIMIZATION; suggestion_target := "PROJECT";
         suggestion_priority := HIGH;
         suggestion_advice :=
           AdviceParallelBuild (build_system_value (build_system o))
             (_get_parallel_build_command (build_system o)) |} ] in
  let build_suggestions :=
    if cache_compilation (optimization_config o)
    then build_suggestions
         ++ [ {| suggestion_type := BUILD_OPTIMIZATION; suggestion_target := "PROJECT";
                 suggestion_priority := MEDIUM;
                 suggestion_advice := AdviceCompilationCache |} ]
    else build_suggestions in
  let build_suggestions :=
    if unity_build (optimization_config o)
    then build_suggestions
         ++ [ {| suggestion_type := BUILD_OPTIMIZATION; suggestion_target := "PROJECT";
                 suggestion_priority := MEDIUM;
                 suggestion_advice := AdviceUnityBuild |} ]
    else build_suggestions in
  extend_suggestions build_suggestions.

(** [_suggest_compiler_specific_optimizations] *)
Definition _suggest_compiler_specific_optimizations : ST Advisor unit :=
  o <- st_get ;;
  extend_suggestions (compiler_suggestions (compiler o)).

(** [_suggest_code_restructuring] *)
Definition _suggest_code_restructuring : ST Advisor unit :=
  o <- st_get ;;
  let slow_files :=
    take 5
      (sorted_by_time
         (List.filter (fun ft => PrimFloat.ltb 1.0 (snd ft))
            (build_times_estimate (base o)))) in
  for_each slow_files (fun ft =>
    append_suggestion (code_restructuring_suggestion (fst ft) (snd ft))).

(** [_suggest_caching_strategies] *)
Definition _suggest_caching_strategies : ST Advisor unit :=
  o <- st_get ;;
  if cache_compilation (optimization_config o)
  then append_suggestion
         {| suggestion_type := CACHING_STRATEGY; suggestion_target := "PROJECT";
            suggestion_priority := MEDIUM;
            suggestion_advice := AdviceDistributedCache |}
  else st_ret tt.

(** [generate_suggestions] *)
Definition generate_suggestions : ST Advisor unit :=
  _suggest_forward_declarations ;;;
  _suggest_pimpl_pattern ;;;
  _suggest_unified_headers ;;;
  _suggest_build_optimizations ;;;
  _suggest_compiler_specific_optimizations ;;;
  _suggest_code_restructuring ;;;
  _suggest_caching_strategies.

(** [analyze_project] on the whole object: the suggestions are generated
    before the build times are estimated.  The template pass writes to
    [template_usage] only, which is not kept; the summary is returned with
    its ['suggestions'] entry. *)
Definition analyze_project_with_suggestions : ST Advisor (Summary * nat) :=
  on_base discover_files ;;;
  o <- st_get ;;
  let cfg := analysis_config (base o) in
  on_base (if parallel_analysis cfg
           then _parallel_analyze_files else _sequential_analyze_files) ;;;
  on_base (if enable_circular_dep_check cfg
           then _detect_circular_dependencies else st_ret tt) ;;;
  on_base (if enable_unused_header_check cfg
           then _detect_unused_headers else st_ret tt) ;;;
  generate_suggestions ;;;
  on_base _estimate_build_times ;;;
  o <- st_get ;;
  st_ret (_get_analysis_summary (base o), length (suggestions o)).

End Suggestions.

(** Dictionaries listed in the order of their keys, and a count of the
    forward declarations that is given. *)
Definition toy_advice_env (count : string -> nat) : AdviceEnv := {|
  dict_items := fun V m => map_to_list m;
  forward_declaration_count := count;
|}.

Global Instance SuggestionType_eq_dec : EqDecision SuggestionType.
Proof. solve_decision. Defined.

(** The suggestions of one type. *)
Definition suggestions_of_type (t : SuggestionType) (l : list Suggestion)
  : list Suggestion :=
  List.filter (fun s => bool_decide (suggestion_type s = t)) l.

(** What a pass appends, seen on the object without its suggestions. *)
Definition advice_of (m : ST Advisor unit) (o : Advisor) : list Suggestion :=
  suggestions (exec m (set_suggestions [] o)).

(** A pass that returns and only appends, the same whatever the suggestions
    already there. *)
Definition appends (m : ST Advisor unit) : Prop :=
  ∀ o, m o = (Returns tt, set_suggestions (suggestions o ++ advice_of m o) o).

(** An object whose analysis fields are given. *)
Definition advisor_of (a : Analyzer) : Advisor :=
  set_base a (new_advisor GCC CMAKE [] default_analysis_config default_optimization_config).

(** The order of the floats that are numbers, read off their sign, exponent
    and mantissa. *)
Definition float_key (f : spec_float) : Z * Z * Z :=
  match f with
  | S754_zero _ => (0, 0, 0)%Z
  | S754_infinity s => ((if s then -2 else 2), 0, 0)%Z
  | S754_nan => (0, 0, 0)%Z
  | S754_finite s m e => if s then (-1, - e, Z.neg m)%Z else (1, e, Z.pos m)%Z
  end.

Definition key_lt (k1 k2 : Z * Z * Z) : Prop :=
  (k1.1.1 < k2.1.1
   ∨ (k1.1.1 = k2.1.1 ∧ (k1.1.2 < k2.1.2 ∨ (k1.1.2 = k2.1.2 ∧ k1.2 < k2.2))))%Z.

(** The entry [x] of the table of estimates is not faster than [y]. *)
Definition not_faster (x y : Path * float) : Prop :=
  PrimFloat.ltb (snd x) (snd y) = false.

(** [n] lines of plain code. *)
Fixpoint plain_lines (n : nat) : string :=
  match n with
  | O => EmptyString
  | S n' => Text.line "int x;" +:+ plain_lines n'
  end.

(** A project with one long source. *)
Definition long_source_project : list (string * string) :=
  [("big.cpp", plain_lines 1500)].

(* ===================================================================== *)
(** ** The precompiled header                                              *)
(* ===================================================================== *)

(** [t in s] for two strings. *)
Fixpoint substring_in (t s : string) : bool :=
  String.prefix t s
  || match s with
     | String _ s' => substring_in t s'
     | EmptyString => false
     end.

(** [Counter.most_common(n)]: the [n] entries of largest count, those of
    equal count in their order of insertion; none when [n] is not positive. *)
Fixpoint insert_by_count (x : string * nat) (l : list (string * nat))
  : list (string * nat) :=
  match l with
  | [] => [x]
  | y :: l' => if (snd x <? snd y)%nat then y :: insert_by_count x l' else x :: l
  end.

Definition most_common (n : Z) (items : list (string * nat)) : list (string * nat) :=
  take (Z.to_nat n) (foldr insert_by_count [] items).

(** A line that [generate_pch_header] writes for a header: in the first
    block between angle brackets or between quotes, or in the block of the
    project headers, which a comment line opens. *)
Inductive PchLine :=
| SystemAngle (header : string) (count : nat)
| SystemQuoted (header : string) (count : nat)
| ProjectBanner
| ProjectQuoted (header : string) (count : nat).

(** The two tests of the loop that separates the headers. *)
Definition looks_like_system (header : string) : bool :=
  Text.startswith "<" header || Text.contains "/" header
  || existsb (fun ext => Text.endswith ext header) [".h"; ".hpp"].

Definition has_system_mark (header : string) : bool :=
  existsb (fun pattern => substring_in pattern header) ["<"; ">"; ".h"].

(** The loop of [generate_pch_header] over the common headers. *)
Definition pch_separate (common_headers : list (string * nat))
  : list (string * nat) * list (string * nat) :=
  fold_left
    (fun lists hc =>
       let '(system_headers, project_headers) := lists in
       if looks_like_system (fst hc) then
         if has_system_mark (fst hc)
         then (system_headers ++ [hc], project_headers)
         else (system_headers, project_headers)
       else (system_headers, project_headers ++ [hc]))
    common_headers ([], []).

(** [generate_pch_header]: the include lines of the text that it writes. *)
Definition pch_include_lines {D : AdviceEnv} (a : Analyzer) : list PchLine :=
  let max_headers := pch_max_headers (analysis_config a) in
  let common_headers := most_common max_headers (dict_items (header_frequency a)) in
  let '(system_headers, project_headers) := pch_separate common_headers in
  map (fun hc => if Text.startswith "<" (fst hc)
                 then SystemAngle (fst hc) (snd hc)
                 else SystemQuoted (fst hc) (snd hc))
    system_headers
  ++ match project_headers with
     | [] => []
     | _ => ProjectBanner :: map (fun hc => ProjectQuoted (fst hc) (snd hc)) project_headers
     end.

(** The header that a line includes. *)
Definition line_header (l : PchLine) : option string :=
  match l with
  | SystemAngle h _ | SystemQuoted h _ | ProjectQuoted h _ => Some h
  | ProjectBanner => None
  end.

(** An analyzer that has met [vector] three times, [util.h] twice and
    [QtCore/QObject] once. *)
Definition three_names_analyzer : Analyzer :=
  set_header_frequency
    (<["vector" := 3]> (<["util.h" := 2]> (<["QtCore/QObject" := 1]> ∅)))
    (new_analyzer [] default_analysis_config).

(* ===================================================================== *)
(** ** Texts as lines                                                      *)
(* ===================================================================== *)

Module Lines.
Import Text.

(** No newline in [s]. *)
Fixpoint one_line (s : string) : bool :=
  match s with
  | String c s' => negb (is_newline c) && one_line s'
  | EmptyString => true
  end.

(** A line that holds an include directive: white space, the hash sign,
    white space and the keyword, then anything. *)
Definition directive_line (l : string) : bool :=
  one_line l
  && match Regex.match_include_keyword l with
     | Some _ => true
     | None => false
     end.

(** A line of white space only. *)
Definition blank_line (l : string) : bool := one_line l && Directive.all_spaces l.

(** A line of something else: its first character that is not white space
    is not a hash sign, or the hash sign is followed on the line by a word
    that does not start with the keyword. *)
Definition other_line (l : string) : bool :=
  one_line l
  && match skip_spaces l with
     | String "#" l1 =>
         match skip_spaces l1 with
         | EmptyString => false
         | String c w =>
             match strip_prefix "include" (String c w) with
             | Some _ => false
             | None => true
             end
         end
     | String _ _ => true
     | EmptyString => false
     end.

(** The lines that the theorems speak of: every line but one that holds a
    hash sign and nothing after it. *)
Definition known_line (l : string) : bool :=
  directive_line l || blank_line l || other_line l.

(** The text of the lines [ls], each closed by a newline, followed by a
    last line [last] that no newline closes. *)
Definition text_of (ls : list string) (last : string) : string :=
  fold_right (fun l s => line l +:+ s) last ls.

End Lines.

(** A header with 25 include lines, and a source whose second line holds a
    directive with mixed delimiters. *)
Definition many_includes_project : list (string * string) :=
  [("big.h", Projects.include_lines 25)].

(* ===================================================================== *)
(** ** First examples                                                      *)
(* ===================================================================== *)

Example ex_findall_first :
  Regex.findall_includes "#include <vector>" = ["vector"].
Proof. reflexivity. Qed.

Example ex_count_two :
  Regex.count_include_lines
    (Text.line "#include <a>" +:+ Text.line ("  # include " +:+ Text.quoted "b") +:+ "int x;") = 2%nat.
Proof. reflexivity. Qed.

Example ex_findall_only_first :
  Regex.findall_includes
    (Text.line "#include <a>" +:+ "#include " +:+ Text.quoted "b") = ["a"].
Proof. reflexivity. Qed.
(* ===================================================================== *)
(** ** Paths and sorting                                                   *)
(* ===================================================================== *)

Section PathFacts.
Import PathOps.

Lemma insert_sorted_perm p l : insert_sorted p l ≡ₚ p :: l.
Proof.
  induction l as [|q l IH]; simpl; [done|].
  destruct (path_leb p q); [done|]. rewrite IH. apply Permutation_swap.
Qed.

(** [sorted] rearranges its argument. *)
Lemma sorted_perm l : sorted l ≡ₚ l.
Proof.
  induction l as [|p l IH]; simpl; [done|].
  rewrite insert_sorted_perm. by rewrite IH.
Qed.

Lemma parts_leb_total a b : parts_leb a b = false → parts_leb b a = true.
Proof.
  revert b. induction a as [|x a IH]; intros [|y b]; simpl; try done.
  rewrite (String.compare_antisym y x).
  destruct (String.compare x y); simpl; auto.
Qed.

Lemma path_leb_total p q : path_leb p q = false → path_leb q p = true.
Proof. apply parts_leb_total. Qed.

Lemma insert_sorted_HdRel r p l :
  path_leb r p = true → HdRel (λ x y, path_leb x y = true) r l →
  HdRel (λ x y, path_leb x y = true) r (insert_sorted p l).
Proof.
  intros Hrp Hl. destruct l as [|q l]; simpl; [by constructor|].
  destruct (path_leb p q); constructor; [done|]. by apply HdRel_inv in Hl.
Qed.

Lemma insert_sorted_Sorted p l :
  Sorted (λ x y, path_leb x y = true) l →
  Sorted (λ x y, path_leb x y = true) (insert_sorted p l).
Proof.
  induction 1 as [|q l Hl IH Hq]; simpl; [by repeat constructor|].
  destruct (path_leb p q) eqn:Hpq.
  - constructor; [by constructor|by constructor].
  - constructor; [done|]. apply insert_sorted_HdRel; [|done]. by apply path_leb_total.
Qed.

(** [sorted] puts its argument in path order. *)
Lemma sorted_Sorted l : Sorted (λ x y, path_leb x y = true) (sorted l).
Proof.
  induction l as [|p l IH]; simpl; [constructor|]. by apply insert_sorted_Sorted.
Qed.

Lemma ascending_perm (s : gset Path) : Toy.ascending s ≡ₚ elements s.
Proof. apply sorted_perm. Qed.

Lemma descending_perm (s : gset Path) : Toy.descending s ≡ₚ elements s.
Proof.
  unfold Toy.descending. rewrite <- (ascending_perm s).
  symmetry. apply Permutation_rev.
Qed.

End PathFacts.

(* ===================================================================== *)
(** ** The include recognizers                                             *)
(* ===================================================================== *)

Section RegexFacts.
Import Text Regex Directive.

Local Arguments Ascii.eqb : simpl never.
Local Arguments is_close : simpl never.
Local Arguments is_open : simpl never.
Local Arguments is_space : simpl never.

Lemma skip_spaces_app ws s :
  all_spaces ws = true → skip_spaces (ws +:+ s) = skip_spaces s.
Proof.
  induction ws as [|c ws IH]; simpl; [done|].
  intros [Hc Hws]%andb_prop. rewrite Hc. auto.
Qed.

Lemma skip_spaces_length s : String.length (skip_spaces s) ≤ String.length s.
Proof.
  induction s as [|c s IH]; simpl; [lia|].
  destruct (is_space c); simpl; lia.
Qed.

Lemma strip_prefix_app lit s : strip_prefix lit (lit +:+ s) = Some s.
Proof.
  induction lit as [|a lit IH]; simpl; [done|].
  by rewrite Ascii.eqb_refl.
Qed.

Lemma strip_prefix_length lit s r :
  strip_prefix lit s = Some r → String.length r ≤ String.length s.
Proof.
  revert s. induction lit as [|a lit IH]; intros s; simpl.
  - intros [= ->]. lia.
  - destruct s as [|b s]; [done|]. destruct (Ascii.eqb a b); [|done].
    intros H%IH. simpl. lia.
Qed.

Lemma span_length p s a b :
  span p s = (a, b) → String.length b ≤ String.length s.
Proof.
  revert a b. induction s as [|c s IH]; intros a b; simpl.
  - intros [= <- <-]. simpl. lia.
  - destruct (p c).
    + destruct (span p s) as [a' b'] eqn:Hs. intros [= <- <-].
      specialize (IH _ _ eq_refl). lia.
    + intros [= <- <-]. simpl. lia.
Qed.

Lemma span_until_close name c rest :
  contains ">" name = false → contains dquote name = false →
  is_close c = true →
  span (λ d, negb (is_close d)) (name +:+ String c rest) = (name, String c rest).
Proof.
  intros Hgt Hdq Hc. induction name as [|d name IH]; simpl.
  - by rewrite Hc.
  - simpl in Hgt, Hdq.
    apply orb_false_elim in Hgt as [Hgt1 Hgt2].
    apply orb_false_elim in Hdq as [Hdq1 Hdq2].
    unfold is_close at 1. rewrite (Ascii.eqb_sym d), Hgt1, (Ascii.eqb_sym d), Hdq1.
    simpl. by rewrite IH.
Qed.

(** The captured group never holds a closing delimiter. *)
Lemma span_no_close s a b :
  span (λ d, negb (is_close d)) s = (a, b) →
  contains ">" a = false ∧ contains dquote a = false.
Proof.
  revert a b. induction s as [|c s IH]; intros a b; simpl.
  - by intros [= <- <-].
  - destruct (is_close c) eqn:Hc; simpl.
    + by intros [= <- <-].
    + destruct (span _ s) as [a' b'] eqn:Hs. intros [= <- <-].
      destruct (IH _ _ eq_refl) as [H1 H2]. simpl.
      unfold is_close in Hc. apply orb_false_elim in Hc as [Hc1 Hc2].
      by rewrite (Ascii.eqb_sym ">"), Hc1, (Ascii.eqb_sym dquote), Hc2, H1, H2.
Qed.

Lemma match_include_keyword_length s r :
  match_include_keyword s = Some r → String.length r < String.length s.
Proof.
  unfold match_include_keyword.
  pose proof (skip_spaces_length s) as Hs.
  destruct (skip_spaces s) as [|c s1]; [done|].
  destruct (Ascii.eqb_spec c "#") as [->|Hne].
  - intros H%strip_prefix_length.
    pose proof (skip_spaces_length s1). simpl in Hs. lia.
  - intros H. exfalso. revert H.
    destruct c as [[] [] [] [] [] [] [] []]; try done.
Qed.

Lemma match_include_body_length s name rest :
  match_include_body s = Some (name, rest) → String.length rest < String.length s.
Proof.
  unfold match_include_body.
  destruct (match_include_keyword s) as [s1|] eqn:Hk; [|done].
  apply match_include_keyword_length in Hk.
  pose proof (skip_spaces_length s1) as Hs.
  destruct (skip_spaces s1) as [|o s2]; [done|].
  destruct (is_open o); [|done].
  destruct (span _ s2) as [a b] eqn:Hsp.
  apply span_length in Hsp.
  destruct a as [|n a]; [done|]. destruct b as [|d b]; [done|].
  intros [= <- <-]. simpl in *. lia.
Qed.

(** What a match captures is not empty and holds no closing delimiter. *)
Lemma match_include_body_capturable s name rest :
  match_include_body s = Some (name, rest) → capturable name.
Proof.
  unfold match_include_body.
  destruct (match_include_keyword s) as [s1|]; [|done].
  destruct (skip_spaces s1) as [|o s2]; [done|].
  destruct (is_open o); [|done].
  destruct (span _ s2) as [a b] eqn:Hsp.
  apply span_no_close in Hsp as [H1 H2].
  destruct a as [|n a]; [done|]. destruct b as [|d b]; [done|].
  intros [= <- <-]. by split.
Qed.

(** The pattern is anchored at the start of the text: nothing matches
    further on. *)
Lemma findall_scan_off_start fuel pos s :
  0 < pos → findall_scan fuel pos s = [].
Proof.
  revert pos s. induction fuel as [|fuel IH]; intros pos s Hpos; simpl; [done|].
  unfold include_pattern_at. destruct pos as [|pos]; [lia|]. simpl.
  destruct s as [|c s]; [done|]. apply IH. lia.
Qed.

Lemma findall_includes_first s :
  findall_includes s =
    match match_include_body s with
    | Some (name, _) => [name]
    | None => []
    end.
Proof.
  unfold findall_includes. simpl. unfold include_pattern_at. simpl.
  destruct (match_include_body s) as [[name rest]|] eqn:Hm.
  - apply match_include_body_length in Hm.
    rewrite findall_scan_off_start; [done|lia].
  - destruct s as [|c s]; [done|]. apply findall_scan_off_start. lia.
Qed.

(** At most the directive that opens the text is found. *)
Lemma findall_includes_at_most_one s : length (findall_includes s) ≤ 1.
Proof.
  rewrite findall_includes_first.
  destruct (match_include_body s) as [[? ?]|]; simpl; lia.
Qed.

Lemma findall_includes_capturable s name :
  name ∈ findall_includes s → capturable name.
Proof.
  rewrite findall_includes_first.
  destruct (match_include_body s) as [[n rest]|] eqn:Hm.
  - intros ->%list_elem_of_singleton. by eapply match_include_body_capturable.
  - by intros ?%elem_of_nil.
Qed.

(** The fuel of the counting scan is enough: more fuel gives the same
    count. *)
Lemma count_scan_enough_fuel fuel fuel' bol s :
  String.length s < fuel → String.length s < fuel' →
  count_scan fuel bol s = count_scan fuel' bol s.
Proof.
  revert fuel' bol s. induction fuel as [|fuel IH]; intros fuel' bol s H1 H2; [lia|].
  destruct fuel' as [|fuel']; [lia|]. simpl.
  destruct (if bol then match_include_keyword s else None) as [rest|] eqn:Hm.
  - destruct bol; [|done]. apply match_include_keyword_length in Hm.
    f_equal. apply IH; lia.
  - destruct s as [|c s]; [done|]. simpl in H1, H2. apply IH; lia.
Qed.

Lemma match_include_body_text ws0 ws1 ws2 o name c rest :
  all_spaces ws0 = true → all_spaces ws1 = true → all_spaces ws2 = true →
  is_open o = true → is_close c = true → capturable name →
  match_include_body (text ws0 ws1 ws2 o name c rest) = Some (name, rest).
Proof.
  intros H0 H1 H2 Ho Hc (Hne & Hgt & Hdq).
  unfold match_include_body, match_include_keyword, text.
  rewrite (skip_spaces_app ws0) by done. simpl skip_spaces at 1. cbn match.
  rewrite (skip_spaces_app ws1) by done.
  change (skip_spaces ("include" +:+ ?s)) with ("include" +:+ s).
  rewrite strip_prefix_app.
  rewrite (skip_spaces_app ws2) by done.
  assert (is_space o = false) as Hso.
  { unfold is_open in Ho. apply orb_prop in Ho as [Ho|Ho];
      apply Ascii.eqb_eq in Ho; by subst. }
  simpl skip_spaces. rewrite Hso, Ho.
  rewrite span_until_close by done.
  destruct name as [|n name]; [done|]. done.
Qed.

End RegexFacts.

(* ===================================================================== *)
(** ** The include resolver                                                *)
(* ===================================================================== *)

Section MonadFacts.
Context {S : Type}.

Lemma st_bind_ret_tt (m : ST S unit) s : st_bind m (λ _, st_ret tt) s = m s.
Proof. unfold st_bind, st_ret. by destruct (m s) as [[[]|] ?]. Qed.

Lemma for_each_singleton {A} (x : A) (body : A → ST S unit) s :
  for_each [x] body s = body x s.
Proof. simpl. apply st_bind_ret_tt. Qed.

Lemma exec_bind_get {A} (k : S → ST S A) s : exec (st_bind st_get k) s = exec (k s) s.
Proof. reflexivity. Qed.

Lemma exec_bind_modify {A} (f : S → S) (m : ST S A) s :
  exec (st_bind (st_modify f) (λ _, m)) s = exec m (f s).
Proof. reflexivity. Qed.

Lemma exec_bind_ret {A B} (x : A) (k : A → ST S B) s :
  exec (st_bind (st_ret x) k) s = exec (k x) s.
Proof. reflexivity. Qed.

Lemma exec_bind_returns (m k : ST S unit) s :
  fst (m s) = Returns tt → exec (st_bind m (λ _, k)) s = exec k (exec m s).
Proof. unfold exec, st_bind. by destruct (m s) as [[[]|] s']. Qed.

End MonadFacts.

Section ResolverFacts.
Context {E : Env}.
Import Text Regex Directive.

Local Arguments Ascii.eqb : simpl never.

Lemma startswith_contains c s : startswith c s = true → contains c s = true.
Proof. destruct s as [|d s]; simpl; [done|]. by intros ->. Qed.

Lemma lstrip_absent c s : startswith c s = false → lstrip c s = s.
Proof. destruct s as [|d s]; simpl; [done|]. by intros ->. Qed.

Lemma rstrip_closing c s :
  contains c s = false → rstrip c (s +:+ String c EmptyString) = s.
Proof.
  induction s as [|d s IH]; simpl.
  - by rewrite Ascii.eqb_refl.
  - intros [Hd Hs]%orb_false_elim. rewrite IH by done.
    destruct s; [by rewrite Hd|done].
Qed.

Lemma strip_quoted name :
  contains dquote name = false → strip dquote (quoted name) = name.
Proof.
  intros H. destruct name as [|d name]; [done|]. unfold strip, quoted.
  change (lstrip dquote (String dquote ?s)) with (lstrip dquote s).
  rewrite lstrip_absent.
  - by apply rstrip_closing.
  - simpl in H. apply orb_false_elim in H as [H _]. simpl. exact H.
Qed.

(** The loop of the resolver is a first hit in the interleaved order. *)
Lemma search_project_first_hit name exts :
  search_project name exts =
    first_hit (flat_map (λ ext, [AtRoot (name +:+ ext); Recursive (name +:+ ext)]) exts).
Proof.
  induction exts as [|ext exts IH]; simpl; [done|].
  destruct (path_exists _); [done|].
  destruct (rglob _) as [l|]; [|done].
  by destruct (first_file l).
Qed.

(** The two guards on delimiters never fire on a captured name. *)
Lemma resolve_capturable source_file name :
  capturable name →
  _resolve_include_path source_file name = search_project name resolve_extensions.
Proof.
  intros (_ & Hgt & Hdq). unfold _resolve_include_path.
  rewrite Hgt, andb_false_r.
  destruct (startswith dquote name) eqn:Hs; [|done].
  apply startswith_contains in Hs. congruence.
Qed.

Lemma resolve_recognized source_file content name :
  name ∈ findall_includes content →
  _resolve_include_path source_file name = first_hit (interleaved_order name).
Proof.
  intros H%findall_includes_capturable.
  rewrite resolve_capturable by done. apply search_project_first_hit.
Qed.

(** What a first hit means. *)
Lemma first_hit_Some l p :
  first_hit l = Returns (Some p) ↔
  ∃ l1 pr l2, l = l1 ++ pr :: l2 ∧ probe_hit pr = Returns (Some p)
              ∧ Forall (λ q, probe_hit q = Returns None) l1.
Proof.
  induction l as [|q l IH]; simpl.
  - split; [done|]. intros (l1 & pr & l2 & Hl & _). by destruct l1.
  - destruct (probe_hit q) as [[r|]|] eqn:Hq.
    + split.
      * intros [= ->]. exists [], q, l. by repeat split.
      * intros (l1 & pr & l2 & Hl & Hpr & Hall).
        destruct l1 as [|q' l1]; simplify_eq/=; [congruence|].
        apply Forall_cons in Hall as [Hq' _]. congruence.
    + rewrite IH. split.
      * intros (l1 & pr & l2 & -> & Hpr & Hall).
        exists (q :: l1), pr, l2. repeat split; [done|]. by constructor.
      * intros (l1 & pr & l2 & Hl & Hpr & Hall).
        destruct l1 as [|q' l1]; simplify_eq/=; [congruence|].
        apply Forall_cons in Hall as [_ Hall]. by exists l1, pr, l2.
    + split; [done|].
      intros (l1 & pr & l2 & Hl & Hpr & Hall).
      destruct l1 as [|q' l1]; simplify_eq/=; [congruence|].
      apply Forall_cons in Hall as [Hq' _]. congruence.
Qed.

Lemma append_empty_r (s : string) : s +:+ EmptyString = s.
Proof. induction s as [|c s IH]; [done|]. change (String c (s +:+ EmptyString) = String c s). by f_equal. Qed.

(** A name between angle brackets that is the name of a path under the
    root is recognized and resolved to that path. *)
Lemma angle_include_resolves source_file name rest :
  capturable name →
  path_exists (joinpath project_path name) = true →
  findall_includes (text "" "" " " "<" name ">" rest) = [name]
  ∧ _resolve_include_path source_file name = Returns (Some (joinpath project_path name)).
Proof.
  intros Hname Hex. split.
  - rewrite findall_includes_first. by rewrite match_include_body_text.
  - rewrite resolve_capturable by done. cbn [search_project resolve_extensions].
    by rewrite append_empty_r, Hex.
Qed.

Lemma process_include_frequency file_path included a :
  header_frequency (exec (process_include file_path included) a)
  = <[included := S (count_get (header_frequency a) included)]> (header_frequency a).
Proof.
  unfold process_include, exec, st_bind, st_modify, st_lift. simpl.
  destruct (_resolve_include_path file_path included) as [[p|]|]; done.
Qed.

Lemma process_include_unresolved file_path included a :
  _resolve_include_path file_path included = Returns None →
  include_graph (exec (process_include file_path included) a) = include_graph a
  ∧ dependency_count (exec (process_include file_path included) a) = dependency_count a.
Proof.
  intros H. unfold process_include, exec, st_bind, st_modify, st_lift. simpl.
  by rewrite H.
Qed.

End ResolverFacts.

(** C1.  An include written between angle brackets is resolved like any
    other when a project file has its name: in the project [Projects.angle]
    the directive [#include <util.h>] of [a.cpp] yields the name [util.h],
    the resolver returns the project file [/proj/util.h], and the graph gets
    the edge from [a.cpp] to it. *)
Theorem angle_include_becomes_edge :
  let E := Toy.env Projects.angle Toy.ascending in
  let r := Toy.run Projects.angle Toy.ascending [] Toy.config in
  Regex.findall_includes (Text.line "#include <util.h>" +:+ "int main() { return f(); }")
    = ["util.h"]
  ∧ _resolve_include_path "/proj/a.cpp" "util.h" = Returns (Some "/proj/util.h")
  ∧ elements (graph_get (include_graph r) "/proj/a.cpp") = ["/proj/util.h"]
  ∧ count_get (dependency_count r) "/proj/util.h" = 1.
Proof. vm_compute. done. Qed.

(** C2, as stated, fails: in the project [Projects.shadow] the quoted
    include of [foo] resolves to the file [sub/foo] found by the recursive
    search, while the order of the specification gives [foo.h] at the root. *)
Lemma specified_order_refuted :
  let E := Toy.env Projects.shadow Toy.ascending in
  let r := Toy.run Projects.shadow Toy.ascending [] Toy.config in
  _resolve_include_path "/proj/a.cpp" "foo" = Returns (Some "/proj/sub/foo")
  ∧ first_hit (specified_order "/proj/a.cpp" "foo") = Returns (Some "/proj/foo.h")
  ∧ _resolve_include_path "/proj/a.cpp" "foo" ≠ first_hit (specified_order "/proj/a.cpp" "foo")
  ∧ elements (graph_get (include_graph r) "/proj/a.cpp") = ["/proj/sub/foo"].
Proof. vm_compute. repeat split; discriminate. Qed.

(** C2, amended.  For a name that does not exist next to the including
    file, the resolver returns the first hit of the interleaved order: for
    each of the extensions (none, .h, .hpp, .hh, .hxx) in turn, the name with
    that extension under the project root if that path exists, else the first
    regular file that a recursive search for the name with that extension
    finds.  The answer is the same whether the name arrives with or without
    its double quotes.  When nothing is found, processing the include only
    counts it in the header-frequency counter: no edge, no reverse count. *)
Theorem resolve_follows_interleaved_order {E : Env}
    (source_file : Path) (name : string) (a : Analyzer) :
  Directive.capturable name →
  path_exists (joinpath (parent source_file) name) = false →
  _resolve_include_path source_file name = first_hit (interleaved_order name)
  ∧ _resolve_include_path source_file (Text.quoted name) = first_hit (interleaved_order name)
  ∧ (first_hit (interleaved_order name) = Returns None →
     let a' := exec (process_include source_file name) a in
     include_graph a' = include_graph a
     ∧ dependency_count a' = dependency_count a
     ∧ header_frequency a'
       = <[name := S (count_get (header_frequency a) name)]> (header_frequency a)).
Proof.
  intros Hname Hsib.
  assert (_resolve_include_path source_file name = first_hit (interleaved_order name)) as Hres.
  { rewrite resolve_capturable by done. apply search_project_first_hit. }
  split; [done|]. split.
  - destruct Hname as (_ & _ & Hdq). unfold _resolve_include_path.
    change (Text.startswith "<" (Text.quoted name)) with false.
    change (Text.startswith Text.dquote (Text.quoted name)) with true.
    cbn [andb]. rewrite strip_quoted by done. rewrite Hsib.
    apply search_project_first_hit.
  - intros Hnone a'. rewrite <- Hres in Hnone.
    destruct (process_include_unresolved source_file name a Hnone) as [Hg Hd].
    repeat split; [done..|]. apply process_include_frequency.
Qed.

Lemma resolve_follows_interleaved_order_witness :
  let E := Toy.env Projects.shadow Toy.ascending in
  _resolve_include_path "/proj/a.cpp" "foo" = first_hit (interleaved_order "foo").
Proof.
  intros E.
  refine (proj1 (resolve_follows_interleaved_order (E := E) "/proj/a.cpp" "foo"
                   (new_analyzer [] default_analysis_config) _ eq_refl)).
  repeat split. discriminate.
Defined.

(* ===================================================================== *)
(** ** Cycle detection                                                     *)
(* ===================================================================== *)

Section CycleFacts.
Context {E : Env}.

Lemma dfs_on_stack depth graph file_path st :
  file_path ∈ recursion_stack st →
  dfs (S depth) graph file_path st
  = (Returns tt,
     {| visited := visited st; recursion_stack := recursion_stack st;
        found_cycles :=
          found_cycles st
          ++ [drop (list_index file_path (set_order (recursion_stack st)))
                (set_order (recursion_stack st))] |}).
Proof.
  intros Hin. cbn [dfs]. unfold st_bind at 1, st_get.
  by rewrite bool_decide_eq_true_2.
Qed.

Lemma dfs_visited depth graph file_path st :
  file_path ∉ recursion_stack st → file_path ∈ visited st →
  dfs (S depth) graph file_path st = (Returns tt, st).
Proof.
  intros Hout Hin. cbn [dfs]. unfold st_bind at 1, st_get.
  rewrite bool_decide_eq_false_2 by done. by rewrite bool_decide_eq_true_2.
Qed.

Lemma dfs_fresh depth graph file_path st :
  file_path ∉ recursion_stack st → file_path ∉ visited st →
  dfs (S depth) graph file_path st
  = (for_each (set_order (graph_get graph file_path)) (dfs depth graph) ;;;
     st_modify (λ st, {| visited := visited st;
                         recursion_stack := recursion_stack st ∖ {[file_path]};
                         found_cycles := found_cycles st |}))
      {| visited := visited st ∪ {[file_path]};
         recursion_stack := recursion_stack st ∪ {[file_path]};
         found_cycles := found_cycles st |}.
Proof.
  intros Hs Hv. cbn [dfs]. unfold st_bind at 1, st_get.
  by rewrite !bool_decide_eq_false_2 by done.
Qed.

Lemma set_order_singleton (z : Path) :
  (∀ s : gset Path, set_order s ≡ₚ elements s) → set_order {[z]} = [z].
Proof.
  intros Hord. apply Permutation_singleton_r. by rewrite Hord, elements_singleton.
Qed.

Lemma set_order_pair (x y : Path) :
  (∀ s : gset Path, set_order s ≡ₚ elements s) → x ≠ y →
  set_order {[x; y]} = [x; y] ∨ set_order {[x; y]} = [y; x].
Proof.
  intros Hord Hne.
  assert (set_order {[x; y]} ≡ₚ [x; y]) as Hp.
  { rewrite Hord. rewrite elements_union_singleton by set_solver.
    by rewrite elements_singleton. }
  destruct (set_order {[x; y]}) as [|a [|b [|c l]]].
  - by apply Permutation_nil_l in Hp.
  - apply Permutation_length in Hp. done.
  - assert (a ∈ [x; y]) as Ha by (rewrite <- Hp; by left).
    assert (b ∈ [x; y]) as Hb by (rewrite <- Hp; right; by left).
    assert (NoDup [a; b]) as Hnd by (rewrite Hp; apply NoDup_cons; split; [set_solver|apply NoDup_singleton]).
    apply NoDup_cons in Hnd as [Hab _].
    set_solver.
  - apply Permutation_length in Hp. done.
Qed.

(** On the two-file cycle one cycle is reported, whatever the order of the
    sets: what the set of the stack lists from [x] on. *)
Lemma mutual_cycle_report (x y : Path) (a : Analyzer) depth :
  (∀ s : gset Path, set_order s ≡ₚ elements s) →
  recursion_limit = S (S (S depth)) →
  x ≠ y →
  files a = [x; y] →
  include_graph a = <[x := {[y]}]> (<[y := {[x]}]> ∅) →
  circular_deps a = [] →
  circular_deps (exec _detect_circular_dependencies a)
  = [drop (list_index x (set_order {[x; y]})) (set_order {[x; y]})].
Proof.
  intros Hord Hlim Hne Hfiles Hgraph Hcirc.
  unfold _detect_circular_dependencies. rewrite exec_bind_get.
  rewrite Hfiles, Hgraph, Hcirc. set (g := <[x := {[y]}]> (<[y := {[x]}]> ∅)).
  assert (graph_get g x = {[y]}) as Hgx.
  { unfold graph_get, g. by rewrite lookup_insert_eq. }
  assert (graph_get g y = {[x]}) as Hgy.
  { unfold graph_get, g. rewrite lookup_insert_ne by done. by rewrite lookup_insert_eq. }
  assert (dfs_all g [x; y] {| visited := ∅; recursion_stack := ∅; found_cycles := [] |}
          = (Returns tt,
             {| visited := {[x; y]}; recursion_stack := ∅;
                found_cycles := [drop (list_index x (set_order {[x; y]}))
                                   (set_order {[x; y]})] |})) as Hrun.
  { unfold dfs_all. cbn [for_each]. unfold st_bind at 1. unfold st_bind at 1, st_get at 1.
    rewrite bool_decide_eq_false_2 by set_solver.
    rewrite Hlim, dfs_fresh by set_solver. cbn [visited recursion_stack found_cycles].
    rewrite Hgx, set_order_singleton by done.
    unfold st_bind at 1. rewrite for_each_singleton.
    rewrite dfs_fresh by (cbn; set_solver). cbn [visited recursion_stack found_cycles].
    rewrite Hgy, set_order_singleton by done.
    unfold st_bind at 1. rewrite for_each_singleton.
    rewrite dfs_on_stack by (cbn; set_solver). cbn [visited recursion_stack found_cycles].
    unfold st_modify at 1. cbn [visited recursion_stack found_cycles].
    unfold st_modify at 1. cbn [visited recursion_stack found_cycles].
    unfold st_bind at 1, st_bind at 1, st_get.
    cbn [visited]. rewrite bool_decide_eq_true_2 by set_solver.
    unfold st_ret. f_equal.
    assert ((∅ ∪ {[x]} ∪ {[y]} : gset Path) = {[x; y]}) as -> by set_solver.
    assert (({[x; y]} ∖ {[y]} ∖ {[x]} : gset Path) = ∅) as -> by set_solver.
    done. }
  rewrite Hrun. done.
Qed.

(** Its path is the whole cycle when the set lists [x] first, and [x] alone
    when it lists [y] first. *)
Lemma mutual_cycle_path (x y : Path) (a : Analyzer) depth :
  (∀ s : gset Path, set_order s ≡ₚ elements s) →
  recursion_limit = S (S (S depth)) →
  x ≠ y →
  files a = [x; y] →
  include_graph a = <[x := {[y]}]> (<[y := {[x]}]> ∅) →
  circular_deps a = [] →
  (set_order {[x; y]} = [x; y]
   ∧ circular_deps (exec _detect_circular_dependencies a) = [[x; y]])
  ∨ (set_order {[x; y]} = [y; x]
     ∧ circular_deps (exec _detect_circular_dependencies a) = [[x]]).
Proof.
  intros Hord Hlim Hne Hfiles Hgraph Hcirc.
  rewrite (mutual_cycle_report x y a depth) by done.
  destruct (set_order_pair x y Hord Hne) as [Hxy|Hyx]; [left|right]; split; try done.
  - rewrite Hxy. cbn [list_index]. by rewrite String.eqb_refl.
  - rewrite Hyx. cbn [list_index].
    assert (String.eqb x y = false) as -> by by apply String.eqb_neq.
    by rewrite String.eqb_refl.
Qed.

End CycleFacts.


Example mutual_cycle_path_on_disk :
  let E := Toy.env Projects.mutual Toy.descending in
  circular_deps (exec _detect_circular_dependencies Projects.mutual_analyzer)
  = [["/proj/x.h"]].
Proof.
  intros E.
  destruct (mutual_cycle_path (E := E) "/proj/x.h" "/proj/y.h" Projects.mutual_analyzer 997
              descending_perm eq_refl ltac:(done) eq_refl eq_refl eq_refl)
    as [[Hord _]|[_ Hcycle]]; [|done].
  by vm_compute in Hord.
Qed.

Example mutual_includes_in_stack_order :
  let E := Toy.env Projects.mutual Toy.ascending in
  circular_deps (exec _detect_circular_dependencies Projects.mutual_analyzer)
  = [["/proj/x.h"; "/proj/y.h"]].
Proof. vm_compute. done. Qed.

(** C3.  On the graph with exactly the edges [x.h -> y.h] and
    [y.h -> x.h], when the set that holds the recursion stack lists [y.h]
    before [x.h], cycle detection reports one CircularDependency issue of
    severity High whose path is [x.h] alone: its length is 1, not 2. *)
Theorem mutual_cycle_path_cut_by_set_order :
  let E := Toy.env Projects.mutual Toy.descending in
  let r := exec _detect_circular_dependencies Projects.mutual_analyzer in
  set_order {["/proj/x.h"; "/proj/y.h"]} = ["/proj/y.h"; "/proj/x.h"]
  ∧ circular_deps r = [["/proj/x.h"]]
  ∧ issues r = [ {| issue_type := CIRCULAR_DEPENDENCY;
                    issue_file := OfCycle 1;
                    issue_severity := HIGH;
                    issue_message := MsgCycle ["/proj/x.h"] |} ].
Proof. vm_compute. done. Qed.

Section FileIssues.
Context {E : Env}.

(** What [_detect_file_issues] appends, as far as ExcessiveIncludes goes. *)
Lemma detect_file_issues_excessive (file_path : Path) (content : string) (a : Analyzer) :
  let T := max_header_includes (analysis_config a) in
  let n := Regex.count_include_lines content in
  ∃ new : list Issue,
    issues (exec (_detect_file_issues file_path content) a) = issues a ++ new
    ∧ List.filter (λ i, bool_decide (issue_type i = EXCESSIVE_INCLUDES)) new
      = (if (T <? Z.of_nat n)%Z then [excessive_includes_issue file_path n T] else []).
Proof.
  intros T n.
  unfold _detect_file_issues, exec, st_bind, st_get, append_issue, st_modify, st_ret.
  fold T n.
  set (c1 := (T <? Z.of_nat n)%Z).
  set (c2 := (max_file_complexity (analysis_config a) <? _)%Z).
  set (c3 := (suffix_in checked_header_suffixes file_path && _)).
  set (i1 := {| issue_type := EXCESSIVE_INCLUDES |}).
  set (i2 := {| issue_type := HIGH_COMPLEXITY |}).
  set (i3 := {| issue_type := LARGE_HEADER |}).
  assert (i1 = excessive_includes_issue file_path n T) as Hi1 by done.
  assert (issue_type i2 ≠ EXCESSIVE_INCLUDES) as Hi2 by done.
  assert (issue_type i3 ≠ EXCESSIVE_INCLUDES) as Hi3 by done.
  clearbody c1 c2 c3 i2 i3.
  exists ((if c1 then [i1] else []) ++ (if c2 then [i2] else []) ++ (if c3 then [i3] else [])).
  split.
  - destruct c1, c2, c3; simpl; rewrite <- ?app_assoc, ?app_nil_r; reflexivity.
  - rewrite List.filter_app.
    assert (List.filter (λ i, bool_decide (issue_type i = EXCESSIVE_INCLUDES))
              ((if c2 then [i2] else []) ++ (if c3 then [i3] else [])) = []) as ->.
    { destruct c2, c3; simpl; rewrite ?bool_decide_eq_false_2 by done; reflexivity. }
    rewrite app_nil_r. destruct c1; simpl; [|done]. by rewrite Hi1.
Qed.

Lemma filter_excessive_elem (new : list Issue) (i : Issue) :
  i ∈ new → issue_type i = EXCESSIVE_INCLUDES →
  i ∈ List.filter (λ i, bool_decide (issue_type i = EXCESSIVE_INCLUDES)) new.
Proof.
  intros Hi Hty. apply list_elem_of_In, List.filter_In. split; [by apply list_elem_of_In|].
  by apply bool_decide_eq_true_2.
Qed.

Lemma exec_try_except_pass {S} (body : ST S unit) s :
  exec (try_except body (st_ret tt)) s = exec body s.
Proof. unfold exec, try_except. by destruct (body s) as [[[]|] ?]. Qed.

Lemma process_include_keeps_issues file_path name a :
  issues (exec (process_include file_path name) a) = issues a
  ∧ analysis_config (exec (process_include file_path name) a) = analysis_config a.
Proof.
  unfold process_include, add_edge, exec, st_bind, st_modify, st_lift. simpl.
  by destruct (_resolve_include_path file_path name) as [[T|]|].
Qed.

(** The same holds for the analysis of a file that can be read and whose
    includes the resolver handles without raising. *)
Lemma analyzed_file_excessive_includes (file_path : Path) (content : string) (a : Analyzer) :
  open_ignore file_path = Some content →
  (∀ name, name ∈ Regex.findall_includes content →
           _resolve_include_path file_path name ≠ Raises) →
  let T := max_header_includes (analysis_config a) in
  let n := Regex.count_include_lines content in
  ∃ new : list Issue,
    issues (exec (_analyze_file_includes file_path) a) = issues a ++ new
    ∧ List.filter (λ i, bool_decide (issue_type i = EXCESSIVE_INCLUDES)) new
      = (if (T <? Z.of_nat n)%Z then [excessive_includes_issue file_path n T] else []).
Proof.
  intros Hopen Hres T n. unfold _analyze_file_includes.
  rewrite exec_try_except_pass. unfold open_or_raise. rewrite Hopen.
  rewrite exec_bind_ret, exec_bind_modify.
  set (a1 := set_file_sizes _ a).
  assert (∀ l s, (∀ name, name ∈ l → _resolve_include_path file_path name ≠ Raises) →
                 fst (for_each l (process_include file_path) s) = Returns tt
                 ∧ issues (exec (for_each l (process_include file_path)) s) = issues s
                 ∧ analysis_config (exec (for_each l (process_include file_path)) s)
                   = analysis_config s) as Hloop.
  { induction l as [|x l IH]; intros s Hl; [done|].
    assert (fst (process_include file_path x s) = Returns tt) as Hx.
    { unfold process_include, add_edge, st_bind, st_modify, st_lift. simpl.
      destruct (_resolve_include_path file_path x) as [[p|]|] eqn:Hr; [done..|].
      by destruct (Hl x (list_elem_of_here _ _)). }
    destruct (IH (exec (process_include file_path x) s)) as (Hf & Hi & Hc).
    { intros name Hname. apply Hl. by right. }
    destruct (process_include_keeps_issues file_path x s) as [Hi' Hc'].
    cbn [for_each]. rewrite exec_bind_returns by done.
    split; [|split; congruence].
    unfold st_bind. unfold exec in Hf.
    by destruct (process_include file_path x s) as [[[]|] s'] eqn:Hp. }
  destruct (Hloop (Regex.findall_includes content) a1 Hres) as (Hf & Hi & Hc).
  rewrite exec_bind_returns by done.
  destruct (detect_file_issues_excessive file_path content
              (exec (for_each (Regex.findall_includes content) (process_include file_path)) a1))
    as (new & Hnew & Hfilter).
  rewrite Hi, Hc in *. by exists new.
Qed.

End FileIssues.

Example excessive_at_25 :
  let E := Toy.env [] Toy.ascending in
  issues (exec (_detect_file_issues "/proj/big.h" (Projects.include_lines 25))
            (new_analyzer [] default_analysis_config))
  = [excessive_includes_issue "/proj/big.h" 25 20].
Proof. vm_compute. done. Qed.

Example not_excessive_at_20 :
  let E := Toy.env [] Toy.ascending in
  issues (exec (_detect_file_issues "/proj/big.h" (Projects.include_lines 20))
            (new_analyzer [] default_analysis_config))
  = [].
Proof. vm_compute. done. Qed.

(* ===================================================================== *)
(** ** The dependency graph                                                *)
(* ===================================================================== *)

Section Invariants.
Context {S : Type} (P : S → Prop).

Lemma exec_bind_invariant {A B} (m : ST S A) (k : A → ST S B) s :
  P (exec m s) → (∀ x s', P s' → P (exec (k x) s')) → P (exec (st_bind m k) s).
Proof.
  unfold exec, st_bind. destruct (m s) as [[x|] s']; simpl; [|done].
  intros Hm Hk. by apply Hk.
Qed.

Lemma exec_try_except_invariant (body handler : ST S unit) s :
  P (exec body s) → (∀ s', P s' → P (exec handler s')) →
  P (exec (try_except body handler) s).
Proof.
  unfold exec, try_except. destruct (body s) as [[x|] s']; simpl; [done|].
  intros Hb Hh. by apply Hh.
Qed.

Lemma for_each_invariant {A} (l : list A) (body : A → ST S unit) :
  (∀ x s, x ∈ l → P s → P (exec (body x) s)) →
  ∀ s, P s → P (exec (for_each l body) s).
Proof.
  induction l as [|x l IH]; intros Hbody s Hs; simpl; [done|].
  apply exec_bind_invariant.
  - apply Hbody; [by left|done].
  - intros _ s' Hs'. apply IH; [|done].
    intros y s'' Hy. apply Hbody. by right.
Qed.

End Invariants.

Section GraphFacts.
Context {E : Env}.

Lemma first_file_is_file l p : first_file l = Some p → is_file p = true.
Proof.
  induction l as [|q l IH]; simpl; [done|].
  destruct (is_file q) eqn:Hq; [|done]. by intros [= <-].
Qed.

Lemma search_project_on_disk name exts p :
  search_project name exts = Returns (Some p) → on_disk p.
Proof.
  induction exts as [|ext exts IH]; simpl; [done|].
  destruct (path_exists _) eqn:Hex; [intros [= <-]; by left|].
  destruct (rglob _) as [l|]; [|done].
  destruct (first_file l) as [h|] eqn:Hf; [|done].
  intros [= <-]. right. by eapply first_file_is_file.
Qed.

Lemma resolve_on_disk source_file name p :
  _resolve_include_path source_file name = Returns (Some p) → on_disk p.
Proof.
  unfold _resolve_include_path.
  destruct (_ && _); [done|].
  destruct (Text.startswith Text.dquote name).
  - destruct (path_exists _) eqn:Hex; [intros [= <-]; by left|].
    apply search_project_on_disk.
  - apply search_project_on_disk.
Qed.

(** What [process_include] does to the analyzer, by the outcome of the
    resolver. *)
Lemma process_include_exec file_path name a :
  exec (process_include file_path name) a =
    let a1 := set_header_frequency
                (<[name := S (count_get (header_frequency a) name)]> (header_frequency a)) a in
    match _resolve_include_path file_path name with
    | Returns (Some T) =>
        set_dependency_count
          (<[T := S (count_get (dependency_count a) T)]> (dependency_count a))
          (set_include_graph
             (<[file_path := graph_get (include_graph a) file_path ∪ {[T]}]> (include_graph a))
             a1)
    | _ => a1
    end.
Proof.
  unfold process_include, add_edge, exec, st_bind, st_modify, st_lift. simpl.
  by destruct (_resolve_include_path file_path name) as [[T|]|].
Qed.

Lemma graph_get_insert g f s f' :
  graph_get (<[f := s]> g) f' = if decide (f = f') then s else graph_get g f'.
Proof. unfold graph_get. rewrite lookup_insert. by case_decide. Qed.

Lemma count_get_insert (m : gmap Path nat) k n k' :
  count_get (<[k := n]> m) k' = if decide (k = k') then n else count_get m k'.
Proof. unfold count_get. rewrite lookup_insert. by case_decide. Qed.

Lemma process_include_files file_path name a :
  files (exec (process_include file_path name) a) = files a.
Proof.
  rewrite process_include_exec. simpl.
  by destruct (_resolve_include_path file_path name) as [[T|]|].
Qed.

Lemma process_include_grounded file_path name a :
  file_path ∈ files a → edges_grounded a →
  edges_grounded (exec (process_include file_path name) a).
Proof.
  intros Hfile Ha A B. rewrite process_include_exec. simpl.
  destruct (_resolve_include_path file_path name) as [[T|]|] eqn:Hres; simpl;
    [|apply Ha..].
  rewrite graph_get_insert. case_decide as Heq; [|apply Ha].
  subst A. intros [HB| ->%elem_of_singleton]%elem_of_union.
  - by apply Ha.
  - split; [done|]. by eapply resolve_on_disk.
Qed.

Lemma detect_file_issues_graph file_path content a :
  include_graph (exec (_detect_file_issues file_path content) a) = include_graph a
  ∧ dependency_count (exec (_detect_file_issues file_path content) a) = dependency_count a
  ∧ files (exec (_detect_file_issues file_path content) a) = files a.
Proof.
  unfold _detect_file_issues, exec, st_bind, st_get, append_issue, st_modify, st_ret.
  by repeat (destruct (_ <? _)%Z || destruct (suffix_in _ _) || simpl).
Qed.

(** A property of the graph, the counters and the catalog that the include
    loop keeps is kept by the analysis of a file and by the whole pass. *)
Lemma analyze_file_includes_invariant (P : Analyzer → Prop) file_path a :
  (∀ s s', include_graph s' = include_graph s → dependency_count s' = dependency_count s →
           files s' = files s → P s → P s') →
  (∀ name s, files s = files a → P s → P (exec (process_include file_path name) s)) →
  P a →
  files (exec (_analyze_file_includes file_path) a) = files a
  ∧ P (exec (_analyze_file_includes file_path) a).
Proof.
  intros Hext Hstep Ha. unfold _analyze_file_includes.
  apply (exec_try_except_invariant (λ s, files s = files a ∧ P s)); [|done].
  apply (exec_bind_invariant (λ s, files s = files a ∧ P s)).
  { unfold open_or_raise. by destruct (open_ignore file_path). }
  intros content s0 [Hf0 H0].
  apply (exec_bind_invariant (λ s, files s = files a ∧ P s)).
  { split; [exact Hf0|]. eapply Hext; [..|exact H0]; reflexivity. }
  intros _ s1 [Hf1 H1].
  apply (exec_bind_invariant (λ s, files s = files a ∧ P s)).
  - apply (for_each_invariant (λ s, files s = files a ∧ P s)); [|done].
    intros name s _ [Hf Hs]. split; [by rewrite process_include_files|by apply Hstep].
  - intros _ s2 [Hf2 H2].
    destruct (detect_file_issues_graph file_path content s2) as (Hg & Hd & Hf).
    split; [congruence|by eapply Hext].
Qed.

Lemma sequential_analysis_invariant (P : Analyzer → Prop) a :
  (∀ s s', include_graph s' = include_graph s → dependency_count s' = dependency_count s →
           files s' = files s → P s → P s') →
  (∀ file_path name s, file_path ∈ files s → P s →
                       P (exec (process_include file_path name) s)) →
  P a → P (exec _sequential_analyze_files a).
Proof.
  intros Hext Hstep Ha. unfold _sequential_analyze_files.
  change (st_bind st_get ?k) with (λ s : Analyzer, k s s).
  cut (files (exec (for_each (files a)
         (λ file_path, try_except (_analyze_file_includes file_path) (st_ret tt))) a) = files a
       ∧ P (exec (for_each (files a)
         (λ file_path, try_except (_analyze_file_includes file_path) (st_ret tt))) a)).
  { by intros [_ ?]. }
  apply (for_each_invariant (λ s, files s = files a ∧ P s)); [|done].
  intros file_path s Hin [Hf Hs].
  apply (exec_try_except_invariant (λ s, files s = files a ∧ P s)); [|done].
  destruct (analyze_file_includes_invariant P file_path s) as [Hf' Hs']; [done| |done|].
  - intros name s' Hf' Hs'. apply Hstep; [|done]. by rewrite Hf', Hf.
  - split; [congruence|done].
Qed.

Lemma edges_grounded_ext (s s' : Analyzer) :
  include_graph s' = include_graph s → dependency_count s' = dependency_count s →
  files s' = files s → edges_grounded s → edges_grounded s'.
Proof. intros Hg _ Hf Hs A B. rewrite Hg, Hf. apply Hs. Qed.

Lemma discover_files_graph a :
  include_graph (exec discover_files a) = include_graph a
  ∧ dependency_count (exec discover_files a) = dependency_count a.
Proof. done. Qed.

End GraphFacts.

(** C5, as stated, fails: in the project [Projects.notes] the include of
    [notes.txt] gives an edge whose target is not in the catalog. *)
Lemma edge_target_outside_catalog :
  let r := Toy.run Projects.notes Toy.ascending [] Toy.config in
  files r = ["/proj/a.cpp"]
  ∧ "/proj/notes.txt" ∈ graph_get (include_graph r) "/proj/a.cpp"
  ∧ "/proj/notes.txt" ∉ files r.
Proof.
  split; [by vm_compute|]. split.
  - apply (bool_decide_unpack _). by vm_compute.
  - apply (bool_decide_unpack _). by vm_compute.
Qed.

(** C5, amended.  After discovery and the analysis of the files, every
    edge of the graph starts at a file of the catalog and ends at a path that
    the resolver found on the disk (an existing path, or a regular file of a
    recursive search); the target need not be in the catalog.  An include
    that the resolver does not find changes neither the graph nor the
    reverse counts: it is counted in the header-frequency counter only. *)
Theorem edges_start_in_catalog_and_end_on_disk {E : Env}
    (ignore : list string) (cfg : AnalysisConfig) :
  let a := exec (discover_files ;;; _sequential_analyze_files) (new_analyzer ignore cfg) in
  (∀ A B, B ∈ graph_get (include_graph a) A →
          A ∈ files a ∧ (path_exists B = true ∨ is_file B = true))
  ∧ (∀ file_path name s,
       _resolve_include_path file_path name = Returns None →
       let s' := exec (process_include file_path name) s in
       include_graph s' = include_graph s
       ∧ dependency_count s' = dependency_count s
       ∧ count_get (header_frequency s') name = S (count_get (header_frequency s) name)).
Proof.
  intros a. split.
  - change (edges_grounded a). unfold a.
    apply exec_bind_invariant.
    + intros A B. change (include_graph (exec discover_files _)) with (∅ : gmap Path (gset Path)).
      unfold graph_get. rewrite lookup_empty. simpl. by intros ?%not_elem_of_empty.
    + intros _ s Hs. apply sequential_analysis_invariant; [apply edges_grounded_ext| |done].
      intros. by apply process_include_grounded.
  - intros file_path name s Hnone s'.
    destruct (process_include_unresolved file_path name s Hnone) as [Hg Hd].
    repeat split; [done..|]. unfold s'. rewrite process_include_frequency.
    unfold count_get at 1. by rewrite lookup_insert_eq.
Qed.

Lemma edges_start_in_catalog_and_end_on_disk_witness :
  let E := Toy.env Projects.notes Toy.ascending in
  let a := exec (discover_files ;;; _sequential_analyze_files)
             (new_analyzer [] default_analysis_config) in
  "/proj/a.cpp" ∈ files a ∧ on_disk "/proj/notes.txt".
Proof.
  intros E a.
  refine (proj1 (edges_start_in_catalog_and_end_on_disk (E := E) [] default_analysis_config)
            "/proj/a.cpp" "/proj/notes.txt" _).
  apply (bool_decide_unpack _). by vm_compute.
Defined.

Section FanIn.
Context {E : Env}.

Lemma graph_get_dom (g : gmap Path (gset Path)) f T : T ∈ graph_get g f → f ∈ dom g.
Proof.
  unfold graph_get. rewrite elem_of_dom.
  destruct (g !! f); simpl; [eauto|]. by intros ?%not_elem_of_empty.
Qed.

Lemma elem_of_fan_in_set (g : gmap Path (gset Path)) T f :
  f ∈ filter (λ f, T ∈ graph_get g f) (dom g) ↔ T ∈ graph_get g f.
Proof. rewrite elem_of_filter. split; [by intros [? _]|]. eauto using graph_get_dom. Qed.

(** A new edge to [T] leaves the fan-in of the other files as it is. *)
Lemma fan_in_insert_other (g : gmap Path (gset Path)) f T T' :
  T' ≠ T →
  fan_in (<[f := graph_get g f ∪ {[T]}]> g) T' = fan_in g T'.
Proof.
  intros Hne. unfold fan_in. f_equal. apply set_eq. intros x.
  rewrite !elem_of_fan_in_set, graph_get_insert.
  case_decide; [subst x|done]. set_solver.
Qed.

(** A new edge to [T] raises the fan-in of [T] by one at most. *)
Lemma fan_in_insert_target (g : gmap Path (gset Path)) f T :
  fan_in (<[f := graph_get g f ∪ {[T]}]> g) T ≤ S (fan_in g T).
Proof.
  unfold fan_in.
  etrans; [apply (subseteq_size _ (filter (λ f, T ∈ graph_get g f) (dom g) ∪ {[f]}))|].
  - intros x. rewrite elem_of_union, !elem_of_fan_in_set, graph_get_insert.
    case_decide; [subst x; set_solver|tauto].
  - rewrite size_union_alt.
    pose proof (subseteq_size ({[f]} ∖ filter (λ f, T ∈ graph_get g f) (dom g)) {[f]}) as Hs.
    rewrite size_singleton in Hs. specialize (Hs ltac:(set_solver)). lia.
Qed.

(** An edge that is already there leaves the graph as it is. *)
Lemma graph_insert_present (g : gmap Path (gset Path)) f T :
  T ∈ graph_get g f → <[f := graph_get g f ∪ {[T]}]> g = g.
Proof.
  unfold graph_get. intros HT. destruct (g !! f) as [s|] eqn:Hs; simpl in *.
  - apply insert_id. rewrite Hs. f_equal. set_solver.
  - by apply not_elem_of_empty in HT.
Qed.

Lemma process_include_fan_in_bounded file_path name a :
  fan_in_bounded a → fan_in_bounded (exec (process_include file_path name) a).
Proof.
  intros Ha T'. rewrite process_include_exec. simpl.
  destruct (_resolve_include_path file_path name) as [[T|]|]; simpl; [|apply Ha..].
  rewrite count_get_insert. case_decide as Heq.
  - subst T'. pose proof (fan_in_insert_target (include_graph a) file_path T).
    specialize (Ha T). lia.
  - rewrite fan_in_insert_other by done. apply Ha.
Qed.

Lemma process_include_counts_mark_targets file_path name a :
  counts_mark_targets a → counts_mark_targets (exec (process_include file_path name) a).
Proof.
  intros Ha T'. rewrite process_include_exec. simpl.
  destruct (_resolve_include_path file_path name) as [[T|]|]; simpl; [|apply Ha..].
  rewrite count_get_insert. case_decide as Heq.
  - subst T'. split; [|lia]. intros _. exists file_path.
    rewrite graph_get_insert. case_decide; [|done]. set_solver.
  - rewrite (Ha T'). split; intros [A HA]; exists A; revert HA; rewrite graph_get_insert;
      case_decide; subst; set_solver.
Qed.

Lemma fan_in_bounded_ext (s s' : Analyzer) :
  include_graph s' = include_graph s → dependency_count s' = dependency_count s →
  files s' = files s → fan_in_bounded s → fan_in_bounded s'.
Proof. intros Hg Hd _ Hs T. rewrite Hg, Hd. apply Hs. Qed.

Lemma counts_mark_targets_ext (s s' : Analyzer) :
  include_graph s' = include_graph s → dependency_count s' = dependency_count s →
  files s' = files s → counts_mark_targets s → counts_mark_targets s'.
Proof. intros Hg Hd _ Hs T. rewrite Hg, Hd. apply Hs. Qed.

Lemma fan_in_empty T : fan_in ∅ T = 0.
Proof. unfold fan_in. rewrite dom_empty_L. apply size_empty_iff. set_solver. Qed.

(** In every state that the analysis of the files reaches from a fresh
    analyzer, a reverse count is at least the fan-in of its file, and it is
    positive exactly for the targets of edges. *)
Lemma reverse_counts_after_analysis (ignore : list string) (cfg : AnalysisConfig) :
  let a := exec (discover_files ;;; _sequential_analyze_files) (new_analyzer ignore cfg) in
  fan_in_bounded a ∧ counts_mark_targets a.
Proof.
  intros a. split.
  - apply exec_bind_invariant.
    + intros T. change (include_graph (exec discover_files _)) with (∅ : gmap Path (gset Path)).
      rewrite fan_in_empty. lia.
    + intros _ s Hs. apply sequential_analysis_invariant;
        [apply fan_in_bounded_ext| |done].
      intros. by apply process_include_fan_in_bounded.
  - apply exec_bind_invariant.
    + intros T. change (include_graph (exec discover_files _)) with (∅ : gmap Path (gset Path)).
      change (dependency_count (exec discover_files _)) with (∅ : gmap Path nat).
      unfold count_get, graph_get. rewrite !lookup_empty. simpl. split; [lia|].
      intros [A HA]. rewrite lookup_empty in HA. by apply not_elem_of_empty in HA.
    + intros _ s Hs. apply sequential_analysis_invariant;
        [apply counts_mark_targets_ext| |done].
      intros. by apply process_include_counts_mark_targets.
Qed.

End FanIn.

(** C6, as stated, fails: with the project [Projects.small], processing
    the include of [used.h] from [main.cpp] a second time leaves the graph
    as it is and takes the reverse count of [used.h] from 1 to 2, while one
    file only has an edge to it. *)
Lemma second_include_counted_again :
  let E := Toy.env Projects.small Toy.ascending in
  let a1 := exec (process_include "/proj/main.cpp" "used.h")
              (new_analyzer [] default_analysis_config) in
  let a2 := exec (process_include "/proj/main.cpp" "used.h") a1 in
  include_graph a2 = include_graph a1
  ∧ count_get (dependency_count a1) "/proj/used.h" = 1
  ∧ count_get (dependency_count a2) "/proj/used.h" = 2
  ∧ dependency_count a2 ≠ dependency_count a1
  ∧ fan_in (include_graph a2) "/proj/used.h" = 1.
Proof.
  intros E a1 a2.
  assert (count_get (dependency_count a1) "/proj/used.h" = 1) as H1 by by vm_compute.
  assert (count_get (dependency_count a2) "/proj/used.h" = 2) as H2 by by vm_compute.
  split; [by vm_compute|]. split; [done|]. split; [done|]. split; [|by vm_compute].
  intros Heq. rewrite Heq in H2. congruence.
Qed.

(** C6, amended.  Processing an include that resolves to [T] from
    [file_path] adds [T] to the adjacency set of [file_path] and to no other;
    when the edge is already there the graph stays as it is.  The reverse
    count of [T] goes up by one every time, also for an edge that is already
    there, and no other count changes.  So a reverse count counts the
    resolved includes of its file, and it is never below the number of
    distinct files with an edge to it. *)
Theorem edge_set_idempotent_count_cumulative {E : Env}
    (file_path : Path) (name : string) (T : Path) (a : Analyzer) :
  _resolve_include_path file_path name = Returns (Some T) →
  let a' := exec (process_include file_path name) a in
  graph_get (include_graph a') file_path = graph_get (include_graph a) file_path ∪ {[T]}
  ∧ (∀ f, f ≠ file_path → graph_get (include_graph a') f = graph_get (include_graph a) f)
  ∧ (T ∈ graph_get (include_graph a) file_path → include_graph a' = include_graph a)
  ∧ count_get (dependency_count a') T = S (count_get (dependency_count a) T)
  ∧ (∀ T', T' ≠ T → count_get (dependency_count a') T' = count_get (dependency_count a) T')
  ∧ (fan_in_bounded a → fan_in_bounded a').
Proof.
  intros Hres a'.
  assert (include_graph a'
          = <[file_path := graph_get (include_graph a) file_path ∪ {[T]}]> (include_graph a)) as Hg.
  { unfold a'. rewrite process_include_exec. simpl. by rewrite Hres. }
  assert (dependency_count a'
          = <[T := S (count_get (dependency_count a) T)]> (dependency_count a)) as Hd.
  { unfold a'. rewrite process_include_exec. simpl. by rewrite Hres. }
  rewrite Hg, Hd. repeat split.
  - rewrite graph_get_insert. by case_decide.
  - intros f Hf. rewrite graph_get_insert. by case_decide.
  - apply graph_insert_present.
  - rewrite count_get_insert. by case_decide.
  - intros T' HT'. rewrite count_get_insert. by case_decide.
  - intros Ha. by apply process_include_fan_in_bounded.
Qed.

Lemma edge_set_idempotent_count_cumulative_witness :
  let E := Toy.env Projects.small Toy.ascending in
  let a1 := exec (process_include "/proj/main.cpp" "used.h")
              (new_analyzer [] default_analysis_config) in
  let a2 := exec (process_include "/proj/main.cpp" "used.h") a1 in
  count_get (dependency_count a2) "/proj/used.h"
  = S (count_get (dependency_count a1) "/proj/used.h").
Proof.
  intros E a1 a2.
  refine (proj1 (proj2 (proj2 (proj2
            (edge_set_idempotent_count_cumulative (E := E)
               "/proj/main.cpp" "used.h" "/proj/used.h" a1 _))))).
  by vm_compute.
Defined.

(* ===================================================================== *)
(** ** Unused headers                                                      *)
(* ===================================================================== *)

Section UnusedHeaders.
Context {E : Env}.

Lemma set_issues_same a : set_issues (issues a) a = a.
Proof. by destruct a. Qed.

Lemma for_each_append_issue {A} (f : A → Issue) (l : list A) a :
  exec (for_each l (λ x, append_issue (f x))) a = set_issues (issues a ++ map f l) a.
Proof.
  revert a. induction l as [|x l IH]; intros a; simpl.
  - by rewrite app_nil_r, set_issues_same.
  - unfold append_issue at 1. rewrite exec_bind_modify, IH. simpl.
    by rewrite <- app_assoc.
Qed.

(** The headers that some file includes. *)
Lemma elem_of_included_headers (g : gmap Path (gset Path)) h :
  h ∈ (⋃ ((map_to_list g).*2) : gset Path) ↔ ∃ A, h ∈ graph_get g A.
Proof.
  rewrite elem_of_union_list. split.
  - intros (X & HX & Hh). apply list_elem_of_fmap in HX as ([A X'] & -> & HAX).
    apply elem_of_map_to_list in HAX. exists A. unfold graph_get. by rewrite HAX.
  - intros [A Hh]. unfold graph_get in Hh.
    destruct (g !! A) as [X|] eqn:HA; simpl in Hh; [|by apply not_elem_of_empty in Hh].
    exists X. split; [|done]. apply list_elem_of_fmap. exists (A, X). split; [done|].
    by apply elem_of_map_to_list.
Qed.

Lemma detect_unused_headers_exec a :
  let unused : gset Path :=
    list_to_set (List.filter (suffix_in checked_header_suffixes) (files a))
    ∖ ⋃ ((map_to_list (include_graph a)).*2) in
  exec _detect_unused_headers a
  = set_issues (issues a ++ map unused_issue (set_order unused))
      (set_unused_headers unused a).
Proof.
  intros unused. unfold _detect_unused_headers.
  rewrite exec_bind_get. cbv zeta. fold unused.
  rewrite exec_bind_modify. by rewrite for_each_append_issue.
Qed.

Lemma elem_of_unused_headers a h :
  h ∈ unused_headers (exec _detect_unused_headers a)
  ↔ h ∈ files a ∧ suffix_in checked_header_suffixes h = true
    ∧ ∀ A, h ∉ graph_get (include_graph a) A.
Proof.
  rewrite detect_unused_headers_exec. simpl.
  rewrite elem_of_difference, elem_of_list_to_set, elem_of_included_headers.
  rewrite list_elem_of_In, List.filter_In, <- list_elem_of_In.
  split.
  - intros [[Hf Hs] Hn]. repeat split; [done..|]. intros A HA. apply Hn. by exists A.
  - intros (Hf & Hs & Hn). split; [done|]. intros [A HA]. by apply (Hn A).
Qed.

Lemma issues_about_unused h l :
  NoDup l →
  issues_about h (map unused_issue l) = if bool_decide (h ∈ l) then [unused_issue h] else [].
Proof.
  unfold issues_about. induction 1 as [|x l Hx Hl IH]; simpl; [done|].
  destruct (decide (x = h)) as [->|Hne].
  - rewrite bool_decide_eq_true_2 by done. rewrite IH.
    rewrite (bool_decide_eq_false_2 (h ∈ l)) by done.
    rewrite (bool_decide_eq_true_2 (h ∈ h :: l)) by left. done.
  - rewrite bool_decide_eq_false_2 by congruence. rewrite IH.
    destruct (decide (h ∈ l)) as [Hin|Hin].
    + rewrite !bool_decide_eq_true_2; [done|by right|done].
    + rewrite !bool_decide_eq_false_2; [done| |done].
      intros [?|?]%elem_of_cons; [congruence|done].
Qed.

End UnusedHeaders.

(** C7, as stated, fails: in the project [Projects.rare_extensions] the
    header [w.hxx] is in the catalog, its extension is one of the header
    extensions of the catalog, no file includes it, and no UnusedHeader issue
    is emitted. *)
Lemma hxx_header_never_reported :
  let r := Toy.run Projects.rare_extensions Toy.ascending [] Toy.config in
  "/proj/w.hxx" ∈ files r
  ∧ suffix_in header_extensions "/proj/w.hxx" = true
  ∧ include_graph r = ∅
  ∧ unused_headers r = ∅
  ∧ issues r = [].
Proof.
  split; [apply (bool_decide_unpack _); by vm_compute|]. by vm_compute.
Qed.

(** C7, amended.  For a file of the catalog whose suffix is .h, .hpp or
    .hh, [_detect_unused_headers] appends exactly one issue about it, an
    UnusedHeader issue of severity Low, when no adjacency set of the graph
    holds it, and none when one does.  The set of unused headers is disjoint
    from the targets of the edges; and where the reverse counts are positive
    exactly for the targets, a header is unused exactly when its count is
    zero.  The iteration order of the set only fixes the order of the
    issues. *)
Theorem unused_header_iff_never_included {E : Env} (a : Analyzer) (h : Path) :
  (∀ s : gset Path, set_order s ≡ₚ elements s) →
  h ∈ files a →
  suffix_in checked_header_suffixes h = true →
  let a' := exec _detect_unused_headers a in
  ∃ new : list Issue,
    issues a' = issues a ++ new
    ∧ ((∀ A, h ∉ graph_get (include_graph a) A) →
       h ∈ unused_headers a' ∧ issues_about h new = [unused_issue h])
    ∧ ((∃ A, h ∈ graph_get (include_graph a) A) →
       (h ∉ unused_headers a') ∧ issues_about h new = [])
    ∧ (∀ A B, B ∈ graph_get (include_graph a) A → B ∉ unused_headers a')
    ∧ (counts_mark_targets a →
       (h ∈ unused_headers a' ↔ count_get (dependency_count a) h = 0))
    ∧ issue_type (unused_issue h) = UNUSED_HEADER
    ∧ issue_severity (unused_issue h) = LOW.
Proof.
  intros Hord Hfile Hsuffix a'.
  assert (∀ x, x ∈ set_order (unused_headers a') ↔ x ∈ unused_headers a') as Hmem.
  { intros x. by rewrite Hord, elem_of_elements. }
  assert (NoDup (set_order (unused_headers a'))) as Hnodup.
  { rewrite Hord. apply NoDup_elements. }
  exists (map unused_issue (set_order (unused_headers a'))).
  split; [|split; [|split; [|split; [|split]]]]; [| | | | |done..].
  - unfold a'. by rewrite detect_unused_headers_exec.
  - intros Hnever.
    assert (h ∈ unused_headers a') as Hin by by apply elem_of_unused_headers.
    split; [done|]. rewrite issues_about_unused by done.
    rewrite bool_decide_eq_true_2; [done|by apply Hmem].
  - intros [A HA].
    assert (h ∉ unused_headers a') as Hout.
    { intros (_ & _ & Hn)%elem_of_unused_headers. by apply (Hn A). }
    split; [done|]. rewrite issues_about_unused by done.
    rewrite bool_decide_eq_false_2; [done|by rewrite Hmem].
  - intros A B HB (_ & _ & Hn)%elem_of_unused_headers. by apply (Hn A).
  - intros Hcounts. unfold a'. rewrite elem_of_unused_headers. split.
    + intros (_ & _ & Hn). destruct (count_get (dependency_count a) h) eqn:Hc; [done|].
      assert (∃ A, h ∈ graph_get (include_graph a) A) as [A HA] by (apply Hcounts; lia).
      by destruct (Hn A).
    + intros Hzero. repeat split; [done..|]. intros A HA.
      assert (0 < count_get (dependency_count a) h) by (apply Hcounts; by exists A). lia.
Qed.

Lemma unused_header_iff_never_included_witness :
  let E := Toy.env Projects.small Toy.ascending in
  let a := exec (discover_files ;;; _sequential_analyze_files)
             (new_analyzer [] default_analysis_config) in
  ∃ new : list Issue,
    issues (exec _detect_unused_headers a) = issues a ++ new
    ∧ ((∀ A, "/proj/unused.h" ∉ graph_get (include_graph a) A) →
       "/proj/unused.h" ∈ unused_headers (exec _detect_unused_headers a)
       ∧ issues_about "/proj/unused.h" new = [unused_issue "/proj/unused.h"]).
Proof.
  intros E a.
  destruct (unused_header_iff_never_included (E := E) a "/proj/unused.h")
    as (new & H1 & H2 & _).
  - exact ascending_perm.
  - apply (bool_decide_unpack _). by vm_compute.
  - by vm_compute.
  - exists new. by split.
Defined.

Example small_project_issues :
  issues (Toy.run Projects.small Toy.ascending [] Toy.config)
  = [unused_issue "/proj/unused.h"].
Proof. by vm_compute. Qed.

(* ===================================================================== *)
(** ** Build-time estimates                                                *)
(* ===================================================================== *)

Section Estimates.
Context {E : Env}.

Lemma set_build_times_estimate_same a :
  set_build_times_estimate (build_times_estimate a) a = a.
Proof. by destruct a. Qed.

Lemma dict_set_fresh {V} (k : Path) (v : V) d :
  k ∉ d.*1 → dict_set k v d = d ++ [(k, v)].
Proof.
  induction d as [|[k' v'] d IH]; simpl; [done|].
  intros Hk. apply not_elem_of_cons in Hk as [Hne Hk].
  destruct (String.eqb_spec k k'); [done|]. by rewrite IH.
Qed.

Lemma dict_get_map {V} (g : Path → V) (f : Path) l :
  f ∈ l → dict_get f (map (λ f, (f, g f)) l) = Some (g f).
Proof.
  induction l as [|x l IH]; simpl; [by intros ?%elem_of_nil|].
  destruct (String.eqb_spec f x) as [->|Hne]; [done|].
  intros [?|?]%elem_of_cons; [done|]. by apply IH.
Qed.

Lemma estimate_round a d file_path :
  exec (if suffix_in estimated_source_suffixes file_path then
          try_except (estimate_one file_path)
            (st_modify (λ a, set_build_times_estimate
                               (dict_set file_path 0%float (build_times_estimate a)) a))
        else st_ret tt)
    (set_build_times_estimate d a)
  = set_build_times_estimate (estimate_step a d file_path) a.
Proof.
  unfold estimate_step, file_estimate.
  destruct (suffix_in estimated_source_suffixes file_path); [|done].
  unfold estimate_one, try_except, exec, st_bind, open_or_raise, st_get, st_modify,
    st_ret, st_raise.
  destruct (open_ignore file_path) as [content|]; [|done].
  by destruct (open_default file_path) as [content'|].
Qed.

Lemma estimate_round_returns file_path s :
  fst ((if suffix_in estimated_source_suffixes file_path then
          try_except (estimate_one file_path)
            (st_modify (λ a, set_build_times_estimate
                               (dict_set file_path 0%float (build_times_estimate a)) a))
        else st_ret tt) s) = Returns tt.
Proof.
  destruct (suffix_in estimated_source_suffixes file_path); [|done].
  unfold try_except, st_modify. by destruct (estimate_one file_path s) as [[[]|] ?].
Qed.

Lemma estimate_loop a l d :
  exec (for_each l (λ file_path,
          if suffix_in estimated_source_suffixes file_path then
            try_except (estimate_one file_path)
              (st_modify (λ a, set_build_times_estimate
                                 (dict_set file_path 0%float (build_times_estimate a)) a))
          else st_ret tt))
    (set_build_times_estimate d a)
  = set_build_times_estimate (fold_left (estimate_step a) l d) a.
Proof.
  revert d. induction l as [|f l IH]; intros d; [done|].
  cbn [for_each fold_left]. rewrite exec_bind_returns by apply estimate_round_returns.
  by rewrite estimate_round, IH.
Qed.

Lemma estimate_fold a l d :
  NoDup l → (∀ f, f ∈ l → f ∉ d.*1) →
  fold_left (estimate_step a) l d
  = d ++ map (λ f, (f, file_estimate a f)) (List.filter (suffix_in estimated_source_suffixes) l).
Proof.
  intros Hl. revert d. induction Hl as [|f l Hf Hl IH]; intros d Hd;
    cbn [fold_left List.filter].
  - by rewrite app_nil_r.
  - unfold estimate_step at 2.
    destruct (suffix_in estimated_source_suffixes f) eqn:Hs.
    + rewrite dict_set_fresh by (apply Hd; by left).
      rewrite IH.
      * cbn [map]. by rewrite <- app_assoc.
      * intros x Hx. rewrite fmap_app, elem_of_app. intros [?|Hin].
        -- apply (Hd x); [by right|done].
        -- cbn in Hin. apply list_elem_of_singleton in Hin. congruence.
    + apply IH. intros x Hx. apply Hd. by right.
Qed.

Lemma estimate_build_times_exec a :
  NoDup (files a) → build_times_estimate a = [] →
  exec _estimate_build_times a
  = set_build_times_estimate
      (map (λ f, (f, file_estimate a f))
         (List.filter (suffix_in estimated_source_suffixes) (files a))) a.
Proof.
  intros Hnd Hempty. unfold _estimate_build_times. rewrite exec_bind_get.
  rewrite <- (set_build_times_estimate_same a) at 2. rewrite Hempty.
  rewrite estimate_loop, estimate_fold; [done..|].
  intros f _ ?%elem_of_nil. done.
Qed.

End Estimates.

(** C8, as stated, fails: in the project [Projects.rare_extensions] the
    file [main.C] is in the catalog, its extension is one of the source
    extensions of the catalog, it can be read, and it gets no estimate. *)
Lemma capital_c_source_not_estimated :
  let E := Toy.env Projects.rare_extensions Toy.ascending in
  let r := Toy.run Projects.rare_extensions Toy.ascending [] Toy.config in
  "/proj/main.C" ∈ files r
  ∧ suffix_in cpp_extensions "/proj/main.C" = true
  ∧ is_Some (open_ignore "/proj/main.C")
  ∧ dict_get "/proj/main.C" (build_times_estimate r) = None.
Proof.
  split; [apply (bool_decide_unpack _); by vm_compute|].
  split; [by vm_compute|]. split; [by eexists|by vm_compute].
Qed.

(** C8, amended.  On a catalog without repetitions and an empty table of
    estimates, [_estimate_build_times] stores one estimate for every file of
    the catalog whose suffix is .cpp, .cc or .cxx, in catalog order, and
    none for another file.  The estimate of a file that both readings
    return is lines * base_rate * (1 + complexity * 0.01) *
    (1 + outgoing_edge_count * 0.1) in binary64 arithmetic, with base_rate
    0.001; it is 0 when a reading raises.  The aggregate of the summary is
    the sum, from left to right, of these estimates. *)
Theorem estimates_for_cpp_cc_cxx_sources {E : Env} (a : Analyzer) :
  NoDup (files a) →
  build_times_estimate a = [] →
  let a' := exec _estimate_build_times a in
  let sources := List.filter (suffix_in estimated_source_suffixes) (files a) in
  build_times_estimate a' = map (λ f, (f, file_estimate a f)) sources
  ∧ (∀ f, f ∈ files a → suffix_in estimated_source_suffixes f = true →
          dict_get f (build_times_estimate a') = Some (file_estimate a f))
  ∧ (∀ f content content',
       open_ignore f = Some content → open_default f = Some content' →
       file_estimate a f
       = (float_of_nat (Text.count_lines content) * base_compile_time_per_line
          * (1 + float_of_nat (_calculate_complexity (analysis_config a) content') * 0.01)
          * (1 + float_of_nat (size (graph_get (include_graph a) f)) * 0.1))%float)
  ∧ (∀ f, open_ignore f = None ∨ open_default f = None → file_estimate a f = 0%float)
  ∧ estimated_build_time (_get_analysis_summary a') = py_sum (map (file_estimate a) sources)
  ∧ base_compile_time_per_line = 0.001%float.
Proof.
  intros Hnd Hempty a' sources.
  assert (build_times_estimate a' = map (λ f, (f, file_estimate a f)) sources) as Hbte.
  { unfold a'. by rewrite estimate_build_times_exec. }
  split; [done|]. split; [|split; [|split; [|split; [|done]]]].
  - intros f Hf Hs. rewrite Hbte. apply dict_get_map.
    unfold sources. rewrite list_elem_of_In, List.filter_In, <- list_elem_of_In. done.
  - intros f content content' H1 H2. unfold file_estimate. by rewrite H1, H2.
  - intros f [H|H]; unfold file_estimate; rewrite H; [done|].
    by destruct (open_ignore f).
  - unfold _get_analysis_summary. simpl. rewrite Hbte. f_equal.
    rewrite <- list_fmap_compose. done.
Qed.

Lemma estimates_for_cpp_cc_cxx_sources_witness :
  let E := Toy.env Projects.small Toy.ascending in
  let a := exec (discover_files ;;; _sequential_analyze_files)
             (new_analyzer [] default_analysis_config) in
  build_times_estimate (exec _estimate_build_times a)
  = map (λ f, (f, file_estimate a f))
      (List.filter (suffix_in estimated_source_suffixes) (files a)).
Proof.
  intros E a.
  refine (proj1 (estimates_for_cpp_cc_cxx_sources (E := E) a _ _)).
  - apply (bool_decide_unpack _). by vm_compute.
  - by vm_compute.
Defined.


(* ===================================================================== *)
(** ** File discovery                                                      *)
(* ===================================================================== *)

Section Discovery.
Context {E : Env}.

(** The catalog is in path order. *)
Lemma discover_files_sorted a :
  Sorted (λ x y, PathOps.path_leb x y = true) (files (exec discover_files a)).
Proof. apply sorted_Sorted. Qed.

(** The catalog holds the paths that [glob] gives for a recognized
    extension and that no ignore pattern matches. *)
Lemma elem_of_discover_files a p :
  p ∈ files (exec discover_files a)
  ↔ ∃ ext, ext ∈ cpp_extensions ++ header_extensions
           ∧ p ∈ glob ("**/*" +:+ ext)
           ∧ _should_ignore_file (ignore_patterns a) p = false.
Proof.
  change (files (exec discover_files a))
    with (PathOps.sorted
            (flat_map
               (λ ext, List.filter
                         (λ file_path, negb (_should_ignore_file (ignore_patterns a) file_path))
                         (glob ("**/*" +:+ ext)))
               (cpp_extensions ++ header_extensions))).
  rewrite sorted_perm, list_elem_of_In, in_flat_map. split.
  - intros (ext & Hext & [Hp Hi]%List.filter_In). exists ext.
    rewrite !list_elem_of_In. by apply negb_true_iff in Hi.
  - intros (ext & Hext & Hp & Hi). exists ext. rewrite List.filter_In.
    rewrite <- !list_elem_of_In. by rewrite Hi.
Qed.

(** No built-in pattern is the relative path of a file with a recognized
    extension: where a pattern without wildcards matches itself only, the
    built-in patterns ignore nothing that [glob] can give. *)
Lemma default_patterns_ignore_nothing (ignore : list string) (p : Path) (ext : string) :
  (∀ pat, pat ∈ default_ignore_patterns →
          fnmatch (relative_to_project p) pat = String.eqb (relative_to_project p) pat) →
  ext ∈ cpp_extensions ++ header_extensions →
  Text.endswith ext (relative_to_project p) = true →
  _should_ignore_file ignore p = existsb (fnmatch (relative_to_project p)) ignore.
Proof.
  intros Hlit Hext Hend. unfold _should_ignore_file. rewrite existsb_app.
  destruct (existsb _ default_ignore_patterns) eqn:Hdef; [|done].
  exfalso. apply existsb_exists in Hdef as (pat & Hpat & Hm).
  rewrite Hlit in Hm by by apply list_elem_of_In.
  apply String.eqb_eq in Hm. rewrite Hm in Hend.
  assert (forallb (λ pat, forallb (λ ext, negb (Text.endswith ext pat))
                            (cpp_extensions ++ header_extensions))
            default_ignore_patterns = true) as Htable by by vm_compute.
  rewrite forallb_forall in Htable. specialize (Htable pat Hpat).
  rewrite forallb_forall in Htable. apply list_elem_of_In in Hext.
  specialize (Htable ext Hext). by rewrite Hend in Htable.
Qed.

End Discovery.

(** C9.  The built-in ignore patterns exclude nothing: in the project
    [Projects.with_build_dir], with no pattern from the user, the catalog
    holds the file under [build/] and the file under [.git/], since
    [fnmatch] compares a pattern such as [build/] with the whole relative
    path. *)
Theorem build_directory_is_not_excluded :
  let E := Toy.env Projects.with_build_dir Toy.ascending in
  let r := exec discover_files (new_analyzer [] default_analysis_config) in
  files r = ["/proj/.git/hooks/probe.cc"; "/proj/build/gen.cpp"; "/proj/main.cpp"]
  ∧ relative_to_project "/proj/build/gen.cpp" = "build/gen.cpp"
  ∧ fnmatch "build/gen.cpp" "build/" = false
  ∧ _should_ignore_file [] "/proj/build/gen.cpp" = false
  ∧ _should_ignore_file [] "/proj/.git/hooks/probe.cc" = false
  ∧ _should_ignore_file ["build/*"] "/proj/build/gen.cpp" = true.
Proof. by vm_compute. Qed.

(* ===================================================================== *)
(** ** Further properties: the checks on one file                          *)
(* ===================================================================== *)

Section FileChecks.
Context {E : Env}.

(** What [_detect_file_issues] does to the analyzer. *)
Lemma detect_file_issues_exec (file_path : Path) (content : string) (a : Analyzer) :
  let cfg := analysis_config a in
  let n := Regex.count_include_lines content in
  let score := _calculate_complexity cfg content in
  let size := String.length content in
  exec (_detect_file_issues file_path content) a
  = set_issues
      (issues a
       ++ (if (max_header_includes cfg <? Z.of_nat n)%Z
           then [excessive_includes_issue file_path n (max_header_includes cfg)] else [])
       ++ (if (max_file_complexity cfg <? Z.of_nat score)%Z
           then [high_complexity_issue file_path score] else [])
       ++ (if suffix_in checked_header_suffixes file_path
              && (max_header_size cfg <? Z.of_nat size)%Z
           then [large_header_issue file_path size] else []))
      a.
Proof.
  intros cfg n score size.
  unfold _detect_file_issues, exec, st_bind, st_get, append_issue, st_modify, st_ret.
  fold cfg n score size.
  change {| issue_type := EXCESSIVE_INCLUDES; issue_file := OfFile file_path;
            issue_severity := MEDIUM;
            issue_message := MsgIncludes n (max_header_includes cfg) |}
    with (excessive_includes_issue file_path n (max_header_includes cfg)).
  change {| issue_type := HIGH_COMPLEXITY; issue_file := OfFile file_path;
            issue_severity := HIGH; issue_message := MsgComplexity score |}
    with (high_complexity_issue file_path score).
  change {| issue_type := LARGE_HEADER; issue_file := OfFile file_path;
            issue_severity := MEDIUM; issue_message := MsgSize size |}
    with (large_header_issue file_path size).
  generalize (excessive_includes_issue file_path n (max_header_includes cfg)),
    (high_complexity_issue file_path score), (large_header_issue file_path size).
  intros i1 i2 i3.
  destruct (max_header_includes cfg <? Z.of_nat n)%Z,
    (max_file_complexity cfg <? Z.of_nat score)%Z,
    (suffix_in checked_header_suffixes file_path && (max_header_size cfg <? Z.of_nat size)%Z);
    destruct a; cbn; rewrite <- ?app_assoc, ?app_nil_r; reflexivity.
Qed.

Lemma detect_file_issues_returns (file_path : Path) (content : string) (a : Analyzer) :
  fst (_detect_file_issues file_path content a) = Returns tt.
Proof.
  unfold _detect_file_issues, st_bind, st_get, append_issue, st_modify, st_ret.
  by repeat (destruct (_ <? _)%Z || destruct (suffix_in _ _) || simpl).
Qed.

Lemma issues_of_type_app t l1 l2 :
  issues_of_type t (l1 ++ l2) = issues_of_type t l1 ++ issues_of_type t l2.
Proof. apply List.filter_app. Qed.

Lemma include_count_le_complexity cfg content :
  Regex.count_include_lines content ≤ _calculate_complexity cfg content.
Proof. unfold _calculate_complexity. lia. Qed.

End FileChecks.

(** X1.  [_detect_file_issues] appends a HighComplexity issue for the file,
    of severity High and carrying the score, exactly when the complexity
    score of the text is strictly greater than [max_file_complexity], and
    then only one; a score equal to the threshold adds none.  The default
    threshold is 50. *)
Theorem high_complexity_iff_above_threshold {E : Env}
    (file_path : Path) (content : string) (a : Analyzer) :
  let T := max_file_complexity (analysis_config a) in
  let score := _calculate_complexity (analysis_config a) content in
  ∃ new : list Issue,
    issues (exec (_detect_file_issues file_path content) a) = issues a ++ new
    ∧ issues_of_type HIGH_COMPLEXITY new
      = (if (T <? Z.of_nat score)%Z then [high_complexity_issue file_path score] else [])
    ∧ ((high_complexity_issue file_path score ∈ new) ↔ (T < Z.of_nat score)%Z)
    ∧ max_file_complexity default_analysis_config = 50%Z.
Proof.
  intros T score. rewrite detect_file_issues_exec. fold T score.
  eexists. split; [reflexivity|].
  assert (issues_of_type HIGH_COMPLEXITY
            ((if (max_header_includes (analysis_config a)
                  <? Z.of_nat (Regex.count_include_lines content))%Z
              then [excessive_includes_issue file_path (Regex.count_include_lines content)
                      (max_header_includes (analysis_config a))] else [])
             ++ (if (T <? Z.of_nat score)%Z then [high_complexity_issue file_path score] else [])
             ++ (if suffix_in checked_header_suffixes file_path
                    && (max_header_size (analysis_config a) <? Z.of_nat (String.length content))%Z
                 then [large_header_issue file_path (String.length content)] else []))
          = (if (T <? Z.of_nat score)%Z then [high_complexity_issue file_path score] else []))
    as Hfilter.
  { rewrite !issues_of_type_app.
    destruct (max_header_includes _ <? _)%Z, (T <? Z.of_nat score)%Z, (suffix_in _ _ && _);
      reflexivity. }
  split; [exact Hfilter|]. split; [|done].
  split.
  - intros Hin.
    assert (high_complexity_issue file_path score
            ∈ issues_of_type HIGH_COMPLEXITY
                ((if (max_header_includes (analysis_config a)
                      <? Z.of_nat (Regex.count_include_lines content))%Z
                  then [excessive_includes_issue file_path (Regex.count_include_lines content)
                          (max_header_includes (analysis_config a))] else [])
                 ++ (if (T <? Z.of_nat score)%Z
                     then [high_complexity_issue file_path score] else [])
                 ++ (if suffix_in checked_header_suffixes file_path
                        && (max_header_size (analysis_config a)
                            <? Z.of_nat (String.length content))%Z
                     then [large_header_issue file_path (String.length content)] else [])))
      as Hin'.
    { apply list_elem_of_In, List.filter_In. split; [by apply list_elem_of_In|done]. }
    rewrite Hfilter in Hin'. destruct (T <? Z.of_nat score)%Z eqn:Hc; [by apply Z.ltb_lt|].
    by apply elem_of_nil in Hin'.
  - intros Hlt%Z.ltb_lt. rewrite Hlt. rewrite !elem_of_app. right. left.
    by apply list_elem_of_singleton.
Qed.

(** X2.  [_detect_file_issues] appends a LargeHeader issue for the file, of
    severity Medium and carrying the size, exactly when the suffix of the
    file is .h, .hpp or .hh and the length of its text is strictly greater
    than [max_header_size]; a file with another suffix never gets one,
    whatever its size.  The default threshold is 10000. *)
Theorem large_header_iff_header_above_threshold {E : Env}
    (file_path : Path) (content : string) (a : Analyzer) :
  let T := max_header_size (analysis_config a) in
  let size := String.length content in
  ∃ new : list Issue,
    issues (exec (_detect_file_issues file_path content) a) = issues a ++ new
    ∧ issues_of_type LARGE_HEADER new
      = (if suffix_in checked_header_suffixes file_path && (T <? Z.of_nat size)%Z
         then [large_header_issue file_path size] else [])
    ∧ ((large_header_issue file_path size ∈ new)
       ↔ (PathOps.suffix file_path ∈ [".h"; ".hpp"; ".hh"] ∧ (T < Z.of_nat size)%Z))
    ∧ max_header_size default_analysis_config = 10000%Z.
Proof.
  intros T size. rewrite detect_file_issues_exec. fold T size.
  set (c1 := (max_header_includes (analysis_config a) <? _)%Z).
  set (c2 := (max_file_complexity (analysis_config a) <? _)%Z).
  set (c3 := suffix_in checked_header_suffixes file_path && (T <? Z.of_nat size)%Z).
  set (i1 := excessive_includes_issue _ _ _). set (i2 := high_complexity_issue _ _).
  eexists. split; [reflexivity|].
  assert (issues_of_type LARGE_HEADER
            ((if c1 then [i1] else []) ++ (if c2 then [i2] else [])
             ++ (if c3 then [large_header_issue file_path size] else []))
          = (if c3 then [large_header_issue file_path size] else [])) as Hfilter.
  { rewrite !issues_of_type_app. by destruct c1, c2, c3. }
  split; [exact Hfilter|]. split; [|done].
  assert (c3 = true ↔ PathOps.suffix file_path ∈ [".h"; ".hpp"; ".hh"] ∧ (T < Z.of_nat size)%Z)
    as Hc3.
  { unfold c3. rewrite andb_true_iff, Z.ltb_lt. unfold suffix_in.
    rewrite existsb_exists. split.
    - intros [(x & Hx & Heq) Hlt]. apply String.eqb_eq in Heq. subst x.
      split; [by apply list_elem_of_In|done].
    - intros [Hin Hlt]. split; [|done]. exists (PathOps.suffix file_path).
      split; [by apply list_elem_of_In|apply String.eqb_refl]. }
  rewrite <- Hc3. split.
  - intros Hin.
    assert (large_header_issue file_path size
            ∈ issues_of_type LARGE_HEADER
                ((if c1 then [i1] else []) ++ (if c2 then [i2] else [])
                 ++ (if c3 then [large_header_issue file_path size] else []))) as Hin'.
    { apply list_elem_of_In, List.filter_In. split; [by apply list_elem_of_In|done]. }
    rewrite Hfilter in Hin'. destruct c3; [done|]. by apply elem_of_nil in Hin'.
  - intros ->. rewrite !elem_of_app. right. right. by apply list_elem_of_singleton.
Qed.

(** X3.  [_detect_file_issues] only appends to the list of issues: every
    other field of the analyzer and the issues already there stay, it never
    raises, and what it appends is a sublist of the ExcessiveIncludes,
    HighComplexity and LargeHeader issues of the file, in this order. *)
Theorem file_checks_append_in_fixed_order {E : Env}
    (file_path : Path) (content : string) (a : Analyzer) :
  let cfg := analysis_config a in
  let n := Regex.count_include_lines content in
  let score := _calculate_complexity cfg content in
  ∃ new : list Issue,
    exec (_detect_file_issues file_path content) a = set_issues (issues a ++ new) a
    ∧ fst (_detect_file_issues file_path content a) = Returns tt
    ∧ new `sublist_of` [excessive_includes_issue file_path n (max_header_includes cfg);
                        high_complexity_issue file_path score;
                        large_header_issue file_path (String.length content)]
    ∧ length new ≤ 3
    ∧ ∀ i, i ∈ new → issue_file i = OfFile file_path.
Proof.
  intros cfg n score. rewrite detect_file_issues_exec. fold cfg n score.
  set (c1 := (max_header_includes cfg <? _)%Z).
  set (c2 := (max_file_complexity cfg <? _)%Z).
  set (c3 := suffix_in checked_header_suffixes file_path && _).
  eexists. split; [reflexivity|]. split; [apply detect_file_issues_returns|].
  assert ((if c1 then [excessive_includes_issue file_path n (max_header_includes cfg)] else [])
          ++ (if c2 then [high_complexity_issue file_path score] else [])
          ++ (if c3 then [large_header_issue file_path (String.length content)] else [])
          `sublist_of` [excessive_includes_issue file_path n (max_header_includes cfg);
                        high_complexity_issue file_path score;
                        large_header_issue file_path (String.length content)]) as Hsub.
  { destruct c1, c2, c3; simpl; repeat (constructor || apply sublist_nil_l). }
  split; [exact Hsub|]. split.
  - apply sublist_length in Hsub. exact Hsub.
  - intros i Hi. eapply elem_of_sublist in Hi; [|exact Hsub].
    repeat (apply elem_of_cons in Hi as [->|Hi]; [done|]). by apply elem_of_nil in Hi.
Qed.

(** X4.  The complexity score is never below the number of include lines,
    and switching the template analysis off never raises it.  So a text
    with more include lines than [max_file_complexity] always gets the
    HighComplexity issue. *)
Theorem many_includes_force_high_complexity {E : Env}
    (file_path : Path) (content : string) (a : Analyzer) :
  let cfg := analysis_config a in
  let n := Regex.count_include_lines content in
  n ≤ _calculate_complexity cfg content
  ∧ (∀ cfg_on cfg_off,
       enable_template_analysis cfg_on = true →
       enable_template_analysis cfg_off = false →
       _calculate_complexity cfg_off content ≤ _calculate_complexity cfg_on content)
  ∧ ((max_file_complexity cfg < Z.of_nat n)%Z →
     high_complexity_issue file_path (_calculate_complexity cfg content)
     ∈ issues (exec (_detect_file_issues file_path content) a)).
Proof.
  intros cfg n. split; [apply include_count_le_complexity|]. split.
  - intros cfg_on cfg_off Hon Hoff. unfold _calculate_complexity. rewrite Hon, Hoff. lia.
  - intros Hlt. rewrite detect_file_issues_exec. fold cfg n. simpl.
    pose proof (include_count_le_complexity cfg content) as Hle. fold n in Hle.
    assert ((max_file_complexity cfg <? Z.of_nat (_calculate_complexity cfg content))%Z = true)
      as -> by (apply Z.ltb_lt; lia).
    rewrite !elem_of_app. right. right. left. by apply list_elem_of_singleton.
Qed.

(* ===================================================================== *)
(** ** Further properties: the analysis of the files                       *)
(* ===================================================================== *)

Lemma exec_bind_returns_value {S A B} (m : ST S A) (k : A → ST S B) (x : A) (s : S) :
  fst (m s) = Returns x → exec (st_bind m k) s = exec (k x) (exec m s).
Proof. unfold exec, st_bind. destruct (m s) as [[y|] s']; simpl; [|done]. by intros [= ->]. Qed.

Section PerFile.
Context {E : Env}.

(** What [_analyze_file_includes] does to the analyzer, case by case. *)
Lemma analyze_file_includes_exec (f : Path) (a : Analyzer) :
  exec (_analyze_file_includes f) a =
    match open_ignore f with
    | None => a
    | Some content =>
        let a1 := set_file_sizes (<[f := String.length content]> (file_sizes a)) a in
        match Regex.match_include_body content with
        | None => exec (_detect_file_issues f content) a1
        | Some (name, _) =>
            match _resolve_include_path f name with
            | Raises =>
                set_header_frequency
                  (<[name := S (count_get (header_frequency a) name)]> (header_frequency a)) a1
            | Returns _ =>
                exec (_detect_file_issues f content) (exec (process_include f name) a1)
            end
        end
    end.
Proof.
  unfold _analyze_file_includes. rewrite exec_try_except_pass. unfold open_or_raise.
  destruct (open_ignore f) as [content|]; [|done].
  rewrite exec_bind_ret, exec_bind_modify, findall_includes_first.
  destruct (Regex.match_include_body content) as [[name rest]|]; [|done].
  cbv zeta. set (a1 := set_file_sizes _ a).
  destruct (_resolve_include_path f name) as [r|] eqn:Hres.
  - rewrite exec_bind_returns.
    + unfold exec at 2. by rewrite for_each_singleton.
    + rewrite for_each_singleton.
      unfold process_include, add_edge, st_bind, st_modify, st_lift. simpl.
      rewrite Hres. by destruct r.
  - unfold exec, st_bind. rewrite for_each_singleton.
    unfold process_include, add_edge, st_bind, st_modify, st_lift. simpl.
    by rewrite Hres.
Qed.

Lemma analyze_file_includes_returns (f : Path) (a : Analyzer) :
  fst (_analyze_file_includes f a) = Returns tt.
Proof.
  unfold _analyze_file_includes, try_except, st_ret.
  by destruct (st_bind _ _ a) as [[[]|] s].
Qed.

Lemma guarded_analysis (f : Path) (s : Analyzer) :
  try_except (_analyze_file_includes f) (st_ret tt) s
  = (Returns tt, exec (_analyze_file_includes f) s).
Proof.
  pose proof (analyze_file_includes_returns f s) as Hr.
  unfold try_except, exec. destruct (_analyze_file_includes f s) as [[[]|] s']; done.
Qed.

Lemma for_each_analysis (l : list Path) (s : Analyzer) :
  for_each l (λ f, try_except (_analyze_file_includes f) (st_ret tt)) s
  = (Returns tt, analyze_files l s).
Proof.
  revert s. induction l as [|f l IH]; intros s; [done|].
  cbn [for_each]. unfold st_bind. rewrite guarded_analysis. apply IH.
Qed.

(** The sequential pass is a fold of the analysis of one file. *)
Lemma sequential_analysis_fold (a : Analyzer) :
  exec _sequential_analyze_files a = analyze_files (files a) a
  ∧ fst (_sequential_analyze_files a) = Returns tt.
Proof.
  unfold _sequential_analyze_files, exec, st_bind, st_get.
  by rewrite for_each_analysis.
Qed.

Lemma step_files f a : files (exec (_analyze_file_includes f) a) = files a.
Proof.
  rewrite analyze_file_includes_exec.
  destruct (open_ignore f) as [content|]; [|done].
  destruct (Regex.match_include_body content) as [[name rest]|]; cbv zeta;
    [destruct (_resolve_include_path f name) as [[T|]|] eqn:Hres|];
    rewrite ?detect_file_issues_exec, ?process_include_exec, ?Hres; done.
Qed.

Lemma step_graph f a :
  include_graph (exec (_analyze_file_includes f) a)
  = match opening_target f with
    | Some T => <[f := graph_get (include_graph a) f ∪ {[T]}]> (include_graph a)
    | None => include_graph a
    end.
Proof.
  rewrite analyze_file_includes_exec. unfold opening_target, opening_include.
  destruct (open_ignore f) as [content|]; [|done].
  destruct (Regex.match_include_body content) as [[name rest]|]; cbv zeta;
    [destruct (_resolve_include_path f name) as [[T|]|] eqn:Hres|];
    rewrite ?detect_file_issues_exec, ?process_include_exec, ?Hres; done.
Qed.

Lemma step_dependency_count f a :
  dependency_count (exec (_analyze_file_includes f) a)
  = match opening_target f with
    | Some T => <[T := S (count_get (dependency_count a) T)]> (dependency_count a)
    | None => dependency_count a
    end.
Proof.
  rewrite analyze_file_includes_exec. unfold opening_target, opening_include.
  destruct (open_ignore f) as [content|]; [|done].
  destruct (Regex.match_include_body content) as [[name rest]|]; cbv zeta;
    [destruct (_resolve_include_path f name) as [[T|]|] eqn:Hres|];
    rewrite ?detect_file_issues_exec, ?process_include_exec, ?Hres; done.
Qed.

Lemma step_header_frequency f a :
  header_frequency (exec (_analyze_file_includes f) a)
  = match opening_include f with
    | Some name => <[name := S (count_get (header_frequency a) name)]> (header_frequency a)
    | None => header_frequency a
    end.
Proof.
  rewrite analyze_file_includes_exec. unfold opening_include.
  destruct (open_ignore f) as [content|]; [|done].
  destruct (Regex.match_include_body content) as [[name rest]|]; cbv zeta;
    [destruct (_resolve_include_path f name) as [[T|]|] eqn:Hres|];
    rewrite ?detect_file_issues_exec, ?process_include_exec, ?Hres; done.
Qed.

Lemma step_file_sizes f a :
  file_sizes (exec (_analyze_file_includes f) a)
  = match open_ignore f with
    | Some content => <[f := String.length content]> (file_sizes a)
    | None => file_sizes a
    end.
Proof.
  rewrite analyze_file_includes_exec.
  destruct (open_ignore f) as [content|]; [|done].
  destruct (Regex.match_include_body content) as [[name rest]|]; cbv zeta;
    [destruct (_resolve_include_path f name) as [[T|]|] eqn:Hres|];
    rewrite ?detect_file_issues_exec, ?process_include_exec, ?Hres; done.
Qed.

Lemma analyze_files_files l a : files (analyze_files l a) = files a.
Proof.
  revert a. induction l as [|f l IH]; intros a; [done|].
  cbn [analyze_files fold_left]. fold (analyze_files l (exec (_analyze_file_includes f) a)).
  by rewrite IH, step_files.
Qed.

Lemma analyze_files_graph l a f T :
  T ∈ graph_get (include_graph (analyze_files l a)) f
  ↔ T ∈ graph_get (include_graph a) f ∨ (f ∈ l ∧ opening_target f = Some T).
Proof.
  revert a. induction l as [|x l IH]; intros a.
  - simpl. split; [by left|]. intros [?|[Hin _]]; [done|]. by apply elem_of_nil in Hin.
  - cbn [analyze_files fold_left]. fold (analyze_files l (exec (_analyze_file_includes x) a)).
    rewrite IH, step_graph, elem_of_cons.
    destruct (opening_target x) as [Tx|] eqn:Hx.
    + rewrite graph_get_insert. case_decide as Heq.
      * subst x. rewrite elem_of_union, elem_of_singleton. naive_solver.
      * naive_solver.
    + naive_solver.
Qed.

Lemma analyze_files_dependency_count l a T :
  count_get (dependency_count (analyze_files l a)) T
  = count_get (dependency_count a) T
    + length (List.filter (λ f, bool_decide (opening_target f = Some T)) l).
Proof.
  revert a. induction l as [|x l IH]; intros a; [simpl; lia|].
  cbn [analyze_files fold_left List.filter].
  fold (analyze_files l (exec (_analyze_file_includes x) a)).
  rewrite IH, step_dependency_count.
  destruct (opening_target x) as [Tx|] eqn:Hx.
  - rewrite count_get_insert. case_decide as Heq.
    + subst Tx. rewrite bool_decide_eq_true_2 by done. simpl. lia.
    + rewrite bool_decide_eq_false_2 by congruence. done.
  - rewrite bool_decide_eq_false_2 by done. done.
Qed.

Lemma count_get_insert_string (m : gmap string nat) k n k' :
  count_get (<[k := n]> m) k' = if decide (k = k') then n else count_get m k'.
Proof. unfold count_get. rewrite lookup_insert. by case_decide. Qed.

Lemma analyze_files_header_frequency l a name :
  count_get (header_frequency (analyze_files l a)) name
  = count_get (header_frequency a) name
    + length (List.filter (λ f, bool_decide (opening_include f = Some name)) l).
Proof.
  revert a. induction l as [|x l IH]; intros a; [simpl; lia|].
  cbn [analyze_files fold_left List.filter].
  fold (analyze_files l (exec (_analyze_file_includes x) a)).
  rewrite IH, step_header_frequency.
  destruct (opening_include x) as [nx|] eqn:Hx.
  - rewrite count_get_insert_string. case_decide as Heq.
    + subst nx. rewrite bool_decide_eq_true_2 by done. simpl. lia.
    + rewrite bool_decide_eq_false_2 by congruence. done.
  - rewrite bool_decide_eq_false_2 by done. done.
Qed.

Lemma analyze_files_file_sizes l a f :
  file_sizes (analyze_files l a) !! f
  = match open_ignore f with
    | Some content => if bool_decide (f ∈ l) then Some (String.length content)
                      else file_sizes a !! f
    | None => file_sizes a !! f
    end.
Proof.
  revert a. induction l as [|x l IH]; intros a.
  - simpl. by destruct (open_ignore f).
  - cbn [analyze_files fold_left]. fold (analyze_files l (exec (_analyze_file_includes x) a)).
    rewrite IH, step_file_sizes.
    destruct (decide (f = x)) as [->|Hne].
    + destruct (open_ignore x) as [content|]; [|done].
      rewrite (bool_decide_eq_true_2 (x ∈ x :: l)) by left.
      case_bool_decide; [done|]. by rewrite lookup_insert_eq.
    + destruct (open_ignore f) as [content|].
      * destruct (decide (f ∈ l)) as [Hin|Hout].
        -- by rewrite !bool_decide_eq_true_2 by (done || by right).
        -- rewrite !bool_decide_eq_false_2; [|by intros [?|?]%elem_of_cons|done].
           destruct (open_ignore x); [by rewrite lookup_insert_ne|done].
      * destruct (open_ignore x); [by rewrite lookup_insert_ne|done].
Qed.

Lemma analyzed_is_fold ignore cfg :
  analyzed ignore cfg
  = analyze_files (files (exec discover_files (new_analyzer ignore cfg)))
      (exec discover_files (new_analyzer ignore cfg)).
Proof.
  unfold analyzed. erewrite exec_bind_returns_value by reflexivity.
  by destruct (sequential_analysis_fold (exec discover_files (new_analyzer ignore cfg))).
Qed.

Lemma analyzed_graph ignore cfg f T :
  T ∈ graph_get (include_graph (analyzed ignore cfg)) f
  ↔ f ∈ files (analyzed ignore cfg) ∧ opening_target f = Some T.
Proof.
  rewrite analyzed_is_fold, analyze_files_graph, analyze_files_files.
  split; [|by right].
  intros [Hin|?]; [|done]. unfold graph_get in Hin. simpl in Hin.
  rewrite lookup_empty in Hin. by apply not_elem_of_empty in Hin.
Qed.

End PerFile.

(** X5.  The analysis of a file never raises, whatever happens inside; a
    file that cannot be opened leaves the analyzer exactly as it was; and
    the sequential pass over the catalog never raises either. *)
Theorem file_analysis_never_raises {E : Env} (f : Path) (a : Analyzer) :
  fst (_analyze_file_includes f a) = Returns tt
  ∧ (open_ignore f = None → exec (_analyze_file_includes f) a = a)
  ∧ fst (_sequential_analyze_files a) = Returns tt.
Proof.
  split; [apply analyze_file_includes_returns|]. split.
  - intros Hopen. by rewrite analyze_file_includes_exec, Hopen.
  - apply sequential_analysis_fold.
Qed.

(** X6.  When the resolver raises on the opening include of a file, the
    analysis of the file stops there: the size of the file and the frequency
    of the name are recorded, but the checks on the file do not run, so no
    issue is appended for it, and no edge or reverse count is added. *)
Theorem resolver_exception_skips_file_checks {E : Env}
    (f : Path) (content name rest : string) (a : Analyzer) :
  open_ignore f = Some content →
  Regex.match_include_body content = Some (name, rest) →
  _resolve_include_path f name = Raises →
  let a' := exec (_analyze_file_includes f) a in
  issues a' = issues a
  ∧ include_graph a' = include_graph a
  ∧ dependency_count a' = dependency_count a
  ∧ file_sizes a' = <[f := String.length content]> (file_sizes a)
  ∧ header_frequency a'
    = <[name := S (count_get (header_frequency a) name)]> (header_frequency a).
Proof.
  intros Hopen Hmatch Hres a'. unfold a'.
  by rewrite analyze_file_includes_exec, Hopen, Hmatch, Hres.
Qed.

Lemma resolver_exception_skips_file_checks_witness :
  let E := Toy.env absolute_include_project Toy.ascending in
  let a := new_analyzer [] default_analysis_config in
  Regex.count_include_lines
    (Text.line ("#include " +:+ Text.quoted "/nowhere/x.h") +:+ Projects.include_lines 25) = 26
  ∧ issues (exec (_analyze_file_includes "/proj/a.cpp") a) = [].
Proof.
  intros E a. split; [by vm_compute|].
  refine (proj1 (resolver_exception_skips_file_checks (E := E) "/proj/a.cpp"
                   (Text.line ("#include " +:+ Text.quoted "/nowhere/x.h")
                    +:+ Projects.include_lines 25)
                   "/nowhere/x.h" (String Text.newline (Projects.include_lines 25))
                   a _ _ _)); by vm_compute.
Defined.

(** X7.  After discovery and the sequential analysis of a fresh analyzer,
    the graph holds exactly the edges from a file of the catalog to the
    path that its opening include resolves to: only the include directive
    that opens the text of a file counts.  So no file has more than one
    outgoing edge. *)
Theorem graph_holds_opening_includes {E : Env}
    (ignore : list string) (cfg : AnalysisConfig) :
  let a := analyzed ignore cfg in
  (∀ f T, T ∈ graph_get (include_graph a) f ↔ f ∈ files a ∧ opening_target f = Some T)
  ∧ (∀ f, size (graph_get (include_graph a) f) ≤ 1).
Proof.
  intros a.
  assert (∀ f T, T ∈ graph_get (include_graph a) f
                 ↔ f ∈ files a ∧ opening_target f = Some T) as Hchar.
  { intros f T. apply analyzed_graph. }
  split; [done|]. intros f.
  destruct (opening_target f) as [T|] eqn:Ht.
  - etrans; [apply (subseteq_size _ {[T]})|by rewrite size_singleton].
    intros T' [_ HT']%Hchar. apply elem_of_singleton. congruence.
  - assert (graph_get (include_graph a) f = ∅) as ->; [|rewrite size_empty; lia].
    apply set_eq. intros T'. split; [|by intros ?%not_elem_of_empty].
    intros [_ HT']%Hchar. congruence.
Qed.

(** X8.  After discovery and the sequential analysis of a fresh analyzer,
    the reverse count of a path is the number of files of the catalog whose
    opening include resolves to it; on a catalog without repetitions it is
    the number of distinct files with an edge to the path. *)
Theorem reverse_count_counts_catalog_files {E : Env}
    (ignore : list string) (cfg : AnalysisConfig) (T : Path) :
  let a := analyzed ignore cfg in
  count_get (dependency_count a) T
  = length (List.filter (λ f, bool_decide (opening_target f = Some T)) (files a))
  ∧ (NoDup (files a) → count_get (dependency_count a) T = fan_in (include_graph a) T).
Proof.
  intros a.
  assert (count_get (dependency_count a) T
          = length (List.filter (λ f, bool_decide (opening_target f = Some T)) (files a)))
    as Hcount.
  { unfold a. rewrite analyzed_is_fold, analyze_files_dependency_count, analyze_files_files.
    done. }
  split; [done|]. intros Hnd. rewrite Hcount. unfold fan_in.
  assert (filter (λ f, T ∈ graph_get (include_graph a) f) (dom (include_graph a))
          = list_to_set
              (List.filter (λ f, bool_decide (opening_target f = Some T)) (files a))) as ->.
  { apply set_eq. intros f.
    rewrite elem_of_fan_in_set, elem_of_list_to_set, list_elem_of_In, List.filter_In,
      <- list_elem_of_In, bool_decide_eq_true.
    apply analyzed_graph. }
  symmetry. apply size_list_to_set.
  apply NoDup_ListNoDup, List.NoDup_filter. by apply NoDup_ListNoDup.
Qed.

(** X9.  After discovery and the sequential analysis of a fresh analyzer,
    the frequency of an include name is the number of files of the catalog
    whose text opens with an include of that name, resolved or not, so it is
    at most the size of the catalog; and the recorded size of a file is the
    length of its text for every file of the catalog that can be opened, and
    missing for every other path. *)
Theorem frequency_counts_opening_includes {E : Env}
    (ignore : list string) (cfg : AnalysisConfig) (name : string) :
  let a := analyzed ignore cfg in
  count_get (header_frequency a) name
  = length (List.filter (λ f, bool_decide (opening_include f = Some name)) (files a))
  ∧ count_get (header_frequency a) name ≤ length (files a)
  ∧ (∀ f, file_sizes a !! f
          = if bool_decide (f ∈ files a) then String.length <$> open_ignore f else None).
Proof.
  intros a.
  assert (count_get (header_frequency a) name
          = length (List.filter (λ f, bool_decide (opening_include f = Some name)) (files a)))
    as Hcount.
  { unfold a. rewrite analyzed_is_fold, analyze_files_header_frequency, analyze_files_files.
    done. }
  split; [done|]. split.
  - rewrite Hcount. apply List.filter_length_le.
  - intros f. unfold a. rewrite analyzed_is_fold, analyze_files_file_sizes, analyze_files_files.
    simpl. rewrite lookup_empty.
    destruct (open_ignore f); simpl; by case_bool_decide.
Qed.

(* ===================================================================== *)
(** ** Further properties: cycle detection                                 *)
(* ===================================================================== *)

Section Traversal.
Context {E : Env} (g : gmap Path (gset Path)).

Lemma dfs_zero f st : dfs 0 g f st = (Raises, st).
Proof. reflexivity. Qed.

Lemma dfs_fresh_eq depth f st :
  f ∉ recursion_stack st → f ∉ visited st →
  dfs (S depth) g f st
  = match for_each (set_order (graph_get g f)) (dfs depth g) (dfs_push f st) with
    | (Returns _, s2) => (Returns tt, dfs_pop f s2)
    | (Raises, s2) => (Raises, s2)
    end.
Proof. intros Hs Hv. by rewrite dfs_fresh. Qed.

Lemma for_each_cons {A} (body : A → ST DfsState unit) x l st :
  for_each (x :: l) body st
  = match body x st with
    | (Returns _, s1) => for_each l body s1
    | (Raises, s1) => (Raises, s1)
    end.
Proof. reflexivity. Qed.

Lemma for_each_keeps (body : Path → ST DfsState unit) l :
  (∀ x, keeps (body x)) → keeps (for_each l body).
Proof.
  intros Hbody. induction l as [|x l IH]; intros st.
  - simpl. split; [exists []; by rewrite app_nil_r|done].
  - rewrite for_each_cons. destruct (Hbody x st) as ([n1 H1] & H2 & H3).
    destruct (body x st) as [[[]|] s1]; simpl in *.
    + destruct (IH s1) as ([n2 H1'] & H2' & H3'). split; [|split].
      * exists (n1 ++ n2). by rewrite H1', H1, app_assoc.
      * set_solver.
      * intros Hr. rewrite H3' by done. by apply H3.
    + split; [by exists n1|]. split; [done|]. done.
Qed.

Lemma dfs_keeps depth f : keeps (dfs depth g f).
Proof.
  revert f. induction depth as [|depth IH]; intros f st.
  - rewrite dfs_zero. simpl. split; [exists []; by rewrite app_nil_r|done].
  - destruct (decide (f ∈ recursion_stack st)) as [Hs|Hs].
    { rewrite dfs_on_stack by done. simpl. split; [by eexists|done]. }
    destruct (decide (f ∈ visited st)) as [Hv|Hv].
    { rewrite dfs_visited by done. simpl. split; [exists []; by rewrite app_nil_r|done]. }
    rewrite dfs_fresh_eq by done.
    destruct (for_each_keeps (dfs depth g) (set_order (graph_get g f)) IH (dfs_push f st))
      as ([n1 H1] & H2 & H3).
    destruct (for_each _ _ (dfs_push f st)) as [[[]|] s2]; simpl in *.
    + split; [by exists n1|]. split; [set_solver|].
      intros _. rewrite H3 by done. set_solver.
    + split; [by exists n1|]. split; [set_solver|done].
Qed.

(** *** No false alarm *)

Section Sound.
Hypothesis Hord : ∀ s : gset Path, set_order s ≡ₚ elements s.

Lemma elem_of_set_order (s : gset Path) x : x ∈ set_order s ↔ x ∈ s.
Proof. by rewrite Hord, elem_of_elements. Qed.

Lemma head_drop_index x (l : list Path) :
  x ∈ l → head (drop (list_index x l) l) = Some x.
Proof.
  induction l as [|y l IH]; intros Hin; [by apply elem_of_nil in Hin|].
  simpl. destruct (String.eqb x y) eqn:Hxy.
  - apply String.eqb_eq in Hxy. by subst.
  - apply String.eqb_neq in Hxy. simpl. apply IH.
    apply elem_of_cons in Hin as [?|?]; [done|done].
Qed.

Lemma for_each_sound depth l :
  (∀ f st, (∀ s, s ∈ recursion_stack st → tc (edge g) s f) →
           ∃ new, found_cycles (snd (dfs depth g f st)) = found_cycles st ++ new
                  ∧ Forall (closes_cycle g) new) →
  ∀ st, (∀ d s, d ∈ l → s ∈ recursion_stack st → tc (edge g) s d) →
        ∃ new, found_cycles (snd (for_each l (dfs depth g) st)) = found_cycles st ++ new
               ∧ Forall (closes_cycle g) new.
Proof.
  intros IH. induction l as [|x l IHl]; intros st Hst.
  - exists []. simpl. by rewrite app_nil_r.
  - rewrite for_each_cons.
    destruct (IH x st) as (n1 & H1 & F1); [intros s Hs; apply Hst; [by left|done]|].
    destruct (dfs_keeps depth x st) as (_ & _ & Hstack).
    destruct (dfs depth g x st) as [[[]|] s1]; simpl in *.
    + destruct (IHl s1) as (n2 & H2 & F2).
      { intros d s Hd Hs. rewrite Hstack in Hs by done. apply Hst; [by right|done]. }
      exists (n1 ++ n2). split; [by rewrite H2, H1, app_assoc|by apply Forall_app].
    + by exists n1.
Qed.

Lemma dfs_sound depth f st :
  (∀ s, s ∈ recursion_stack st → tc (edge g) s f) →
  ∃ new, found_cycles (snd (dfs depth g f st)) = found_cycles st ++ new
         ∧ Forall (closes_cycle g) new.
Proof.
  revert f st. induction depth as [|depth IH]; intros f st Hst.
  - exists []. rewrite dfs_zero. simpl. by rewrite app_nil_r.
  - destruct (decide (f ∈ recursion_stack st)) as [Hs|Hs].
    { rewrite dfs_on_stack by done. simpl. eexists. split; [done|].
      apply Forall_singleton. exists f. split; [|by apply Hst].
      apply head_drop_index. by apply elem_of_set_order. }
    destruct (decide (f ∈ visited st)) as [Hv|Hv].
    { rewrite dfs_visited by done. exists []. by rewrite app_nil_r. }
    rewrite dfs_fresh_eq by done.
    destruct (for_each_sound depth (set_order (graph_get g f)) IH (dfs_push f st))
      as (n1 & H1 & F1).
    { intros d s Hd Hs'. apply elem_of_set_order in Hd. simpl in Hs'.
      apply elem_of_union in Hs' as [Hs'|Hs'].
      - eapply tc_r; [by apply Hst|done].
      - apply elem_of_singleton in Hs'. subst. by apply tc_once. }
    destruct (for_each _ _ (dfs_push f st)) as [[[]|] s2]; simpl in *; by exists n1.
Qed.

Lemma dfs_all_step f :
  keeps (λ st, if bool_decide (f ∈ visited st) then (Returns tt, st)
               else dfs recursion_limit g f st).
Proof.
  intros st. case_bool_decide.
  - simpl. split; [exists []; by rewrite app_nil_r|done].
  - apply dfs_keeps.
Qed.

Lemma dfs_all_cons f l st :
  dfs_all g (f :: l) st
  = match (if bool_decide (f ∈ visited st) then (Returns tt, st)
           else dfs recursion_limit g f st) with
    | (Returns _, s1) => dfs_all g l s1
    | (Raises, s1) => (Raises, s1)
    end.
Proof.
  unfold dfs_all. rewrite for_each_cons. unfold st_bind at 1, st_get.
  by case_bool_decide.
Qed.

Lemma dfs_all_keeps l : keeps (dfs_all g l).
Proof.
  unfold dfs_all. apply for_each_keeps. intros y st.
  pose proof (dfs_all_step y st) as Hy.
  unfold st_bind, st_get. simpl in *. by case_bool_decide.
Qed.

Lemma dfs_all_sound l st :
  recursion_stack st = ∅ →
  ∃ new, found_cycles (snd (dfs_all g l st)) = found_cycles st ++ new
         ∧ Forall (closes_cycle g) new.
Proof.
  revert st. induction l as [|f l IH]; intros st Hst.
  - exists []. simpl. by rewrite app_nil_r.
  - rewrite dfs_all_cons.
    destruct (dfs_all_step f st) as (_ & _ & Hstack).
    assert (∃ new, found_cycles (snd (if bool_decide (f ∈ visited st) then (Returns tt, st)
                                      else dfs recursion_limit g f st))
                   = found_cycles st ++ new ∧ Forall (closes_cycle g) new) as (n1 & H1 & F1).
    { case_bool_decide.
      - exists []. simpl. by rewrite app_nil_r.
      - apply dfs_sound. intros s. rewrite Hst. set_solver. }
    destruct (if bool_decide (f ∈ visited st) then _ else _) as [[[]|] s1]; simpl in *.
    + destruct (IH s1) as (n2 & H2 & F2); [by rewrite Hstack|].
      exists (n1 ++ n2). split; [by rewrite H2, H1, app_assoc|by apply Forall_app].
    + by exists n1.
Qed.

End Sound.
End Traversal.

Section Detection.
Context {E : Env}.

Lemma for_each_append_issue_returns {A} (f : A → Issue) (l : list A) a :
  for_each l (λ x, append_issue (f x)) a
  = (Returns tt, set_issues (issues a ++ map f l) a).
Proof.
  revert a. induction l as [|x l IH]; intros a; simpl.
  - by rewrite app_nil_r, set_issues_same.
  - unfold append_issue at 1, st_bind at 1, st_modify at 1. rewrite IH. simpl.
    by rewrite <- app_assoc.
Qed.

Lemma detect_circular_dependencies_eq a :
  _detect_circular_dependencies a
  = match fst (traversal a) with
    | Returns _ =>
        (Returns tt,
         set_issues
           (issues a ++ map cycle_issue (enumerate_from 0 (found_cycles (snd (traversal a)))))
           (set_circular_deps (found_cycles (snd (traversal a))) a))
    | Raises => (Raises, set_circular_deps (found_cycles (snd (traversal a))) a)
    end.
Proof.
  unfold _detect_circular_dependencies, traversal.
  unfold st_bind at 1, st_get.
  destruct (dfs_all _ _ _) as [r st]. simpl.
  unfold st_bind at 1, st_modify at 1. unfold st_bind at 1, st_lift.
  destruct r as [[]|]; [|done].
  rewrite for_each_append_issue_returns. by destruct a.
Qed.

(** X10. No false alarm: if iterating a set lists exactly its members, every
    list that [_detect_circular_dependencies] adds to [circular_deps] starts
    at a file that includes itself through one or more edges of the include
    graph, and the earlier entries are kept in front.  So on a graph without
    a cycle nothing is added, and an analyzer that had no cycle recorded gets
    no issue from the detection. *)
Theorem reported_cycles_start_on_a_cycle (a : Analyzer)
    (Hord : ∀ s : gset Path, set_order s ≡ₚ elements s) :
  let a' := exec _detect_circular_dependencies a in
  (∃ new, circular_deps a' = circular_deps a ++ new
          ∧ Forall (closes_cycle (include_graph a)) new)
  ∧ ((∀ f, ¬ tc (edge (include_graph a)) f f) →
     circular_deps a' = circular_deps a
     ∧ (circular_deps a = [] → issues a' = issues a)).
Proof.
  intros a'.
  assert (∃ new, circular_deps a' = circular_deps a ++ new
                 ∧ Forall (closes_cycle (include_graph a)) new) as Hnew.
  { destruct (dfs_all_sound (include_graph a) Hord (files a)
                {| visited := ∅; recursion_stack := ∅; found_cycles := circular_deps a |})
      as (new & Hfound & Hall); [done|].
    exists new. split; [|done]. subst a'. unfold exec.
    rewrite detect_circular_dependencies_eq. fold (traversal a) in Hfound.
    destruct (fst (traversal a)) as [[]|]; simpl in *; by destruct a. }
  split; [done|]. intros Hacyclic.
  destruct Hnew as (new & Hcirc & Hall).
  assert (new = []) as ->.
  { destruct new as [|c new]; [done|]. apply Forall_cons in Hall as [(h & _ & Hh) _].
    by apply Hacyclic in Hh. }
  rewrite app_nil_r in Hcirc. split; [done|]. intros Hnone.
  subst a'. unfold exec in *. rewrite detect_circular_dependencies_eq in *.
  destruct (fst (traversal a)) as [[]|]; simpl in *.
  - assert (found_cycles (snd (traversal a)) = []) as ->.
    { rewrite <- Hnone, <- Hcirc. by destruct a. }
    simpl. rewrite app_nil_r. by destruct a.
  - by destruct a.
Qed.

End Detection.

Lemma reported_cycles_start_on_a_cycle_witness :
  let E := Toy.env Projects.mutual Toy.descending in
  let a := Projects.mutual_analyzer in
  let a' := exec _detect_circular_dependencies a in
  (∃ new, circular_deps a' = circular_deps a ++ new
          ∧ Forall (closes_cycle (include_graph a)) new)
  ∧ ((∀ f, ¬ tc (edge (include_graph a)) f f) →
     circular_deps a' = circular_deps a
     ∧ (circular_deps a = [] → issues a' = issues a)).
Proof.
  exact (reported_cycles_start_on_a_cycle
           (E := Toy.env Projects.mutual Toy.descending)
           Projects.mutual_analyzer descending_perm).
Defined.

(** *** Enough frames *)

Section Termination.
Context {E : Env} (g : gmap Path (gset Path)) (N : gset Path).
Hypothesis Hord : ∀ s : gset Path, set_order s ≡ₚ elements s.
Hypothesis Hclosed : ∀ x y, x ∈ N → edge g x y → y ∈ N.

Lemma size_unvisited_mono (V V' : gset Path) :
  V ⊆ V' → size (N ∖ V') ≤ size (N ∖ V).
Proof. intros HV. apply subseteq_size. set_solver. Qed.

Lemma size_unvisited_fresh (V : gset Path) f :
  f ∈ N → f ∉ V → size (N ∖ V) = S (size (N ∖ (V ∪ {[f]}))).
Proof.
  intros HN HV.
  assert (N ∖ V = {[f]} ∪ N ∖ (V ∪ {[f]})) as ->.
  { apply set_eq. intros x. destruct (decide (x = f)); set_solver. }
  rewrite size_union by set_solver. by rewrite size_singleton.
Qed.

Lemma for_each_enough depth l :
  (∀ f st, f ∈ N → size (N ∖ visited st) < depth → fst (dfs depth g f st) = Returns tt) →
  ∀ st, (∀ d, d ∈ l → d ∈ N) → size (N ∖ visited st) < depth →
        fst (for_each l (dfs depth g) st) = Returns tt.
Proof.
  intros IH. induction l as [|x l IHl]; intros st Hl Hsize; [done|].
  rewrite for_each_cons.
  pose proof (IH x st (Hl x ltac:(by left)) Hsize) as Hx.
  destruct (dfs_keeps g depth x st) as (_ & Hvis & _).
  destruct (dfs depth g x st) as [[[]|] s1]; simpl in *; [|done].
  apply IHl.
  - intros d Hd. apply Hl. by right.
  - pose proof (size_unvisited_mono _ _ Hvis). lia.
Qed.

Lemma dfs_enough depth f st :
  f ∈ N → size (N ∖ visited st) < depth → fst (dfs depth g f st) = Returns tt.
Proof.
  revert f st. induction depth as [|depth IH]; intros f st HN Hsize; [lia|].
  destruct (decide (f ∈ recursion_stack st)) as [Hs|Hs].
  { by rewrite dfs_on_stack. }
  destruct (decide (f ∈ visited st)) as [Hv|Hv].
  { by rewrite dfs_visited. }
  rewrite dfs_fresh_eq by done.
  pose proof (for_each_enough depth (set_order (graph_get g f)) IH (dfs_push f st)) as Hloop.
  destruct (for_each _ _ (dfs_push f st)) as [[[]|] s2]; [done|].
  apply Hloop.
  - intros d Hd. apply (elem_of_set_order Hord) in Hd. by apply (Hclosed f).
  - simpl. rewrite (size_unvisited_fresh (visited st) f) in Hsize by done. lia.
Qed.

Lemma dfs_all_enough l st :
  (∀ f, f ∈ l → f ∈ N) → size N < recursion_limit →
  fst (dfs_all g l st) = Returns tt.
Proof.
  intros Hl Hsize. revert st Hl. induction l as [|f l IH]; intros st Hl; [done|].
  rewrite dfs_all_cons.
  assert (fst (if bool_decide (f ∈ visited st) then (Returns tt, st)
               else dfs recursion_limit g f st) = Returns tt) as Hf.
  { case_bool_decide; [done|]. apply dfs_enough; [apply Hl; by left|].
    assert (size (N ∖ visited st) ≤ size N) by (apply subseteq_size; set_solver). lia. }
  destruct (if bool_decide (f ∈ visited st) then _ else _) as [[[]|] s1]; [|done].
  apply IH. intros x Hx. apply Hl. by right.
Qed.

End Termination.

Lemma graph_nodes_closed (g : gmap Path (gset Path)) (fs : list Path) x y :
  x ∈ graph_nodes g fs → edge g x y → y ∈ graph_nodes g fs.
Proof.
  intros _ Hxy. unfold graph_nodes. apply elem_of_union_r.
  apply elem_of_included_headers. by exists x.
Qed.

Lemma graph_nodes_files (g : gmap Path (gset Path)) (fs : list Path) f :
  f ∈ fs → f ∈ graph_nodes g fs.
Proof. intros Hf. unfold graph_nodes. set_solver. Qed.

Lemma elem_of_enumerate_from {A} (k : nat) (l : list A) i c :
  l !! i = Some c → (k + i, c) ∈ enumerate_from k l.
Proof.
  revert k i. induction l as [|x l IH]; intros k i Hi; [done|].
  destruct i as [|i]; simpl in *.
  - injection Hi as ->. rewrite Nat.add_0_r. by left.
  - right. replace (k + S i) with (S k + i) by lia. by apply IH.
Qed.

(** X11. Enough frames: if iterating a set lists exactly its members and the
    catalog, the files with edges and the edge targets are together fewer
    than the recursion limit, [_detect_circular_dependencies] returns
    without RecursionError, and it then appends one issue for every entry
    of [circular_deps], the entries that were there before the call
    included, numbered from 1 in the order of the list. *)
Theorem detection_returns_below_recursion_limit {E : Env} (a : Analyzer)
    (Hord : ∀ s : gset Path, set_order s ≡ₚ elements s)
    (Hsize : size (graph_nodes (include_graph a) (files a)) < recursion_limit) :
  let a' := exec _detect_circular_dependencies a in
  fst (_detect_circular_dependencies a) = Returns tt
  ∧ issues a' = issues a ++ map cycle_issue (enumerate_from 0 (circular_deps a'))
  ∧ (∀ i c, circular_deps a' !! i = Some c →
            {| issue_type := CIRCULAR_DEPENDENCY; issue_file := OfCycle (i + 1);
               issue_severity := HIGH; issue_message := MsgCycle c |} ∈ issues a').
Proof.
  intros a'.
  assert (fst (traversal a) = Returns tt) as Hret.
  { apply (dfs_all_enough (include_graph a) (graph_nodes (include_graph a) (files a)) Hord).
    - apply graph_nodes_closed.
    - apply graph_nodes_files.
    - done. }
  assert (issues a' = issues a ++ map cycle_issue (enumerate_from 0 (circular_deps a'))) as Hiss.
  { subst a'. unfold exec. rewrite detect_circular_dependencies_eq, Hret. by destruct a. }
  split; [by rewrite detect_circular_dependencies_eq, Hret|]. split; [done|].
  intros i c Hic. rewrite Hiss. apply elem_of_app. right.
  apply list_elem_of_fmap. exists (i, c). split; [done|].
  by apply (elem_of_enumerate_from 0).
Qed.

Lemma detection_returns_below_recursion_limit_witness :
  let E := Toy.env Projects.mutual Toy.ascending in
  let a := Projects.mutual_analyzer in
  let a' := exec _detect_circular_dependencies a in
  fst (_detect_circular_dependencies a) = Returns tt
  ∧ issues a' = issues a ++ map cycle_issue (enumerate_from 0 (circular_deps a'))
  ∧ (∀ i c, circular_deps a' !! i = Some c →
            {| issue_type := CIRCULAR_DEPENDENCY; issue_file := OfCycle (i + 1);
               issue_severity := HIGH; issue_message := MsgCycle c |} ∈ issues a').
Proof.
  apply (detection_returns_below_recursion_limit
           (E := Toy.env Projects.mutual Toy.ascending) Projects.mutual_analyzer).
  - exact ascending_perm.
  - vm_compute. lia.
Defined.

(** *** No missed cycle *)

Section Complete.
Context {E : Env} (g : gmap Path (gset Path)).
Hypothesis Hord : ∀ s : gset Path, set_order s ≡ₚ elements s.

Lemma finished_push f st : f ∉ visited st → finished (dfs_push f st) = finished st.
Proof. intros Hv. unfold finished. simpl. apply set_eq. intros x. set_solver. Qed.

Lemma finished_pop f st :
  f ∈ visited st → finished (dfs_pop f st) = finished st ∪ {[f]}.
Proof.
  intros Hv. unfold finished. simpl. apply set_eq. intros x.
  destruct (decide (x = f)); set_solver.
Qed.

Lemma ranked_finished st st' : finished st = finished st' → ranked g st → ranked g st'.
Proof. intros Heq (rk & B & H). exists rk, B. by rewrite <- Heq. Qed.

Lemma ranked_finish f st :
  f ∉ finished st →
  (∀ w, edge g f w → w ∈ finished st) →
  ranked g st → ∀ st', finished st' = finished st ∪ {[f]} → ranked g st'.
Proof.
  intros Hf Hsucc (rk & B & H) st' Heq.
  exists (λ x, if decide (x = f) then B else rk x), (S B).
  intros u Hu. rewrite Heq in Hu. destruct (decide (u = f)) as [->|Hne].
  - split; [lia|]. intros w Hw. pose proof (Hsucc w Hw) as Hwf.
    split; [rewrite Heq; set_solver|].
    destruct (decide (w = f)) as [->|_]; [done|]. by apply H.
  - assert (u ∈ finished st) as Hu' by set_solver.
    destruct (H u Hu') as [HB Hs]. split; [lia|]. intros w Hw.
    destruct (Hs w Hw) as [Hwf Hlt]. split; [rewrite Heq; set_solver|].
    destruct (decide (w = f)) as [->|_]; [done|done].
Qed.

Lemma ranked_tc st u w :
  ranked g st → u ∈ finished st → tc (edge g) u w → w ∈ finished st ∧ ¬ tc (edge g) w w.
Proof.
  intros (rk & B & H) Hu Huw.
  assert (∀ x y, tc (edge g) x y → x ∈ finished st → y ∈ finished st ∧ rk y < rk x) as Hdown.
  { intros x y Hxy. induction Hxy as [x y Hxy|x y z Hxy _ IH]; intros Hx.
    - by apply (H x).
    - destruct (H x Hx) as [_ Hs]. destruct (Hs y Hxy) as [Hy Hlt].
      destruct (IH Hy) as [Hz Hlt']. split; [done|lia]. }
  destruct (Hdown u w Huw Hu) as [Hw _]. split; [done|].
  intros Hww. destruct (Hdown w w Hww Hw) as [_ Hlt]. lia.
Qed.

Lemma app_same_nil {A} (l n1 n2 : list A) : (l ++ n1) ++ n2 = l → n1 = [] ∧ n2 = [].
Proof.
  intros Heq. apply (f_equal length) in Heq. rewrite !length_app in Heq.
  destruct n1, n2; simpl in *; try lia. done.
Qed.

Lemma for_each_quiet depth l :
  (∀ f st, ranked g st →
           fst (dfs depth g f st) = Returns tt →
           found_cycles (snd (dfs depth g f st)) = found_cycles st →
           ranked g (snd (dfs depth g f st))
           ∧ finished st ⊆ finished (snd (dfs depth g f st))
           ∧ f ∈ finished (snd (dfs depth g f st))) →
  ∀ st, ranked g st →
        fst (for_each l (dfs depth g) st) = Returns tt →
        found_cycles (snd (for_each l (dfs depth g) st)) = found_cycles st →
        ranked g (snd (for_each l (dfs depth g) st))
        ∧ finished st ⊆ finished (snd (for_each l (dfs depth g) st))
        ∧ ∀ d, d ∈ l → d ∈ finished (snd (for_each l (dfs depth g) st)).
Proof.
  intros IH. induction l as [|x l IHl]; intros st Hrk Hret Hfound.
  - simpl. split; [done|]. split; [done|]. intros d Hd. by apply elem_of_nil in Hd.
  - rewrite for_each_cons in *.
    pose proof (IH x st Hrk) as Hx.
    destruct (dfs_keeps g depth x st) as ([n1 H1] & _ & _).
    destruct (dfs depth g x st) as [[[]|] s1]; simpl in *; [|done].
    destruct (for_each_keeps (dfs depth g) l (dfs_keeps g depth) s1) as ([n2 H2] & _ & _).
    rewrite Hfound, H1 in H2. symmetry in H2. apply app_same_nil in H2 as [-> ->].
    rewrite app_nil_r in H1.
    destruct (Hx eq_refl H1) as (Hrk1 & Hmono1 & Hx1).
    destruct (IHl s1 Hrk1 Hret) as (Hrk2 & Hmono2 & Hl2); [by rewrite Hfound|].
    split; [done|]. split; [set_solver|].
    intros d Hd. apply elem_of_cons in Hd as [->|Hd]; [set_solver|by apply Hl2].
Qed.

Lemma dfs_quiet depth f st :
  ranked g st →
  fst (dfs depth g f st) = Returns tt →
  found_cycles (snd (dfs depth g f st)) = found_cycles st →
  ranked g (snd (dfs depth g f st))
  ∧ finished st ⊆ finished (snd (dfs depth g f st))
  ∧ f ∈ finished (snd (dfs depth g f st)).
Proof.
  revert f st. induction depth as [|depth IH]; intros f st Hrk Hret Hfound; [done|].
  destruct (decide (f ∈ recursion_stack st)) as [Hs|Hs].
  { rewrite dfs_on_stack in Hfound by done. simpl in Hfound.
    apply (f_equal length) in Hfound. rewrite length_app in Hfound. simpl in Hfound. lia. }
  destruct (decide (f ∈ visited st)) as [Hv|Hv].
  { rewrite dfs_visited by done. simpl. split; [done|]. split; [done|].
    unfold finished. set_solver. }
  rewrite dfs_fresh_eq in * by done.
  pose proof (for_each_quiet depth (set_order (graph_get g f)) IH (dfs_push f st)) as Hloop.
  destruct (for_each_keeps (dfs depth g) (set_order (graph_get g f)) (dfs_keeps g depth)
              (dfs_push f st)) as (_ & Hvis & Hstack).
  destruct (for_each _ _ (dfs_push f st)) as [[[]|] s2]; simpl in *; [|done].
  destruct Hloop as (Hrk2 & Hmono & Hsucc);
    [by apply (ranked_finished st); [rewrite finished_push|]|done|done|].
  rewrite finished_push in Hmono by done.
  assert (f ∈ visited s2) as Hfv by set_solver.
  assert (f ∉ finished s2) as Hff.
  { unfold finished. rewrite Hstack by done. set_solver. }
  split; [|split].
  - apply (ranked_finish f s2); [done| |done|by apply finished_pop].
    intros w Hw. apply Hsucc. by apply (elem_of_set_order Hord).
  - rewrite finished_pop by done. set_solver.
  - rewrite finished_pop by done. set_solver.
Qed.

Lemma dfs_all_quiet l st :
  recursion_stack st = ∅ →
  ranked g st →
  fst (dfs_all g l st) = Returns tt →
  found_cycles (snd (dfs_all g l st)) = found_cycles st →
  ranked g (snd (dfs_all g l st))
  ∧ finished st ⊆ finished (snd (dfs_all g l st))
  ∧ ∀ f, f ∈ l → f ∈ finished (snd (dfs_all g l st)).
Proof.
  revert st. induction l as [|x l IHl]; intros st Hst Hrk Hret Hfound.
  - simpl. split; [done|]. split; [done|]. intros d Hd. by apply elem_of_nil in Hd.
  - rewrite dfs_all_cons in *.
    destruct (dfs_all_step g x st) as ([n1 H1] & _ & Hstack).
    assert (∀ s1, (if bool_decide (x ∈ visited st) then (Returns tt, st)
                   else dfs recursion_limit g x st) = (Returns tt, s1) →
                  found_cycles s1 = found_cycles st →
                  ranked g s1 ∧ finished st ⊆ finished s1 ∧ x ∈ finished s1) as Hx.
    { intros s1 Heq Hf. case_bool_decide as Hv.
      - injection Heq as <-. split; [done|]. split; [done|].
        unfold finished. rewrite Hst. set_solver.
      - pose proof (dfs_quiet recursion_limit x st Hrk) as Hq. rewrite Heq in Hq.
        by apply Hq. }
    destruct (if bool_decide (x ∈ visited st) then _ else _) as [[[]|] s1]; simpl in *; [|done].
    destruct (dfs_all_keeps g l s1) as ([n2 H2] & _ & _).
    rewrite Hfound, H1 in H2. symmetry in H2. apply app_same_nil in H2 as [-> ->].
    rewrite app_nil_r in H1.
    destruct (Hx s1 eq_refl H1) as (Hrk1 & Hmono1 & Hx1).
    destruct (IHl s1) as (Hrk2 & Hmono2 & Hl2); [by rewrite Hstack|done|done|by rewrite Hfound|].
    split; [done|]. split; [set_solver|].
    intros d Hd. apply elem_of_cons in Hd as [->|Hd]; [set_solver|by apply Hl2].
Qed.

End Complete.

Lemma issues_of_type_cycle_issues (l : list (nat * list Path)) :
  issues_of_type CIRCULAR_DEPENDENCY (map cycle_issue l) = map cycle_issue l.
Proof.
  unfold issues_of_type. induction l as [|ic l IH]; [done|].
  cbn [map List.filter cycle_issue issue_type]. rewrite bool_decide_eq_true_2 by done.
  by rewrite IH.
Qed.

Lemma length_enumerate_from {A} (k : nat) (l : list A) :
  length (enumerate_from k l) = length l.
Proof. revert k. induction l as [|x l IH]; intros k; simpl; [done|by rewrite IH]. Qed.

Lemma ranked_start {E : Env} (g : gmap Path (gset Path)) (cycles : list (list Path)) :
  ranked g {| visited := ∅; recursion_stack := ∅; found_cycles := cycles |}.
Proof. exists (λ _, 0), 0. intros u Hu. unfold finished in Hu. simpl in Hu. set_solver. Qed.

(** X12. No missed cycle: if iterating a set lists exactly its members, a
    file of the catalog reaches through edges of the include graph a file
    that includes itself through one or more edges, and
    [_detect_circular_dependencies] returns, then the call adds at least one
    entry to [circular_deps], and the CircularDependency issues grow by the
    length of the whole list. *)
Theorem reachable_cycle_is_reported {E : Env} (a : Analyzer) (f u : Path)
    (Hord : ∀ s : gset Path, set_order s ≡ₚ elements s)
    (Hf : f ∈ files a)
    (Hreach : rtc (edge (include_graph a)) f u)
    (Hcycle : tc (edge (include_graph a)) u u)
    (Hret : fst (_detect_circular_dependencies a) = Returns tt) :
  let a' := exec _detect_circular_dependencies a in
  length (circular_deps a) < length (circular_deps a')
  ∧ length (issues_of_type CIRCULAR_DEPENDENCY (issues a'))
    = length (issues_of_type CIRCULAR_DEPENDENCY (issues a)) + length (circular_deps a').
Proof.
  intros a'.
  assert (fst (traversal a) = Returns tt) as Htr.
  { rewrite detect_circular_dependencies_eq in Hret.
    by destruct (fst (traversal a)) as [[]|]. }
  assert (circular_deps a' = found_cycles (snd (traversal a))) as Hcd.
  { subst a'. unfold exec. rewrite detect_circular_dependencies_eq, Htr. by destruct a. }
  assert (issues a' = issues a ++ map cycle_issue (enumerate_from 0 (circular_deps a'))) as Hiss.
  { subst a'. unfold exec. rewrite detect_circular_dependencies_eq, Htr. by destruct a. }
  split.
  - rewrite Hcd. unfold traversal in *.
    set (st0 := {| visited := ∅; recursion_stack := ∅; found_cycles := circular_deps a |}) in *.
    destruct (dfs_all_keeps (include_graph a) (files a) st0) as ([new Hnew] & _ & _).
    rewrite Hnew, length_app. simpl.
    destruct new as [|c new]; [|simpl; lia]. exfalso.
    rewrite app_nil_r in Hnew.
    destruct (dfs_all_quiet (include_graph a) Hord (files a) st0)
      as (Hrk & _ & Hfin); [done|apply ranked_start|done|done|].
    pose proof (Hfin f Hf) as Hff.
    apply rtc_tc in Hreach as [->|Hfu].
    + by destruct (ranked_tc _ _ _ _ Hrk Hff Hcycle).
    + destruct (ranked_tc _ _ _ _ Hrk Hff Hfu) as [_ Hno]. done.
  - rewrite Hiss, issues_of_type_app, length_app, issues_of_type_cycle_issues.
    by rewrite length_map, length_enumerate_from.
Qed.

Lemma reachable_cycle_is_reported_witness :
  let E := Toy.env Projects.mutual Toy.descending in
  let a := Projects.mutual_analyzer in
  let a' := exec _detect_circular_dependencies a in
  length (circular_deps a) < length (circular_deps a')
  ∧ length (issues_of_type CIRCULAR_DEPENDENCY (issues a'))
    = length (issues_of_type CIRCULAR_DEPENDENCY (issues a)) + length (circular_deps a').
Proof.
  apply (reachable_cycle_is_reported
           (E := Toy.env Projects.mutual Toy.descending)
           Projects.mutual_analyzer "/proj/x.h" "/proj/x.h").
  - exact descending_perm.
  - vm_compute. set_solver.
  - apply rtc_refl.
  - apply (tc_l _ _ "/proj/y.h"); [|apply tc_once]; vm_compute; reflexivity.
  - vm_compute. reflexivity.
Defined.

(** *** Too few frames *)

Section DeepChain.
Context {E : Env} (g : gmap Path (gset Path)).
Hypothesis Hord : ∀ s : gset Path, set_order s ≡ₚ elements s.

Lemma dfs_chain depth : ∀ f c st,
  NoDup (f :: c) → include_chain g (f :: c) → depth ≤ length c →
  (∀ x, x ∈ f :: c → (x ∉ visited st) ∧ (x ∉ recursion_stack st)) →
  fst (dfs depth g f st) = Raises.
Proof.
  induction depth as [|depth IH]; intros f c st Hnd Hchain Hlen Hfresh; [done|].
  destruct c as [|y c]; [simpl in Hlen; lia|].
  destruct (Hfresh f ltac:(by left)) as [Hv Hs].
  rewrite dfs_fresh_eq by done.
  destruct Hchain as [Hedge Hchain]. rewrite Hedge, (set_order_singleton y Hord).
  rewrite for_each_cons.
  apply NoDup_cons in Hnd as [Hf Hnd].
  assert (fst (dfs depth g y (dfs_push f st)) = Raises) as Hy.
  { apply (IH y c); [done|done|simpl in Hlen; lia|].
    intros x Hx. destruct (Hfresh x ltac:(by right)) as [Hxv Hxs].
    simpl. assert (x ≠ f) by (intros ->; done). set_solver. }
  by destruct (dfs depth g y (dfs_push f st)) as [[[]|] s1].
Qed.

End DeepChain.

(** X25. Too few frames: if iterating a set lists exactly its members, the
    catalog starts with a file from which a chain of includes runs through
    more distinct files than the recursion limit, each with the next as its
    only edge, then [_detect_circular_dependencies] raises RecursionError:
    there is no cycle, no issue is added, and the exception is not caught. *)
Theorem deep_chain_exhausts_the_recursion {E : Env} (a : Analyzer)
    (f : Path) (c rest : list Path)
    (Hord : ∀ s : gset Path, set_order s ≡ₚ elements s)
    (Hfiles : files a = f :: rest)
    (Hnd : NoDup (f :: c))
    (Hchain : include_chain (include_graph a) (f :: c))
    (Hlen : recursion_limit ≤ length c) :
  let a' := exec _detect_circular_dependencies a in
  fst (_detect_circular_dependencies a) = Raises
  ∧ issues a' = issues a
  ∧ files a' = files a.
Proof.
  intros a'.
  assert (fst (traversal a) = Raises) as Htr.
  { unfold traversal. rewrite Hfiles, dfs_all_cons.
    rewrite bool_decide_eq_false_2 by set_solver.
    pose proof (dfs_chain (include_graph a) Hord recursion_limit f c
                  {| visited := ∅; recursion_stack := ∅; found_cycles := circular_deps a |}
                  Hnd Hchain Hlen) as Hraise.
    destruct (dfs recursion_limit _ f _) as [[[]|] s1]; simpl in *; [|done].
    discriminate Hraise. intros x _. set_solver. }
  assert (fst (_detect_circular_dependencies a) = Raises) as Hdet.
  { rewrite detect_circular_dependencies_eq, Htr. done. }
  split; [done|]. subst a'. unfold exec. rewrite detect_circular_dependencies_eq, Htr.
  by destruct a.
Qed.

Lemma deep_chain_exhausts_the_recursion_witness :
  let E := shallow_env Projects.mutual Toy.ascending 2 in
  let a := chain_analyzer in
  let a' := exec _detect_circular_dependencies a in
  fst (_detect_circular_dependencies a) = Raises
  ∧ issues a' = issues a
  ∧ files a' = files a.
Proof.
  apply (deep_chain_exhausts_the_recursion
           (E := shallow_env Projects.mutual Toy.ascending 2) chain_analyzer
           "/proj/a.h" ["/proj/b.h"; "/proj/c.h"] ["/proj/b.h"; "/proj/c.h"]).
  - exact ascending_perm.
  - reflexivity.
  - apply (bool_decide_unpack _). vm_compute. exact I.
  - split; [vm_compute; reflexivity|]. split; [vm_compute; reflexivity|exact I].
  - simpl. lia.
Defined.

(* ===================================================================== *)
(** ** Further properties: discovery and the whole analysis                *)
(* ===================================================================== *)

Section DiscoveryFacts.
Context {E : Env}.

Lemma discover_files_eq a :
  discover_files a
  = (Returns (PathOps.sorted (glob_hits (ignore_patterns a))),
     set_files (PathOps.sorted (glob_hits (ignore_patterns a))) a).
Proof. reflexivity. Qed.

(** X13. [discover_files] returns the list that it stores in [files] and
    changes no other field; the list is in path order and holds the paths
    that [glob] gives for the recognized extensions and that no ignore
    pattern matches, each as often as [glob] gives it; the earlier catalog
    is replaced, so a second discovery changes nothing. *)
Theorem discovery_replaces_catalog (a : Analyzer) :
  let a' := exec discover_files a in
  fst (discover_files a) = Returns (files a')
  ∧ a' = set_files (files a') a
  ∧ Sorted (λ x y, PathOps.path_leb x y = true) (files a')
  ∧ files a' ≡ₚ glob_hits (ignore_patterns a)
  ∧ (∀ p, p ∈ files a' →
          _should_ignore_file (ignore_patterns a) p = false
          ∧ ∃ ext, ext ∈ cpp_extensions ++ header_extensions ∧ p ∈ glob ("**/*" +:+ ext))
  ∧ exec discover_files a' = a'.
Proof.
  intros a'. subst a'. unfold exec. rewrite discover_files_eq. cbn [fst snd].
  split; [by destruct a|]. split; [by destruct a|].
  assert (files (set_files (PathOps.sorted (glob_hits (ignore_patterns a))) a)
          = PathOps.sorted (glob_hits (ignore_patterns a))) as Hfiles by by destruct a.
  rewrite Hfiles.
  split; [apply sorted_Sorted|]. split; [apply sorted_perm|]. split.
  - intros p Hp. rewrite sorted_perm in Hp. unfold glob_hits in Hp.
    apply list_elem_of_In, in_flat_map in Hp as (ext & Hext & [Hp Hi]%List.filter_In).
    apply negb_true_iff in Hi. split; [done|]. exists ext.
    by rewrite !list_elem_of_In.
  - rewrite discover_files_eq. by destruct a.
Qed.

End DiscoveryFacts.

Section Pipeline.
Context {E : Env}.

Lemma for_each_returns {S A} (body : A → ST S unit) (l : list A) (s : S) :
  (∀ x s, fst (body x s) = Returns tt) → fst (for_each l body s) = Returns tt.
Proof.
  intros Hbody. revert s. induction l as [|x l IH]; intros s; [done|].
  cbn [for_each]. unfold st_bind. pose proof (Hbody x s) as Hx.
  destruct (body x s) as [[[]|] s1]; [apply IH|done].
Qed.

Lemma detect_unused_headers_returns a : fst (_detect_unused_headers a) = Returns tt.
Proof.
  unfold _detect_unused_headers, st_bind at 1, st_get. cbv zeta.
  unfold st_bind at 1, st_modify at 1. by rewrite for_each_append_issue_returns.
Qed.

Lemma estimate_build_times_returns a : fst (_estimate_build_times a) = Returns tt.
Proof.
  unfold _estimate_build_times, st_bind at 1, st_get.
  apply for_each_returns. intros x s. apply estimate_round_returns.
Qed.

Lemma run_returns {S} (m : ST S unit) (s : S) :
  fst (m s) = Returns tt → m s = (Returns tt, exec m s).
Proof. unfold exec. destruct (m s) as [[[]|] s']; by intros. Qed.

Lemma step_other f a :
  let a' := exec (_analyze_file_includes f) a in
  analysis_config a' = analysis_config a
  ∧ ignore_patterns a' = ignore_patterns a
  ∧ circular_deps a' = circular_deps a
  ∧ unused_headers a' = unused_headers a
  ∧ build_times_estimate a' = build_times_estimate a.
Proof.
  intros a'. subst a'. rewrite analyze_file_includes_exec.
  destruct (open_ignore f) as [content|]; [|done].
  destruct (Regex.match_include_body content) as [[name rest]|]; cbv zeta;
    [destruct (_resolve_include_path f name) as [[T|]|] eqn:Hres|];
    rewrite ?detect_file_issues_exec, ?process_include_exec, ?Hres; done.
Qed.

Lemma analyze_files_other l a :
  let a' := analyze_files l a in
  analysis_config a' = analysis_config a
  ∧ ignore_patterns a' = ignore_patterns a
  ∧ circular_deps a' = circular_deps a
  ∧ unused_headers a' = unused_headers a
  ∧ build_times_estimate a' = build_times_estimate a.
Proof.
  revert a. induction l as [|f l IH]; intros a; [done|].
  cbn [analyze_files fold_left]. destruct (step_other f a) as (H1 & H2 & H3 & H4 & H5).
  destruct (IH (exec (_analyze_file_includes f) a)) as (G1 & G2 & G3 & G4 & G5).
  unfold analyze_files in *. cbv zeta in *.
  by rewrite G1, G2, G3, G4, G5.
Qed.

Lemma analyzed_other ignore cfg :
  let a := analyzed ignore cfg in
  analysis_config a = cfg
  ∧ ignore_patterns a = ignore
  ∧ circular_deps a = []
  ∧ unused_headers a = ∅
  ∧ build_times_estimate a = [].
Proof.
  intros a. subst a. rewrite analyzed_is_fold.
  apply analyze_files_other.
Qed.

Lemma later_passes_eq cfg a :
  ((if enable_unused_header_check cfg then _detect_unused_headers else st_ret tt) ;;;
   _estimate_build_times ;;;
   a' <- st_get ;; st_ret (_get_analysis_summary a')) a
  = (Returns (_get_analysis_summary (later_passes cfg a)), later_passes cfg a).
Proof.
  unfold later_passes. unfold st_bind at 1.
  destruct (enable_unused_header_check cfg).
  - rewrite (run_returns _ _ (detect_unused_headers_returns a)).
    unfold st_bind at 1. by rewrite (run_returns _ _ (estimate_build_times_returns _)).
  - unfold st_ret at 1. unfold st_bind at 1.
    by rewrite (run_returns _ _ (estimate_build_times_returns _)).
Qed.

(** The whole of [analyze_project] on a fresh analyzer. *)
Lemma analyze_project_eq ignore cfg :
  let a1 := analyzed ignore cfg in
  analyze_project (new_analyzer ignore cfg)
  = if enable_circular_dep_check cfg then
      match fst (_detect_circular_dependencies a1) with
      | Returns _ =>
          let a2 := exec _detect_circular_dependencies a1 in
          (Returns (_get_analysis_summary (later_passes cfg a2)), later_passes cfg a2)
      | Raises => (Raises, exec _detect_circular_dependencies a1)
      end
    else (Returns (_get_analysis_summary (later_passes cfg a1)), later_passes cfg a1).
Proof.
  intros a1. unfold analyze_project. unfold st_bind at 1. rewrite discover_files_eq.
  unfold st_bind at 1, st_get. cbn [analysis_config set_files new_analyzer].
  assert ((if parallel_analysis cfg then _parallel_analyze_files
           else _sequential_analyze_files) = _sequential_analyze_files) as ->
    by by destruct (parallel_analysis cfg).
  unfold st_bind at 1.
  rewrite (run_returns _ _ (proj2 (sequential_analysis_fold _))).
  assert (exec _sequential_analyze_files
            (set_files (PathOps.sorted (glob_hits (ignore_patterns (new_analyzer ignore cfg))))
               (new_analyzer ignore cfg)) = a1) as ->.
  { subst a1. unfold analyzed. by erewrite exec_bind_returns_value by reflexivity. }
  destruct (enable_circular_dep_check cfg).
  - unfold st_bind at 1. unfold exec.
    destruct (_detect_circular_dependencies a1) as [[[]|] a2]; [|done].
    apply later_passes_eq.
  - unfold st_bind at 1, st_ret at 1. apply later_passes_eq.
Qed.

Lemma estimate_build_times_fold a :
  exec _estimate_build_times a
  = set_build_times_estimate
      (fold_left (estimate_step a) (files a) (build_times_estimate a)) a.
Proof.
  unfold _estimate_build_times. rewrite exec_bind_get.
  rewrite <- (set_build_times_estimate_same a) at 2. by rewrite estimate_loop.
Qed.

Lemma later_passes_fields cfg a :
  let unused : gset Path :=
    list_to_set (List.filter (suffix_in checked_header_suffixes) (files a))
    ∖ ⋃ ((map_to_list (include_graph a)).*2) in
  let a' := later_passes cfg a in
  files a' = files a
  ∧ circular_deps a' = circular_deps a
  ∧ unused_headers a' = (if enable_unused_header_check cfg then unused else unused_headers a)
  ∧ issues a' = issues a ++ (if enable_unused_header_check cfg
                             then map unused_issue (set_order unused) else []).
Proof.
  intros unused a'. subst a'. unfold later_passes. rewrite estimate_build_times_fold.
  destruct (enable_unused_header_check cfg).
  - rewrite detect_unused_headers_exec. fold unused. by destruct a.
  - rewrite app_nil_r. by destruct a.
Qed.

Lemma detect_returns_fields a :
  fst (_detect_circular_dependencies a) = Returns tt →
  let a' := exec _detect_circular_dependencies a in
  files a' = files a
  ∧ include_graph a' = include_graph a
  ∧ unused_headers a' = unused_headers a
  ∧ issues a' = issues a ++ map cycle_issue (enumerate_from 0 (circular_deps a')).
Proof.
  intros Hret a'. subst a'. unfold exec. rewrite detect_circular_dependencies_eq in *.
  destruct (fst (traversal a)) as [[]|]; [|done]. by destruct a.
Qed.

Lemma detect_raises_fields a :
  fst (_detect_circular_dependencies a) = Raises →
  fst (traversal a) = Raises
  ∧ exec _detect_circular_dependencies a
    = set_circular_deps (found_cycles (snd (traversal a))) a.
Proof.
  intros Hret. unfold exec. rewrite detect_circular_dependencies_eq in *.
  by destruct (fst (traversal a)) as [[]|].
Qed.

Lemma detect_outcome a :
  fst (_detect_circular_dependencies a) = fst (traversal a).
Proof.
  rewrite detect_circular_dependencies_eq. by destruct (fst (traversal a)) as [[]|].
Qed.

End Pipeline.

(** X14. In the sequential mode, on a fresh analyzer, [analyze_project]
    raises exactly when the cycle check is enabled and the traversal runs
    out of frames.  It then stops there: the cycles found so far are
    stored, but no issue is added for them, no unused header is looked for
    and no build time is estimated.  In every other case it returns the
    summary of the analyzer it leaves.  With the cycle check disabled no
    cycle is recorded, and with the unused header check disabled no unused
    header is. *)
Theorem analysis_stops_only_on_recursion_error {E : Env}
    (ignore : list string) (cfg : AnalysisConfig)
    (Hsequential : parallel_analysis cfg = false) :
  let a1 := analyzed ignore cfg in
  let run := analyze_project (new_analyzer ignore cfg) in
  (fst run = Raises ↔ enable_circular_dep_check cfg = true ∧ fst (traversal a1) = Raises)
  ∧ (fst run = Raises →
     snd run = set_circular_deps (found_cycles (snd (traversal a1))) a1
     ∧ issues (snd run) = issues a1
     ∧ unused_headers (snd run) = ∅
     ∧ build_times_estimate (snd run) = [])
  ∧ (fst run ≠ Raises → fst run = Returns (_get_analysis_summary (snd run)))
  ∧ (enable_circular_dep_check cfg = false → circular_deps (snd run) = [])
  ∧ (enable_unused_header_check cfg = false → unused_headers (snd run) = ∅).
Proof.
  intros a1 run. subst run. rewrite analyze_project_eq. fold a1.
  destruct (analyzed_other ignore cfg) as (Hcfg & _ & Hcd & Hun & Hbt). fold a1 in Hcfg, Hcd, Hun, Hbt.
  pose proof (detect_outcome a1) as Hout.
  destruct (enable_circular_dep_check cfg) eqn:Hflag.
  - destruct (fst (_detect_circular_dependencies a1)) as [[]|] eqn:Hdet.
    + cbv zeta. cbn [fst snd].
      destruct (detect_returns_fields a1 Hdet) as (_ & _ & Hun' & _).
      destruct (later_passes_fields cfg (exec _detect_circular_dependencies a1))
        as (_ & _ & Hun'' & _).
      split; [split; [done|intros [_ Hr]; congruence]|].
      split; [done|]. split; [done|]. split; [done|].
      intros Hu. rewrite Hu in Hun''. by rewrite Hun'', Hun'.
    + destruct (detect_raises_fields a1 Hdet) as [Htr Heq]. cbn [fst snd].
      split; [done|]. split.
      { intros _. rewrite Heq. split; [done|]. destruct a1; simpl in *. by subst. }
      split; [done|]. split; [done|].
      intros _. rewrite Heq. by destruct a1.
  - cbn [fst snd].
    destruct (later_passes_fields cfg a1) as (_ & Hcd' & Hun' & _).
    split; [split; [done|by intros [? _]]|].
    split; [done|]. split; [done|]. split; [intros _; by rewrite Hcd'|].
    intros Hu. rewrite Hu in Hun'. by rewrite Hun'.
Qed.

Lemma analysis_stops_only_on_recursion_error_witness :
  let E := Toy.env Projects.small Toy.ascending in
  let ignore : list string := [] in
  let cfg := Toy.config in
  let a1 := analyzed ignore cfg in
  let run := analyze_project (new_analyzer ignore cfg) in
  (fst run = Raises ↔ enable_circular_dep_check cfg = true ∧ fst (traversal a1) = Raises)
  ∧ (fst run = Raises →
     snd run = set_circular_deps (found_cycles (snd (traversal a1))) a1
     ∧ issues (snd run) = issues a1
     ∧ unused_headers (snd run) = ∅
     ∧ build_times_estimate (snd run) = [])
  ∧ (fst run ≠ Raises → fst run = Returns (_get_analysis_summary (snd run)))
  ∧ (enable_circular_dep_check cfg = false → circular_deps (snd run) = [])
  ∧ (enable_unused_header_check cfg = false → unused_headers (snd run) = ∅).
Proof.
  apply (analysis_stops_only_on_recursion_error
           (E := Toy.env Projects.small Toy.ascending) [] Toy.config).
  reflexivity.
Defined.

Lemma suffix_sets_disjoint (f : Path) :
  suffix_in checked_header_suffixes f = true →
  suffix_in estimated_source_suffixes f = false.
Proof.
  unfold suffix_in, checked_header_suffixes, estimated_source_suffixes. cbn [existsb].
  rewrite !orb_false_r, !orb_true_iff. rewrite !String.eqb_eq.
  intros [-> | [-> | ->]]; reflexivity.
Qed.

Lemma length_filter_disjoint {A} (p q : A → bool) (l : list A) :
  (∀ x, p x = true → q x = false) →
  length (List.filter p l) + length (List.filter q l) ≤ length l.
Proof.
  intros Hpq. induction l as [|x l IH]; [done|]. cbn [List.filter].
  destruct (p x) eqn:Hp; [rewrite (Hpq x Hp)|destruct (q x)]; simpl; lia.
Qed.

Lemma size_list_to_set_le (l : list Path) : size (list_to_set l : gset Path) ≤ length l.
Proof.
  induction l as [|x l IH]; [by rewrite list_to_set_nil, size_empty|].
  rewrite list_to_set_cons. simpl.
  pose proof (size_union_alt {[x]} (list_to_set l : gset Path)) as Hu.
  rewrite size_singleton in Hu.
  assert (size ((list_to_set l : gset Path) ∖ {[x]}) ≤ size (list_to_set l : gset Path))
    by (apply subseteq_size; set_solver).
  lia.
Qed.

(** X15. The summary that [analyze_project] returns on a fresh analyzer is
    consistent, provided iterating a set lists exactly its members: the
    headers and the sources counted are disjoint parts of the catalog, the
    unused headers are at most the headers counted, and every recorded
    cycle and every unused header has its issue, so the two counts together
    are at most the number of issues. *)
Theorem summary_counts_are_consistent {E : Env}
    (ignore : list string) (cfg : AnalysisConfig) (s : Summary)
    (Hord : ∀ x : gset Path, set_order x ≡ₚ elements x)
    (Hrun : fst (analyze_project (new_analyzer ignore cfg)) = Returns s) :
  total_files s = length (files (analyzed ignore cfg))
  ∧ header_files s + source_files s ≤ total_files s
  ∧ unused_headers_found s ≤ header_files s
  ∧ circular_deps_found s + unused_headers_found s ≤ issues_found s.
Proof.
  set (a1 := analyzed ignore cfg).
  destruct (analyzed_other ignore cfg) as (_ & _ & Hcd1 & Hun1 & _). fold a1 in Hcd1, Hun1.
  assert (∃ a2, s = _get_analysis_summary (later_passes cfg a2)
                ∧ files a2 = files a1
                ∧ unused_headers a2 = ∅
                ∧ length (circular_deps a2) ≤ length (issues a2)) as (a2 & Hs & Hf2 & Hun2 & Hcd2).
  { rewrite analyze_project_eq in Hrun. fold a1 in Hrun.
    destruct (enable_circular_dep_check cfg).
    - destruct (fst (_detect_circular_dependencies a1)) as [[]|] eqn:Hdet; [|done].
      injection Hrun as <-. exists (exec _detect_circular_dependencies a1).
      destruct (detect_returns_fields a1 Hdet) as (Hf & _ & Hun & Hiss).
      split; [done|]. split; [done|]. split; [by rewrite Hun|].
      rewrite Hiss, length_app, length_map, length_enumerate_from. lia.
    - injection Hrun as <-. exists a1. split; [done|]. split; [done|]. split; [done|].
      rewrite Hcd1. simpl. lia. }
  subst s. destruct (later_passes_fields cfg a2) as (Hf & Hcd & Hun & Hiss).
  unfold _get_analysis_summary. cbn [total_files header_files source_files
    unused_headers_found circular_deps_found issues_found].
  rewrite Hf, Hcd, Hun, Hiss, Hf2, length_app.
  split; [done|]. split; [apply length_filter_disjoint, suffix_sets_disjoint|].
  destruct (enable_unused_header_check cfg).
  - rewrite length_map, Hord.
    set (U := list_to_set (List.filter (suffix_in checked_header_suffixes) (files a1))
              ∖ ⋃ (map_to_list (include_graph a2)).*2 : gset Path).
    assert (length (elements U) = size U) as -> by reflexivity.
    split; [|lia].
    etrans; [|apply size_list_to_set_le]. apply subseteq_size. set_solver.
  - rewrite Hun2, size_empty. simpl. split; lia.
Qed.

Lemma summary_counts_are_consistent_witness :
  let E := Toy.env Projects.small Toy.ascending in
  let s := _get_analysis_summary
             (exec analyze_project (new_analyzer [] default_analysis_config)) in
  total_files s = length (files (analyzed [] default_analysis_config))
  ∧ header_files s + source_files s ≤ total_files s
  ∧ unused_headers_found s ≤ header_files s
  ∧ circular_deps_found s + unused_headers_found s ≤ issues_found s.
Proof.
  apply (summary_counts_are_consistent (E := Toy.env Projects.small Toy.ascending)
           [] default_analysis_config).
  - exact ascending_perm.
  - vm_compute. reflexivity.
Defined.

Section AnalysisIssues.
Context {E : Env}.

Lemma step_issues f a :
  issues (exec (_analyze_file_includes f) a)
  = issues a ++ match checked_text f with
                | Some content => issues_for (analysis_config a) f content
                | None => []
                end.
Proof.
  rewrite analyze_file_includes_exec. unfold checked_text.
  destruct (open_ignore f) as [content|]; [|by rewrite app_nil_r].
  destruct (Regex.match_include_body content) as [[name rest]|]; cbv zeta.
  - destruct (_resolve_include_path f name) as [r|] eqn:Hres.
    + rewrite detect_file_issues_exec.
      destruct (process_include_keeps_issues f name
                  (set_file_sizes (<[f:=String.length content]> (file_sizes a)) a))
        as [Hi Hc].
      cbn [issues set_issues]. rewrite Hi, Hc. by destruct a.
    + rewrite app_nil_r. by destruct a.
  - rewrite detect_file_issues_exec. by destruct a.
Qed.

Lemma analyze_files_issues l a :
  issues (analyze_files l a)
  = issues a ++ flat_map (λ f, match checked_text f with
                               | Some content => issues_for (analysis_config a) f content
                               | None => []
                               end) l.
Proof.
  revert a. induction l as [|f l IH]; intros a; [by rewrite app_nil_r|].
  cbn [analyze_files fold_left flat_map]. fold (analyze_files l (exec (_analyze_file_includes f) a)).
  rewrite IH, step_issues. destruct (step_other f a) as (-> & _).
  by rewrite <- app_assoc.
Qed.

End AnalysisIssues.

Lemma length_flat_map_le {A B} (g : A → list B) (n : nat) (l : list A) :
  (∀ x, length (g x) ≤ n) → length (flat_map g l) ≤ n * length l.
Proof.
  intros Hg. induction l as [|x l IH]; [simpl; lia|].
  change (flat_map g (x :: l)) with (g x ++ flat_map g l).
  rewrite length_app. specialize (Hg x). simpl length. lia.
Qed.

(** X26. After discovery and the sequential analysis of a fresh analyzer
    the issues are, in catalog order, those of the checks on the text of
    each file that is read and whose opening include, if it has one, is
    resolved without an exception.  So every issue is about a file of the
    catalog, a file has at most three, and a file that cannot be read has
    none. *)
Theorem analysis_issues_follow_the_catalog {E : Env}
    (ignore : list string) (cfg : AnalysisConfig) :
  let a := analyzed ignore cfg in
  issues a = flat_map (λ f, match checked_text f with
                            | Some content => issues_for cfg f content
                            | None => []
                            end) (files a)
  ∧ length (issues a) ≤ 3 * length (files a)
  ∧ (∀ i, i ∈ issues a →
          ∃ f content, f ∈ files a ∧ open_ignore f = Some content
                       ∧ issue_file i = OfFile f
                       ∧ issue_type i ∈ [EXCESSIVE_INCLUDES; HIGH_COMPLEXITY; LARGE_HEADER]).
Proof.
  intros a.
  assert (issues a = flat_map (λ f, match checked_text f with
                                    | Some content => issues_for cfg f content
                                    | None => []
                                    end) (files a)) as Hiss.
  { subst a. rewrite analyzed_is_fold.
    set (d := exec discover_files (new_analyzer ignore cfg)).
    rewrite analyze_files_issues, analyze_files_files.
    assert (issues d = []) as -> by done.
    assert (analysis_config d = cfg) as -> by done.
    done. }
  split; [done|]. rewrite Hiss. split.
  - apply length_flat_map_le. intros f.
    destruct (checked_text f) as [content|]; [|simpl; lia].
    unfold issues_for. rewrite !length_app.
    repeat (match goal with |- context [if ?b then _ else _] => destruct b end);
      simpl; lia.
  - intros i Hi. apply list_elem_of_In, in_flat_map in Hi as (f & Hf & Hi).
    apply list_elem_of_In in Hf. exists f.
    unfold checked_text in Hi. destruct (open_ignore f) as [content|]; [|done].
    exists content. split; [done|]. split; [done|].
    assert (In i (issues_for cfg f content)) as Hin.
    { destruct (Regex.match_include_body content) as [[name rest]|]; [|done].
      by destruct (_resolve_include_path f name). }
    unfold issues_for in Hin. rewrite !in_app_iff in Hin.
    destruct Hin as [Hin|[Hin|Hin]];
      match type of Hin with In _ (if ?b then _ else _) => destruct b end;
      try done; destruct Hin as [<-|[]]; (split; [done|set_solver]).
Qed.

(* ===================================================================== *)
(** ** Further properties: the suggestions                                 *)
(* ===================================================================== *)

Lemma set_suggestions_twice v w o :
  set_suggestions v (set_suggestions w o) = set_suggestions v o.
Proof. done. Qed.

Lemma set_suggestions_same o : set_suggestions (suggestions o) o = o.
Proof. by destruct o. Qed.

(** A loop whose rounds only append. *)
Lemma for_each_extend {A} (body : A → ST Advisor unit) (g : A → list Suggestion)
    (l : list A) (o : Advisor) :
  (∀ x o, body x o = (Returns tt, set_suggestions (suggestions o ++ g x) o)) →
  for_each l body o
  = (Returns tt, set_suggestions (suggestions o ++ flat_map g l) o).
Proof.
  intros Hbody. revert o. induction l as [|x l IH]; intros o.
  - simpl. by rewrite app_nil_r, set_suggestions_same.
  - cbn [for_each flat_map]. unfold st_bind. rewrite Hbody, IH.
    cbn [suggestions set_suggestions]. by rewrite <- app_assoc.
Qed.

Lemma for_each_append_suggestion {A} (f : A → Suggestion) (l : list A) (o : Advisor) :
  for_each l (λ x, append_suggestion (f x)) o
  = (Returns tt, set_suggestions (suggestions o ++ map f l) o).
Proof.
  rewrite (for_each_extend _ (λ x, [f x])) by done.
  assert (flat_map (λ x, [f x]) l = map f l) as ->; [|done].
  induction l as [|x l IH]; [done|]. simpl. by rewrite IH.
Qed.

Section Passes.
Context {E : Env} {D : AdviceEnv}.

Lemma suggest_forward_declarations_run o :
  _suggest_forward_declarations o
  = (Returns tt,
     set_suggestions
       (suggestions o
        ++ map (λ header, forward_declaration_suggestion header
                            (count_get (dependency_count (base o)) header))
             (map fst
                (List.filter
                   (λ hc, (5 <? Z.of_nat (snd hc))%Z
                          && suffix_in checked_header_suffixes (fst hc))
                   (dict_items (dependency_count (base o)))))) o).
Proof.
  unfold _suggest_forward_declarations, st_bind at 1, st_get.
  by rewrite for_each_append_suggestion.
Qed.

Lemma suggest_pimpl_pattern_run o :
  _suggest_pimpl_pattern o
  = (Returns tt,
     set_suggestions
       (suggestions o
        ++ map pimpl_suggestion
             (map fst
                (List.filter
                   (λ fs, (15000 <? Z.of_nat (snd fs))%Z
                          && suffix_in checked_header_suffixes (fst fs))
                   (dict_items (file_sizes (base o)))))) o).
Proof.
  unfold _suggest_pimpl_pattern, st_bind at 1, st_get.
  by rewrite for_each_append_suggestion.
Qed.

Lemma suggest_unified_headers_run o :
  _suggest_unified_headers o
  = (Returns tt,
     set_suggestions
       (suggestions o
        ++ flat_map
             (λ header,
                match open_ignore header with
                | None => []
                | Some content =>
                    if (5 <? forward_declaration_count content)%nat
                       && (Regex.count_include_lines content <? 3)%nat
                    then [unified_header_suggestion header] else []
                end)
             (List.filter (suffix_in checked_header_suffixes) (files (base o)))) o).
Proof.
  unfold _suggest_unified_headers, st_bind at 1, st_get.
  apply for_each_extend. intros header o'.
  destruct (open_ignore header) as [content|].
  - destruct (_ && _); [done|]. by rewrite app_nil_r, set_suggestions_same.
  - by rewrite app_nil_r, set_suggestions_same.
Qed.

Lemma suggest_code_restructuring_run o :
  _suggest_code_restructuring o
  = (Returns tt,
     set_suggestions
       (suggestions o
        ++ map (λ ft, code_restructuring_suggestion (fst ft) (snd ft))
             (take 5
                (sorted_by_time
                   (List.filter (λ ft, PrimFloat.ltb 1.0 (snd ft))
                      (build_times_estimate (base o)))))) o).
Proof.
  unfold _suggest_code_restructuring, st_bind at 1, st_get.
  by rewrite for_each_append_suggestion.
Qed.

Lemma suggest_caching_strategies_run o :
  _suggest_caching_strategies o
  = (Returns tt,
     set_suggestions
       (suggestions o
        ++ (if cache_compilation (optimization_config o)
            then [ {| suggestion_type := CACHING_STRATEGY; suggestion_target := "PROJECT";
                      suggestion_priority := MEDIUM;
                      suggestion_advice := AdviceDistributedCache |} ]
            else [])) o).
Proof.
  unfold _suggest_caching_strategies, st_bind at 1, st_get.
  destruct (cache_compilation _); [done|]. by rewrite app_nil_r, set_suggestions_same.
Qed.

Lemma suggest_build_optimizations_appends : appends _suggest_build_optimizations.
Proof. intros o. reflexivity. Qed.

Lemma suggest_compiler_specific_optimizations_appends :
  appends _suggest_compiler_specific_optimizations.
Proof. intros o. reflexivity. Qed.

Lemma suggest_forward_declarations_appends : appends _suggest_forward_declarations.
Proof.
  intros o. unfold advice_of, exec. by rewrite !suggest_forward_declarations_run.
Qed.

Lemma suggest_pimpl_pattern_appends : appends _suggest_pimpl_pattern.
Proof. intros o. unfold advice_of, exec. by rewrite !suggest_pimpl_pattern_run. Qed.

Lemma suggest_unified_headers_appends : appends _suggest_unified_headers.
Proof. intros o. unfold advice_of, exec. by rewrite !suggest_unified_headers_run. Qed.

Lemma suggest_code_restructuring_appends : appends _suggest_code_restructuring.
Proof. intros o. unfold advice_of, exec. by rewrite !suggest_code_restructuring_run. Qed.

Lemma suggest_caching_strategies_appends : appends _suggest_caching_strategies.
Proof. intros o. unfold advice_of, exec. by rewrite !suggest_caching_strategies_run. Qed.

Lemma appends_seq (m1 m2 : ST Advisor unit) :
  appends m1 → appends m2 →
  appends (m1 ;;; m2)
  ∧ ∀ o, advice_of (m1 ;;; m2) o = advice_of m1 o ++ advice_of m2 o.
Proof.
  intros H1 H2.
  assert (∀ o, (m1 ;;; m2) o
               = (Returns tt,
                  set_suggestions (suggestions o ++ advice_of m1 o ++ advice_of m2 o) o)) as Hrun.
  { intros o. unfold st_bind. rewrite H1, H2. cbn [suggestions set_suggestions].
    unfold advice_of. rewrite set_suggestions_twice. by rewrite <- app_assoc. }
  assert (∀ o, advice_of (m1 ;;; m2) o = advice_of m1 o ++ advice_of m2 o) as Hadv.
  { intros o. unfold advice_of at 1. unfold exec. rewrite Hrun.
    cbn [snd suggestions set_suggestions app]. unfold advice_of.
    by rewrite !set_suggestions_twice. }
  split; [|done]. intros o. by rewrite Hrun, Hadv.
Qed.

Lemma generate_suggestions_appends :
  appends generate_suggestions
  ∧ ∀ o, advice_of generate_suggestions o
         = advice_of _suggest_forward_declarations o
           ++ advice_of _suggest_pimpl_pattern o
           ++ advice_of _suggest_unified_headers o
           ++ advice_of _suggest_build_optimizations o
           ++ advice_of _suggest_compiler_specific_optimizations o
           ++ advice_of _suggest_code_restructuring o
           ++ advice_of _suggest_caching_strategies o.
Proof.
  unfold generate_suggestions.
  destruct (appends_seq _ _ suggest_code_restructuring_appends
              suggest_caching_strategies_appends) as [A6 E6].
  destruct (appends_seq _ _ suggest_compiler_specific_optimizations_appends A6) as [A5 E5].
  destruct (appends_seq _ _ suggest_build_optimizations_appends A5) as [A4 E4].
  destruct (appends_seq _ _ suggest_unified_headers_appends A4) as [A3 E3].
  destruct (appends_seq _ _ suggest_pimpl_pattern_appends A3) as [A2 E2].
  destruct (appends_seq _ _ suggest_forward_declarations_appends A2) as [A1 E1].
  split; [done|]. intros o. by rewrite E1, E2, E3, E4, E5, E6.
Qed.

End Passes.

Section Advice.
Context {E : Env} {D : AdviceEnv}.

Lemma advice_of_forward_declarations o :
  advice_of _suggest_forward_declarations o
  = map (λ header, forward_declaration_suggestion header
                     (count_get (dependency_count (base o)) header))
      (map fst
         (List.filter
            (λ hc, (5 <? Z.of_nat (snd hc))%Z && suffix_in checked_header_suffixes (fst hc))
            (dict_items (dependency_count (base o))))).
Proof. unfold advice_of, exec. by rewrite suggest_forward_declarations_run. Qed.

Lemma advice_of_pimpl_pattern o :
  advice_of _suggest_pimpl_pattern o
  = map pimpl_suggestion
      (map fst
         (List.filter
            (λ fs, (15000 <? Z.of_nat (snd fs))%Z && suffix_in checked_header_suffixes (fst fs))
            (dict_items (file_sizes (base o))))).
Proof. unfold advice_of, exec. by rewrite suggest_pimpl_pattern_run. Qed.

Lemma advice_of_unified_headers o :
  advice_of _suggest_unified_headers o
  = flat_map
      (λ header,
         match open_ignore header with
         | None => []
         | Some content =>
             if (5 <? forward_declaration_count content)%nat
                && (Regex.count_include_lines content <? 3)%nat
             then [unified_header_suggestion header] else []
         end)
      (List.filter (suffix_in checked_header_suffixes) (files (base o))).
Proof. unfold advice_of, exec. by rewrite suggest_unified_headers_run. Qed.

Lemma advice_of_code_restructuring o :
  advice_of _suggest_code_restructuring o
  = map (λ ft, code_restructuring_suggestion (fst ft) (snd ft))
      (take 5
         (sorted_by_time
            (List.filter (λ ft, PrimFloat.ltb 1.0 (snd ft))
               (build_times_estimate (base o))))).
Proof. unfold advice_of, exec. by rewrite suggest_code_restructuring_run. Qed.

Lemma advice_of_caching_strategies o :
  advice_of _suggest_caching_strategies o
  = if cache_compilation (optimization_config o)
    then [ {| suggestion_type := CACHING_STRATEGY; suggestion_target := "PROJECT";
              suggestion_priority := MEDIUM;
              suggestion_advice := AdviceDistributedCache |} ]
    else [].
Proof. unfold advice_of, exec. by rewrite suggest_caching_strategies_run. Qed.

Lemma advice_of_build_optimizations o :
  advice_of _suggest_build_optimizations o
  = [ {| suggestion_type := BUILD_OPTIMIZATION; suggestion_target := "PROJECT";
         suggestion_priority := HIGH;
         suggestion_advice :=
           AdviceParallelBuild (build_system_value (build_system o))
             (_get_parallel_build_command (build_system o)) |} ]
    ++ (if cache_compilation (optimization_config o)
        then [ {| suggestion_type := BUILD_OPTIMIZATION; suggestion_target := "PROJECT";
                  suggestion_priority := MEDIUM;
                  suggestion_advice := AdviceCompilationCache |} ]
        else [])
    ++ (if unity_build (optimization_config o)
        then [ {| suggestion_type := BUILD_OPTIMIZATION; suggestion_target := "PROJECT";
                  suggestion_priority := MEDIUM;
                  suggestion_advice := AdviceUnityBuild |} ]
        else []).
Proof.
  unfold advice_of, exec, _suggest_build_optimizations, st_bind, st_get,
    extend_suggestions, st_modify.
  cbn [snd suggestions set_suggestions optimization_config build_system app].
  by destruct (cache_compilation _), (unity_build _).
Qed.

Lemma advice_of_compiler_specific o :
  advice_of _suggest_compiler_specific_optimizations o = compiler_suggestions (compiler o).
Proof. reflexivity. Qed.

Lemma sorted_by_time_perm l : sorted_by_time l ≡ₚ l.
Proof.
  assert (∀ x l, insert_by_time x l ≡ₚ x :: l) as Hins.
  { intros x l'. induction l' as [|y l' IH]; [done|]. simpl.
    destruct (PrimFloat.ltb _ _); [|done]. rewrite IH. apply perm_swap. }
  induction l as [|x l IH]; [done|]. simpl. by rewrite Hins, IH.
Qed.

(** X16. [generate_suggestions] never raises and only appends to the list
    of suggestions, leaving every other field of the object; what it
    appends comes by kind in a fixed order: forward declarations (High),
    PIMPL (Medium), unified headers (Low), one to three build
    optimizations for the project, the table of the compiler, at most five
    code restructurings (Medium), and at most one caching strategy. *)
Theorem suggestions_are_appended_by_kind (o : Advisor) :
  let new := advice_of generate_suggestions o in
  generate_suggestions o = (Returns tt, set_suggestions (suggestions o ++ new) o)
  ∧ ∃ F P U B R K,
      new = F ++ P ++ U ++ B ++ compiler_suggestions (compiler o) ++ R ++ K
      ∧ Forall (λ s, suggestion_type s = FORWARD_DECLARATION
                     ∧ suggestion_priority s = HIGH) F
      ∧ Forall (λ s, suggestion_type s = PIMPL_PATTERN
                     ∧ suggestion_priority s = MEDIUM) P
      ∧ Forall (λ s, suggestion_type s = UNIFIED_HEADER
                     ∧ suggestion_priority s = LOW) U
      ∧ Forall (λ s, suggestion_type s = BUILD_OPTIMIZATION
                     ∧ suggestion_target s = "PROJECT") B
      ∧ Forall (λ s, suggestion_type s = CODE_RESTRUCTURING
                     ∧ suggestion_priority s = MEDIUM) R
      ∧ Forall (λ s, suggestion_type s = CACHING_STRATEGY
                     ∧ suggestion_target s = "PROJECT") K
      ∧ 1 ≤ length B ≤ 3 ∧ length R ≤ 5 ∧ length K ≤ 1.
Proof.
  intros new. destruct generate_suggestions_appends as [Happ Hadv].
  split; [apply Happ|]. subst new. rewrite Hadv.
  exists (advice_of _suggest_forward_declarations o), (advice_of _suggest_pimpl_pattern o),
    (advice_of _suggest_unified_headers o), (advice_of _suggest_build_optimizations o),
    (advice_of _suggest_code_restructuring o), (advice_of _suggest_caching_strategies o).
  split; [done|].
  rewrite advice_of_forward_declarations, advice_of_pimpl_pattern, advice_of_unified_headers,
    advice_of_build_optimizations, advice_of_code_restructuring, advice_of_caching_strategies.
  repeat split.
  - apply Forall_forall. intros s Hs. apply list_elem_of_fmap in Hs as (h & -> & _). done.
  - apply Forall_forall. intros s Hs. apply list_elem_of_fmap in Hs as (h & -> & _). done.
  - apply Forall_forall. intros s Hs.
    apply list_elem_of_In, in_flat_map in Hs as (h & _ & Hs).
    destruct (open_ignore h) as [content|]; [|done].
    destruct (_ && _); [|done]. by destruct Hs as [<-|[]].
  - destruct (cache_compilation _), (unity_build _); repeat constructor.
  - apply Forall_forall. intros s Hs. apply list_elem_of_fmap in Hs as (h & -> & _). done.
  - destruct (cache_compilation _); repeat constructor.
  - destruct (cache_compilation _), (unity_build _); simpl; lia.
  - destruct (cache_compilation _), (unity_build _); simpl; lia.
  - rewrite length_map, length_take. lia.
  - destruct (cache_compilation _); simpl; lia.
Qed.

End Advice.

Lemma NoDup_filter_keys {V} (p : Path * V → bool) (l : list (Path * V)) :
  NoDup (map fst l) → NoDup (map fst (List.filter p l)).
Proof.
  induction l as [|[k v] l IH]; [done|]. cbn [map List.filter fst].
  intros [Hk Hl]%NoDup_cons. destruct (p (k, v)); [|by apply IH].
  cbn [map fst]. apply NoDup_cons. split; [|by apply IH].
  intros Hin. apply Hk. apply list_elem_of_fmap in Hin as ([k' v'] & -> & Hin).
  apply list_elem_of_In, List.filter_In in Hin as [Hin _].
  apply list_elem_of_fmap. exists (k', v'). by rewrite list_elem_of_In.
Qed.

(** The keys that a comprehension over [d.items()] selects. *)
Lemma selected_keys {D : AdviceEnv} {V} (m : gmap Path V) (p : Path * V → bool) :
  dict_items m ≡ₚ map_to_list m →
  NoDup (map fst (List.filter p (dict_items m)))
  ∧ ∀ h, h ∈ map fst (List.filter p (dict_items m))
         ↔ ∃ v, m !! h = Some v ∧ p (h, v) = true.
Proof.
  intros Hperm. split.
  - apply NoDup_filter_keys.
    assert (map fst (dict_items m) ≡ₚ map fst (map_to_list m)) as ->
      by by apply Permutation_map.
    apply NoDup_fst_map_to_list.
  - intros h. rewrite list_elem_of_fmap. split.
    + intros ([k v] & -> & Hin).
      apply list_elem_of_In, List.filter_In in Hin as [Hin Hp].
      apply list_elem_of_In in Hin. rewrite Hperm in Hin.
      apply elem_of_map_to_list in Hin. by exists v.
    + intros (v & Hm & Hp). exists (h, v). split; [done|].
      apply list_elem_of_In, List.filter_In. split; [|done].
      apply list_elem_of_In. rewrite Hperm. by apply elem_of_map_to_list.
Qed.

(** X17. If the items of a dictionary are listed each once,
    [_suggest_forward_declarations] appends one suggestion, of priority High
    and carrying the count, for each path whose reverse count is strictly
    greater than 5 and whose suffix is .h, .hpp or .hh, and nothing else: a
    count of 5, or a header with another suffix, gets none. *)
Theorem forward_declaration_iff_count_above_five {E : Env} {D : AdviceEnv}
    (o : Advisor)
    (Hitems : ∀ m : gmap Path nat, dict_items m ≡ₚ map_to_list m) :
  let count := count_get (dependency_count (base o)) in
  let new := advice_of _suggest_forward_declarations o in
  _suggest_forward_declarations o
  = (Returns tt, set_suggestions (suggestions o ++ new) o)
  ∧ NoDup (map suggestion_target new)
  ∧ (∀ s, s ∈ new ↔ ∃ h, 5 < count h
                         ∧ suffix_in checked_header_suffixes h = true
                         ∧ s = forward_declaration_suggestion h (count h)).
Proof.
  intros count new. split; [apply suggest_forward_declarations_appends|].
  subst new. rewrite advice_of_forward_declarations. fold count.
  set (p := λ hc : Path * nat,
              (5 <? Z.of_nat (snd hc))%Z && suffix_in checked_header_suffixes (fst hc)).
  destruct (selected_keys (dependency_count (base o)) p (Hitems _)) as [Hnd Hkeys].
  split.
  - rewrite map_map. cbn [forward_declaration_suggestion suggestion_target].
    by rewrite map_id.
  - intros s. rewrite list_elem_of_fmap. split.
    + intros (h & -> & Hh). apply Hkeys in Hh as (n & Hn & Hp).
      exists h. unfold p in Hp. cbn [fst snd] in Hp.
      apply andb_true_iff in Hp as [Hc Hs]. apply Z.ltb_lt in Hc.
      assert (count h = n) as Hcount by (unfold count, count_get; by rewrite Hn).
      split; [lia|]. done.
    + intros (h & Hc & Hs & ->). exists h. split; [done|]. apply Hkeys.
      unfold count, count_get in Hc.
      destruct (dependency_count (base o) !! h) as [n|] eqn:Hn; simpl in Hc; [|lia].
      exists n. split; [done|]. unfold p. cbn [fst snd].
      apply andb_true_iff. split; [apply Z.ltb_lt; lia|done].
Qed.

Lemma forward_declaration_iff_count_above_five_witness :
  let E := Toy.env Projects.small Toy.ascending in
  let D := toy_advice_env (λ _, 0) in
  let o := advisor_of
             (set_dependency_count
                (<["/proj/used.h" := 6]> (<["/proj/main.cpp" := 9]> (<["/proj/unused.h" := 5]> ∅)))
                (new_analyzer [] default_analysis_config)) in
  let count := count_get (dependency_count (base o)) in
  let new := advice_of _suggest_forward_declarations o in
  _suggest_forward_declarations o
  = (Returns tt, set_suggestions (suggestions o ++ new) o)
  ∧ NoDup (map suggestion_target new)
  ∧ (∀ s, s ∈ new ↔ ∃ h, 5 < count h
                         ∧ suffix_in checked_header_suffixes h = true
                         ∧ s = forward_declaration_suggestion h (count h)).
Proof.
  apply (forward_declaration_iff_count_above_five
           (E := Toy.env Projects.small Toy.ascending) (D := toy_advice_env (λ _, 0))).
  intros m. reflexivity.
Defined.

(** X18. If the items of a dictionary are listed each once,
    [_suggest_pimpl_pattern] appends one suggestion of priority Medium for
    each file whose recorded size is strictly greater than 15000 and whose
    suffix is .h, .hpp or .hh, and nothing else: the bound is the fixed
    15000, whatever [max_header_size] is. *)
Theorem pimpl_iff_header_above_15000 {E : Env} {D : AdviceEnv}
    (o : Advisor)
    (Hitems : ∀ m : gmap Path nat, dict_items m ≡ₚ map_to_list m) :
  let new := advice_of _suggest_pimpl_pattern o in
  _suggest_pimpl_pattern o = (Returns tt, set_suggestions (suggestions o ++ new) o)
  ∧ NoDup (map suggestion_target new)
  ∧ (∀ s, s ∈ new ↔ ∃ h size, file_sizes (base o) !! h = Some size
                              ∧ (15000 < Z.of_nat size)%Z
                              ∧ suffix_in checked_header_suffixes h = true
                              ∧ s = pimpl_suggestion h).
Proof.
  intros new. split; [apply suggest_pimpl_pattern_appends|].
  subst new. rewrite advice_of_pimpl_pattern.
  set (p := λ fs : Path * nat,
              (15000 <? Z.of_nat (snd fs))%Z && suffix_in checked_header_suffixes (fst fs)).
  destruct (selected_keys (file_sizes (base o)) p (Hitems _)) as [Hnd Hkeys].
  split.
  - rewrite map_map. cbn [pimpl_suggestion suggestion_target]. by rewrite map_id.
  - intros s. rewrite list_elem_of_fmap. split.
    + intros (h & -> & Hh). apply Hkeys in Hh as (n & Hn & Hp).
      exists h, n. unfold p in Hp. cbn [fst snd] in Hp.
      apply andb_true_iff in Hp as [Hc Hs]. apply Z.ltb_lt in Hc. done.
    + intros (h & n & Hn & Hc & Hs & ->). exists h. split; [done|]. apply Hkeys.
      exists n. split; [done|]. unfold p. cbn [fst snd].
      apply andb_true_iff. split; [by apply Z.ltb_lt|done].
Qed.

Lemma pimpl_iff_header_above_15000_witness :
  let E := Toy.env Projects.small Toy.ascending in
  let D := toy_advice_env (λ _, 0) in
  let o := advisor_of
             (set_file_sizes
                (<["/proj/used.h" := Z.to_nat 15001]> (<["/proj/main.cpp" := Z.to_nat 20000]> ∅))
                (new_analyzer [] default_analysis_config)) in
  let new := advice_of _suggest_pimpl_pattern o in
  _suggest_pimpl_pattern o = (Returns tt, set_suggestions (suggestions o ++ new) o)
  ∧ NoDup (map suggestion_target new)
  ∧ (∀ s, s ∈ new ↔ ∃ h size, file_sizes (base o) !! h = Some size
                              ∧ (15000 < Z.of_nat size)%Z
                              ∧ suffix_in checked_header_suffixes h = true
                              ∧ s = pimpl_suggestion h).
Proof.
  apply (pimpl_iff_header_above_15000
           (E := Toy.env Projects.small Toy.ascending) (D := toy_advice_env (λ _, 0))).
  intros m. reflexivity.
Defined.

(** X19. [_suggest_unified_headers] appends a suggestion of priority Low for
    a file exactly when the file is in the catalog, its suffix is .h, .hpp
    or .hh, it can be read, its text has more than 5 forward declarations
    and fewer than 3 include lines; a header that cannot be read is skipped
    without an exception, and nothing else is appended. *)
Theorem unified_header_iff_mostly_forward_declarations {E : Env} {D : AdviceEnv}
    (o : Advisor) :
  let new := advice_of _suggest_unified_headers o in
  _suggest_unified_headers o = (Returns tt, set_suggestions (suggestions o ++ new) o)
  ∧ (∀ s, s ∈ new ↔
          ∃ h content, h ∈ files (base o)
                       ∧ suffix_in checked_header_suffixes h = true
                       ∧ open_ignore h = Some content
                       ∧ 5 < forward_declaration_count content
                       ∧ Regex.count_include_lines content < 3
                       ∧ s = unified_header_suggestion h).
Proof.
  intros new. split; [apply suggest_unified_headers_appends|].
  subst new. rewrite advice_of_unified_headers.
  intros s. rewrite list_elem_of_In, in_flat_map. split.
  - intros (h & [Hh Hs]%List.filter_In & Hin).
    destruct (open_ignore h) as [content|] eqn:Hopen; [|done].
    destruct (_ && _) eqn:Hc; [|done]. destruct Hin as [<-|[]].
    apply andb_true_iff in Hc as [Hf Hi].
    apply Nat.ltb_lt in Hf. apply Nat.ltb_lt in Hi.
    exists h, content. by rewrite list_elem_of_In.
  - intros (h & content & Hh & Hs & Hopen & Hf & Hi & ->). exists h. split.
    + apply List.filter_In. by rewrite <- list_elem_of_In.
    + rewrite Hopen. apply Nat.ltb_lt in Hf. apply Nat.ltb_lt in Hi.
      rewrite Hf, Hi. by left.
Qed.

Lemma suggestions_of_type_app t l1 l2 :
  suggestions_of_type t (l1 ++ l2) = suggestions_of_type t l1 ++ suggestions_of_type t l2.
Proof. apply List.filter_app. Qed.

Lemma suggestions_of_type_other t t' l :
  Forall (λ s, suggestion_type s = t') l → t' ≠ t → suggestions_of_type t l = [].
Proof.
  intros Hall Hne. induction Hall as [|s l Hs _ IH]; [done|].
  unfold suggestions_of_type in *. cbn [List.filter].
  rewrite bool_decide_eq_false_2 by congruence. done.
Qed.

Lemma suggestions_of_type_same t l :
  Forall (λ s, suggestion_type s = t) l → suggestions_of_type t l = l.
Proof.
  intros Hall. induction Hall as [|s l Hs _ IH]; [done|].
  unfold suggestions_of_type in *. cbn [List.filter].
  rewrite bool_decide_eq_true_2 by done. by rewrite IH.
Qed.

Lemma advice_kinds {E : Env} {D : AdviceEnv} (o : Advisor) :
  Forall (λ s, suggestion_type s = FORWARD_DECLARATION)
    (advice_of _suggest_forward_declarations o)
  ∧ Forall (λ s, suggestion_type s = PIMPL_PATTERN) (advice_of _suggest_pimpl_pattern o)
  ∧ Forall (λ s, suggestion_type s = UNIFIED_HEADER) (advice_of _suggest_unified_headers o)
  ∧ Forall (λ s, suggestion_type s = BUILD_OPTIMIZATION)
      (advice_of _suggest_build_optimizations o)
  ∧ Forall (λ s, suggestion_type s = COMPILER_OPTIMIZATION)
      (advice_of _suggest_compiler_specific_optimizations o)
  ∧ Forall (λ s, suggestion_type s = CODE_RESTRUCTURING)
      (advice_of _suggest_code_restructuring o)
  ∧ Forall (λ s, suggestion_type s = CACHING_STRATEGY)
      (advice_of _suggest_caching_strategies o).
Proof.
  rewrite advice_of_forward_declarations, advice_of_pimpl_pattern, advice_of_unified_headers,
    advice_of_build_optimizations, advice_of_code_restructuring, advice_of_caching_strategies,
    advice_of_compiler_specific.
  repeat split.
  - apply Forall_forall. intros s Hs. apply list_elem_of_fmap in Hs as (h & -> & _). done.
  - apply Forall_forall. intros s Hs. apply list_elem_of_fmap in Hs as (h & -> & _). done.
  - apply Forall_forall. intros s Hs.
    apply list_elem_of_In, in_flat_map in Hs as (h & _ & Hs).
    destruct (open_ignore h) as [content|]; [|done].
    destruct (_ && _); [|done]. by destruct Hs as [<-|[]].
  - destruct (cache_compilation _), (unity_build _); repeat constructor.
  - destruct (compiler o); repeat constructor.
  - apply Forall_forall. intros s Hs. apply list_elem_of_fmap in Hs as (h & -> & _). done.
  - destruct (cache_compilation _); repeat constructor.
Qed.

(** X20. The advice that does not depend on the project: whatever the
    analysis found, [generate_suggestions] appends the parallel build of the
    build system, the table of the compiler, the compilation cache and the
    distributed cache when [cache_compilation] is set and the unity build
    when [unity_build] is set.  No other field of the optimization
    configuration is read: two configurations that agree on these two
    flags give the same suggestions. *)
Theorem advice_reads_two_flags_only {E : Env} {D : AdviceEnv}
    (o : Advisor) (opt : OptimizationConfig)
    (Hcache : cache_compilation opt = cache_compilation (optimization_config o))
    (Hunity : unity_build opt = unity_build (optimization_config o)) :
  let new := advice_of generate_suggestions o in
  advice_of generate_suggestions (set_optimization_config opt o) = new
  ∧ map suggestion_advice (suggestions_of_type BUILD_OPTIMIZATION new)
    = [AdviceParallelBuild (build_system_value (build_system o))
         (_get_parallel_build_command (build_system o))]
      ++ (if cache_compilation opt then [AdviceCompilationCache] else [])
      ++ (if unity_build opt then [AdviceUnityBuild] else [])
  ∧ suggestions_of_type COMPILER_OPTIMIZATION new = compiler_suggestions (compiler o)
  ∧ map suggestion_advice (suggestions_of_type CACHING_STRATEGY new)
    = (if cache_compilation opt then [AdviceDistributedCache] else []).
Proof.
  intros new. subst new. destruct generate_suggestions_appends as [_ Hadv].
  rewrite !Hadv.
  destruct (advice_kinds o) as (KF & KP & KU & KB & KC & KR & KK).
  split; [|split; [|split]].
  - rewrite !advice_of_forward_declarations, !advice_of_pimpl_pattern,
      !advice_of_unified_headers, !advice_of_build_optimizations,
      !advice_of_code_restructuring, !advice_of_caching_strategies,
      !advice_of_compiler_specific.
    cbn [base compiler build_system optimization_config set_optimization_config].
    by rewrite Hcache, Hunity.
  - rewrite !suggestions_of_type_app.
    rewrite (suggestions_of_type_other _ _ _ KF), (suggestions_of_type_other _ _ _ KP),
      (suggestions_of_type_other _ _ _ KU), (suggestions_of_type_same _ _ KB),
      (suggestions_of_type_other _ _ _ KC), (suggestions_of_type_other _ _ _ KR),
      (suggestions_of_type_other _ _ _ KK) by done.
    rewrite advice_of_build_optimizations, Hcache, Hunity, !app_nil_r.
    by destruct (cache_compilation (optimization_config o)),
      (unity_build (optimization_config o)).
  - rewrite !suggestions_of_type_app.
    rewrite (suggestions_of_type_other _ _ _ KF), (suggestions_of_type_other _ _ _ KP),
      (suggestions_of_type_other _ _ _ KU), (suggestions_of_type_other _ _ _ KB),
      (suggestions_of_type_same _ _ KC), (suggestions_of_type_other _ _ _ KR),
      (suggestions_of_type_other _ _ _ KK) by done.
    by rewrite app_nil_r.
  - rewrite !suggestions_of_type_app.
    rewrite (suggestions_of_type_other _ _ _ KF), (suggestions_of_type_other _ _ _ KP),
      (suggestions_of_type_other _ _ _ KU), (suggestions_of_type_other _ _ _ KB),
      (suggestions_of_type_other _ _ _ KC), (suggestions_of_type_other _ _ _ KR),
      (suggestions_of_type_same _ _ KK) by done.
    rewrite advice_of_caching_strategies, Hcache. simpl.
    by destruct (cache_compilation (optimization_config o)).
Qed.

Lemma advice_reads_two_flags_only_witness :
  let E := Toy.env Projects.small Toy.ascending in
  let D := toy_advice_env (λ _, 0) in
  let o := new_advisor CLANG NINJA [] default_analysis_config default_optimization_config in
  let opt := {| generate_pch := true; compile_pch := true; pch_name := "all.h";
                enable_lto := false; enable_ipo := false; enable_pgo := true;
                unity_build := false; cache_compilation := true;
                parallel_build := false |} in
  let new := advice_of generate_suggestions o in
  advice_of generate_suggestions (set_optimization_config opt o) = new
  ∧ map suggestion_advice (suggestions_of_type BUILD_OPTIMIZATION new)
    = [AdviceParallelBuild (build_system_value (build_system o))
         (_get_parallel_build_command (build_system o))]
      ++ (if cache_compilation opt then [AdviceCompilationCache] else [])
      ++ (if unity_build opt then [AdviceUnityBuild] else [])
  ∧ suggestions_of_type COMPILER_OPTIMIZATION new = compiler_suggestions (compiler o)
  ∧ map suggestion_advice (suggestions_of_type CACHING_STRATEGY new)
    = (if cache_compilation opt then [AdviceDistributedCache] else []).
Proof.
  apply (advice_reads_two_flags_only
           (E := Toy.env Projects.small Toy.ascending) (D := toy_advice_env (λ _, 0)));
    reflexivity.
Defined.

Section FullRun.
Context {E : Env} {D : AdviceEnv}.

Lemma on_base_run {A} (m : M A) (o : Advisor) :
  on_base m o = (fst (m (base o)), set_base (snd (m (base o))) o).
Proof. unfold on_base. by destruct (m (base o)). Qed.

Lemma on_base_returns (m : M unit) (o : Advisor) :
  fst (m (base o)) = Returns tt →
  on_base m o = (Returns tt, set_base (exec m (base o)) o).
Proof. intros Hr. rewrite on_base_run. by rewrite Hr. Qed.

(** The passes of the whole object after cycle detection. *)
Lemma later_passes_with_suggestions cfg (o : Advisor) :
  let a3 := if enable_unused_header_check cfg
            then exec _detect_unused_headers (base o) else base o in
  let new := advice_of generate_suggestions (set_base a3 o) in
  (on_base (if enable_unused_header_check cfg
            then _detect_unused_headers else st_ret tt) ;;;
   generate_suggestions ;;;
   on_base _estimate_build_times ;;;
   o' <- st_get ;;
   st_ret (_get_analysis_summary (base o'), length (suggestions o'))) o
  = (Returns (_get_analysis_summary (later_passes cfg (base o)),
              length (suggestions o ++ new)),
     set_base (later_passes cfg (base o)) (set_suggestions (suggestions o ++ new) o)).
Proof.
  intros a3 new. destruct generate_suggestions_appends as [Happ _].
  unfold st_bind at 1.
  assert (on_base (if enable_unused_header_check cfg
                   then _detect_unused_headers else st_ret tt) o
          = (Returns tt, set_base a3 o)) as ->.
  { subst a3. destruct (enable_unused_header_check cfg).
    - apply on_base_returns, detect_unused_headers_returns.
    - by destruct o. }
  unfold st_bind at 1. rewrite Happ. fold new.
  unfold st_bind at 1. rewrite on_base_returns by apply estimate_build_times_returns.
  unfold st_bind, st_get, st_ret. cbn [base set_base set_suggestions suggestions].
  unfold later_passes. fold a3. done.
Qed.

Lemma analyze_project_with_suggestions_eq c b ignore cfg opt :
  let o0 := new_advisor c b ignore cfg opt in
  let a1 := analyzed ignore cfg in
  let finish (a2 : Analyzer) :=
    let a3 := if enable_unused_header_check cfg
              then exec _detect_unused_headers a2 else a2 in
    let new := advice_of generate_suggestions (set_base a3 o0) in
    (Returns (_get_analysis_summary (later_passes cfg a2), length new),
     set_base (later_passes cfg a2) (set_suggestions new o0)) in
  analyze_project_with_suggestions o0
  = if enable_circular_dep_check cfg then
      match fst (_detect_circular_dependencies a1) with
      | Returns _ => finish (exec _detect_circular_dependencies a1)
      | Raises => (Raises, set_base (exec _detect_circular_dependencies a1) o0)
      end
    else finish a1.
Proof.
  intros o0 a1 finish. unfold analyze_project_with_suggestions.
  unfold st_bind at 1. rewrite on_base_run. rewrite discover_files_eq. cbn [fst snd].
  unfold st_bind at 1, st_get. cbn [base set_base analysis_config set_files new_analyzer o0
    new_advisor].
  assert ((if parallel_analysis cfg then _parallel_analyze_files
           else _sequential_analyze_files) = _sequential_analyze_files) as ->
    by by destruct (parallel_analysis cfg).
  unfold st_bind at 1.
  rewrite on_base_returns by apply sequential_analysis_fold.
  cbn [base set_base].
  assert (exec _sequential_analyze_files
            (set_files (PathOps.sorted (glob_hits (ignore_patterns (new_analyzer ignore cfg))))
               (new_analyzer ignore cfg)) = a1) as ->.
  { subst a1. unfold analyzed. by erewrite exec_bind_returns_value by reflexivity. }
  destruct (enable_circular_dep_check cfg).
  - unfold st_bind at 1. rewrite on_base_run. cbn [base set_base]. unfold exec.
    destruct (_detect_circular_dependencies a1) as [[[]|] a2]; cbn [fst snd]; [|done].
    rewrite later_passes_with_suggestions. done.
  - unfold st_bind at 1. unfold on_base at 1, st_ret at 1. cbn [base set_base].
    rewrite later_passes_with_suggestions. done.
Qed.

End FullRun.

Lemma detect_unused_headers_estimates {E : Env} a :
  build_times_estimate (exec _detect_unused_headers a) = build_times_estimate a.
Proof. rewrite detect_unused_headers_exec. by destruct a. Qed.

Lemma detect_circular_dependencies_estimates {E : Env} a :
  build_times_estimate (exec _detect_circular_dependencies a) = build_times_estimate a.
Proof.
  unfold exec. rewrite detect_circular_dependencies_eq.
  destruct (fst (traversal a)) as [[]|]; by destruct a.
Qed.

Lemma later_passes_without_estimates {E : Env} cfg a :
  build_times_estimate a = [] →
  set_build_times_estimate [] (later_passes cfg a)
  = (if enable_unused_header_check cfg then exec _detect_unused_headers a else a).
Proof.
  intros Hbt. unfold later_passes. rewrite estimate_build_times_fold.
  set (a3 := if enable_unused_header_check cfg then _ else _).
  assert (build_times_estimate a3 = []) as Hbt3.
  { subst a3. destruct (enable_unused_header_check cfg); [|done].
    by rewrite detect_unused_headers_estimates. }
  destruct a3; simpl in *. by subst.
Qed.

Lemma no_estimate_no_restructuring {E : Env} {D : AdviceEnv} (o : Advisor) :
  build_times_estimate (base o) = [] →
  suggestions_of_type CODE_RESTRUCTURING (advice_of generate_suggestions o) = [].
Proof.
  intros Hbt. destruct generate_suggestions_appends as [_ Hadv]. rewrite Hadv.
  destruct (advice_kinds o) as (KF & KP & KU & KB & KC & KR & KK).
  rewrite !suggestions_of_type_app.
  rewrite (suggestions_of_type_other _ _ _ KF), (suggestions_of_type_other _ _ _ KP),
    (suggestions_of_type_other _ _ _ KU), (suggestions_of_type_other _ _ _ KB),
    (suggestions_of_type_other _ _ _ KC), (suggestions_of_type_same _ _ KR),
    (suggestions_of_type_other _ _ _ KK) by done.
  rewrite advice_of_code_restructuring, Hbt. done.
Qed.

(** X21. On a fresh object [analyze_project] generates the suggestions
    before it estimates the build times.  So the analysis fields and the
    outcome are those of the analysis alone, the suggestions are the ones
    that [generate_suggestions] gives with an empty table of estimates, and
    no code restructuring is ever suggested, however long the estimated
    times are; a run that raises leaves no suggestion at all. *)
Theorem fresh_run_suggests_before_estimating {E : Env} {D : AdviceEnv}
    (c : Compiler) (b : BuildSystem) (ignore : list string)
    (cfg : AnalysisConfig) (opt : OptimizationConfig) :
  let run := analyze_project_with_suggestions (new_advisor c b ignore cfg opt) in
  let core := analyze_project (new_analyzer ignore cfg) in
  base (snd run) = snd core
  ∧ fst run = match fst core with
              | Returns s => Returns (s, length (suggestions (snd run)))
              | Raises => Raises
              end
  ∧ suggestions_of_type CODE_RESTRUCTURING (suggestions (snd run)) = []
  ∧ (fst core = Raises → suggestions (snd run) = [])
  ∧ (fst core ≠ Raises →
     suggestions (snd run)
     = advice_of generate_suggestions
         (set_base (set_build_times_estimate [] (base (snd run))) (snd run))).
Proof.
  intros run core. subst run core.
  rewrite analyze_project_with_suggestions_eq, analyze_project_eq.
  destruct (analyzed_other ignore cfg) as (_ & _ & _ & _ & Hbt1).
  set (a1 := analyzed ignore cfg) in *. cbv zeta.
  assert (∀ a2, build_times_estimate a2 = [] →
            let a3 := if enable_unused_header_check cfg
                      then exec _detect_unused_headers a2 else a2 in
            let o0 := new_advisor c b ignore cfg opt in
            let new := advice_of generate_suggestions (set_base a3 o0) in
            suggestions_of_type CODE_RESTRUCTURING new = []
            ∧ new = advice_of generate_suggestions
                      (set_base (set_build_times_estimate [] (later_passes cfg a2))
                         (set_base (later_passes cfg a2) (set_suggestions new o0)))) as Hfinish.
  { intros a2 Hbt2 a3 o0 new. split.
    - apply no_estimate_no_restructuring. cbn [base set_base]. subst a3.
      destruct (enable_unused_header_check cfg); [|done].
      by rewrite detect_unused_headers_estimates.
    - rewrite later_passes_without_estimates by done. done. }
  destruct (enable_circular_dep_check cfg).
  - pose proof (detect_circular_dependencies_estimates a1) as Hbt2. rewrite Hbt1 in Hbt2.
    destruct (fst (_detect_circular_dependencies a1)) as [[]|].
    + destruct (Hfinish _ Hbt2) as [Hnone Hsame]. cbn [fst snd base set_base suggestions
        set_suggestions]. repeat split; [done|done|done].
    + cbn [fst snd base set_base suggestions new_advisor]. repeat split; done.
  - destruct (Hfinish _ Hbt1) as [Hnone Hsame]. cbn [fst snd base set_base suggestions
      set_suggestions]. repeat split; [done|done|done].
Qed.

(* ===================================================================== *)
(** ** Further properties: the slowest files                               *)
(* ===================================================================== *)

Lemma SFcompare_Lt f1 f2 :
  SFcompare f1 f2 = Some Lt
  ↔ f1 ≠ S754_nan ∧ f2 ≠ S754_nan ∧ key_lt (float_key f1) (float_key f2).
Proof.
  unfold key_lt.
  destruct f1 as [s1|s1| |s1 m1 e1], f2 as [s2|s2| |s2 m2 e2];
    try destruct s1; try destruct s2; cbn [SFcompare float_key fst snd];
    try change (PosDef.Pos.compare_cont Eq m1 m2) with (Pos.compare m1 m2);
    try destruct (Z.compare_spec e1 e2); try destruct (Pos.compare_spec m1 m2);
    cbn [CompOpp];
    (split;
     [intros Hc; try discriminate Hc; repeat split; first [done|lia]
     |intros (Hn1 & Hn2 & Hk); first [done|congruence|exfalso; lia]]).
Qed.

Lemma ltb_key x y :
  PrimFloat.ltb x y = true
  ↔ Prim2SF x ≠ S754_nan ∧ Prim2SF y ≠ S754_nan
    ∧ key_lt (float_key (Prim2SF x)) (float_key (Prim2SF y)).
Proof.
  rewrite FloatAxioms.ltb_spec. unfold SFltb. rewrite <- SFcompare_Lt.
  destruct (SFcompare _ _) as [[]|]; split; (done || intros [=]).
Qed.

Lemma ltb_asym x y : PrimFloat.ltb x y = true → PrimFloat.ltb y x = false.
Proof.
  intros (_ & _ & Hxy)%ltb_key. apply not_true_is_false.
  intros (_ & _ & Hyx)%ltb_key. unfold key_lt in *. lia.
Qed.

Lemma ltb_false_trans x y z :
  Prim2SF x ≠ S754_nan → Prim2SF y ≠ S754_nan → Prim2SF z ≠ S754_nan →
  PrimFloat.ltb x y = false → PrimFloat.ltb y z = false → PrimFloat.ltb x z = false.
Proof.
  intros Hx Hy Hz Hxy Hyz. apply not_true_is_false.
  intros (_ & _ & Hxz)%ltb_key.
  apply not_true_iff_false in Hxy, Hyz. rewrite ltb_key in Hxy, Hyz.
  assert (¬ key_lt (float_key (Prim2SF x)) (float_key (Prim2SF y))) as H1
    by (intros ?; by apply Hxy).
  assert (¬ key_lt (float_key (Prim2SF y)) (float_key (Prim2SF z))) as H2
    by (intros ?; by apply Hyz).
  unfold key_lt in *. lia.
Qed.

Lemma insert_by_time_perm x l : insert_by_time x l ≡ₚ x :: l.
Proof.
  induction l as [|y l IH]; [done|]. simpl.
  destruct (PrimFloat.ltb _ _); [|done]. rewrite IH. apply perm_swap.
Qed.

Lemma insert_by_time_sorted x l :
  Prim2SF (snd x) ≠ S754_nan →
  Forall (λ y, Prim2SF (snd y) ≠ S754_nan) l →
  StronglySorted not_faster l → StronglySorted not_faster (insert_by_time x l).
Proof.
  intros Hx Hl Hs. induction l as [|y l IH]; [repeat constructor|].
  apply Forall_cons in Hl as [Hy Hl].
  apply StronglySorted_cons in Hs as [Hyl Hs]. simpl.
  destruct (PrimFloat.ltb (snd x) (snd y)) eqn:Hxy.
  - apply StronglySorted_cons. split; [|by apply IH].
    rewrite insert_by_time_perm. apply Forall_cons. split; [|done].
    by apply ltb_asym.
  - apply StronglySorted_cons. split; [|by apply StronglySorted_cons].
    apply Forall_cons. split; [done|].
    rewrite Forall_forall in Hyl, Hl. apply Forall_forall. intros z Hz.
    apply (ltb_false_trans _ (snd y)); [done|done|by apply Hl|done|by apply Hyl].
Qed.

Lemma sorted_by_time_sorted l :
  Forall (λ y, Prim2SF (snd y) ≠ S754_nan) l → StronglySorted not_faster (sorted_by_time l).
Proof.
  induction 1 as [|x l Hx Hl IH]; [constructor|]. simpl.
  apply insert_by_time_sorted; [done| |done]. by rewrite sorted_by_time_perm.
Qed.

(** X22. [_suggest_code_restructuring] names the slowest files: of the
    entries of the table of estimates whose time is strictly greater than
    1.0 it takes at most five, in decreasing order of time, and no entry
    that it leaves out is slower than one that it takes; each gets one
    suggestion of priority Medium that carries the time. *)
Theorem code_restructuring_names_the_slowest_five {E : Env} {D : AdviceEnv}
    (o : Advisor) :
  let slow := List.filter (λ ft, PrimFloat.ltb 1.0 (snd ft))
                (build_times_estimate (base o)) in
  let new := advice_of _suggest_code_restructuring o in
  _suggest_code_restructuring o = (Returns tt, set_suggestions (suggestions o ++ new) o)
  ∧ ∃ chosen rest,
      new = map (λ ft, code_restructuring_suggestion (fst ft) (snd ft)) chosen
      ∧ chosen ++ rest ≡ₚ slow
      ∧ length chosen = min 5 (length slow)
      ∧ StronglySorted not_faster chosen
      ∧ (∀ x y, x ∈ chosen → y ∈ rest → not_faster x y).
Proof.
  intros slow new. split; [apply suggest_code_restructuring_appends|].
  subst new. rewrite advice_of_code_restructuring. fold slow.
  exists (take 5 (sorted_by_time slow)), (drop 5 (sorted_by_time slow)).
  assert (StronglySorted not_faster (sorted_by_time slow)) as Hs.
  { apply sorted_by_time_sorted. apply Forall_forall. intros [f t] Hin.
    apply list_elem_of_In, List.filter_In in Hin as [_ Ht]. cbn [snd] in *.
    by apply ltb_key in Ht as (_ & Ht & _). }
  rewrite <- (take_drop 5 (sorted_by_time slow)) in Hs.
  split; [done|]. split; [by rewrite take_drop, sorted_by_time_perm|].
  split; [by rewrite length_take, sorted_by_time_perm|].
  split; [by apply StronglySorted_app_1_l in Hs|].
  intros x y Hx Hy. by apply (StronglySorted_app_1_elem_of _ _ _ _ _ Hs).
Qed.

(** A source of 1500 lines is estimated above one second, yet the run that
    estimates it suggests no restructuring; generating the suggestions once
    more on the object that the run leaves does. *)
Example long_source_gets_no_restructuring :
  let E := Toy.env long_source_project Toy.ascending in
  let D := toy_advice_env (λ _, 0) in
  let o := exec analyze_project_with_suggestions
             (new_advisor GCC CMAKE [] Toy.config default_optimization_config) in
  (∃ t, build_times_estimate (base o) = [("/proj/big.cpp", t)]
        ∧ PrimFloat.ltb 1.0 t = true)
  ∧ suggestions_of_type CODE_RESTRUCTURING (suggestions o) = []
  ∧ length (suggestions_of_type CODE_RESTRUCTURING
              (suggestions (exec generate_suggestions o))) = 1.
Proof. vm_compute. split; [eexists; split; reflexivity|done]. Qed.

(* ===================================================================== *)
(** ** Further properties: the table of estimates                          *)
(* ===================================================================== *)

Lemma dict_get_set {V} (k k' : Path) (v : V) d :
  dict_get k' (dict_set k v d) = if String.eqb k' k then Some v else dict_get k' d.
Proof.
  induction d as [|[k0 v0] d IH]; simpl.
  - done.
  - destruct (String.eqb_spec k k0) as [->|Hne]; simpl.
    + by destruct (String.eqb_spec k' k0).
    + rewrite IH. destruct (String.eqb_spec k' k0) as [->|Hne'].
      * by destruct (String.eqb_spec k0 k) as [->|_].
      * done.
Qed.

Lemma dict_set_same {V} (k : Path) (v : V) d :
  dict_get k d = Some v → dict_set k v d = d.
Proof.
  induction d as [|[k0 v0] d IH]; simpl; [done|].
  destruct (String.eqb_spec k k0) as [->|Hne].
  - by intros [= ->].
  - intros Hget. by rewrite IH.
Qed.

Lemma dict_set_keys {V} (k : Path) (v : V) d :
  NoDup d.*1 → NoDup (dict_set k v d).*1.
Proof.
  destruct (decide (k ∈ d.*1)) as [Hin|Hout].
  - intros Hnd. assert ((dict_set k v d).*1 = d.*1) as ->; [|done].
    clear Hnd. induction d as [|[k0 v0] d IH]; simpl; [by apply elem_of_nil in Hin|].
    destruct (String.eqb_spec k k0) as [->|Hne]; [done|]. simpl. f_equal. apply IH.
    simpl in Hin. apply elem_of_cons in Hin as [?|?]; done.
  - intros Hnd. rewrite dict_set_fresh by done. rewrite fmap_app. simpl.
    apply NoDup_app. split; [done|]. split; [|apply NoDup_singleton].
    intros x Hx Hk. apply list_elem_of_singleton in Hk. by subst.
Qed.

Section EstimateTable.
Context {E : Env}.

Lemma estimate_fold_get a l d f :
  dict_get f (fold_left (estimate_step a) l d)
  = if bool_decide (f ∈ l) && suffix_in estimated_source_suffixes f
    then Some (file_estimate a f) else dict_get f d.
Proof.
  revert d. induction l as [|x l IH]; intros d; [done|].
  cbn [fold_left]. rewrite IH. unfold estimate_step.
  destruct (decide (f = x)) as [->|Hne].
  - rewrite (bool_decide_eq_true_2 (x ∈ x :: l)) by by left. cbn [andb].
    destruct (suffix_in estimated_source_suffixes x) eqn:Hs.
    + rewrite dict_get_set, String.eqb_refl. by destruct (bool_decide _).
    + by rewrite andb_false_r.
  - assert (bool_decide (f ∈ x :: l) = bool_decide (f ∈ l)) as ->.
    { apply bool_decide_ext. set_solver. }
    destruct (bool_decide (f ∈ l) && suffix_in estimated_source_suffixes f); [done|].
    destruct (suffix_in estimated_source_suffixes x); [|done].
    rewrite dict_get_set. by destruct (String.eqb_spec f x).
Qed.

Lemma estimate_fold_keys a l d :
  NoDup d.*1 → NoDup (fold_left (estimate_step a) l d).*1.
Proof.
  revert d. induction l as [|x l IH]; intros d Hd; [done|].
  cbn [fold_left]. apply IH. unfold estimate_step.
  destruct (suffix_in estimated_source_suffixes x); [by apply dict_set_keys|done].
Qed.

Lemma estimate_fold_fixed a l d :
  (∀ f, f ∈ l → suffix_in estimated_source_suffixes f = true →
        dict_get f d = Some (file_estimate a f)) →
  fold_left (estimate_step a) l d = d.
Proof.
  induction l as [|x l IH]; intros Hd; [done|].
  cbn [fold_left]. unfold estimate_step at 2.
  destruct (suffix_in estimated_source_suffixes x) eqn:Hs.
  - rewrite dict_set_same by (apply Hd; [by left|done]).
    apply IH. intros f Hf. apply Hd. by right.
  - apply IH. intros f Hf. apply Hd. by right.
Qed.

End EstimateTable.

(** X23. [_estimate_build_times] never raises and changes the table of
    estimates only: the entry of every source of the catalog (suffix .cpp,
    .cc or .cxx) is set to its estimate, every other entry, such as that of
    a file no longer in the catalog, is kept as it was, no key is repeated,
    and estimating once more changes nothing. *)
Theorem estimation_overwrites_and_repeats {E : Env} (a : Analyzer) :
  let a' := exec _estimate_build_times a in
  fst (_estimate_build_times a) = Returns tt
  ∧ a' = set_build_times_estimate (build_times_estimate a') a
  ∧ (∀ f, dict_get f (build_times_estimate a')
          = if bool_decide (f ∈ files a) && suffix_in estimated_source_suffixes f
            then Some (file_estimate a f)
            else dict_get f (build_times_estimate a))
  ∧ (NoDup (build_times_estimate a).*1 → NoDup (build_times_estimate a').*1)
  ∧ exec _estimate_build_times a' = a'.
Proof.
  intros a'. subst a'. split; [apply estimate_build_times_returns|].
  rewrite !estimate_build_times_fold.
  set (d' := fold_left (estimate_step a) (files a) (build_times_estimate a)).
  assert (build_times_estimate (set_build_times_estimate d' a) = d') as Hd by by destruct a.
  rewrite Hd. split; [by destruct a|]. split; [apply estimate_fold_get|].
  split; [apply estimate_fold_keys|].
  assert (files (set_build_times_estimate d' a) = files a) as -> by by destruct a.
  assert (estimate_step (set_build_times_estimate d' a) = estimate_step a) as ->
    by by destruct a.
  rewrite estimate_fold_fixed; [by destruct a|].
  intros f Hf Hs. subst d'. rewrite estimate_fold_get.
  by rewrite bool_decide_eq_true_2, Hs.
Qed.

(* ===================================================================== *)
(** ** Further properties: the precompiled header                          *)
(* ===================================================================== *)

Lemma pch_separate_eq (l : list (string * nat)) :
  pch_separate l
  = (List.filter (λ hc, looks_like_system (fst hc) && has_system_mark (fst hc)) l,
     List.filter (λ hc, negb (looks_like_system (fst hc))) l).
Proof.
  unfold pch_separate.
  assert (∀ s p,
    fold_left
      (λ lists hc,
         let '(system_headers, project_headers) := lists in
         if looks_like_system (fst hc) then
           if has_system_mark (fst hc)
           then (system_headers ++ [hc], project_headers)
           else (system_headers, project_headers)
         else (system_headers, project_headers ++ [hc]))
      l (s, p)
    = (s ++ List.filter (λ hc, looks_like_system (fst hc) && has_system_mark (fst hc)) l,
       p ++ List.filter (λ hc, negb (looks_like_system (fst hc))) l)) as Hgen.
  { induction l as [|hc l IH]; intros s p; cbn [fold_left List.filter].
    - by rewrite !app_nil_r.
    - destruct (looks_like_system (fst hc)), (has_system_mark (fst hc));
        cbn [andb negb]; rewrite IH, <- ?app_assoc; done. }
  apply (Hgen [] []).
Qed.

Lemma insert_by_count_perm x l : insert_by_count x l ≡ₚ x :: l.
Proof.
  induction l as [|y l IH]; [done|]. simpl.
  destruct (_ <? _)%nat; [|done]. rewrite IH. apply perm_swap.
Qed.

Lemma sorted_by_count_perm l : foldr insert_by_count [] l ≡ₚ l.
Proof. induction l as [|x l IH]; [done|]. simpl. by rewrite insert_by_count_perm, IH. Qed.

Lemma sorted_by_count_sorted l :
  StronglySorted (λ x y : string * nat, snd y ≤ snd x) (foldr insert_by_count [] l).
Proof.
  induction l as [|x l IH]; [constructor|]. simpl.
  generalize dependent (foldr insert_by_count [] l). clear l. intros l Hs.
  induction l as [|y l IH]; [repeat constructor|].
  apply StronglySorted_cons in Hs as [Hyl Hs]. simpl.
  destruct (Nat.ltb_spec (snd x) (snd y)) as [Hlt|Hge].
  - apply StronglySorted_cons. split; [|by apply IH].
    rewrite insert_by_count_perm. apply Forall_cons. split; [lia|done].
  - apply StronglySorted_cons. split; [|by apply StronglySorted_cons].
    apply Forall_cons. split; [done|].
    eapply Forall_impl; [exact Hyl|]. simpl. intros z Hz. lia.
Qed.

Lemma endswith_substring_in (t t' s : string) :
  Text.endswith t s = true → String.prefix t' t = true → substring_in t' s = true.
Proof.
  intros Hend Hpre. induction s as [|c s IH].
  - cbn [Text.endswith substring_in] in *. rewrite orb_false_r in *.
    apply String.eqb_eq in Hend. subst. by rewrite Hpre.
  - cbn [Text.endswith substring_in] in *. apply orb_true_iff in Hend as [Heq|Hend].
    + apply String.eqb_eq in Heq. subst. by rewrite Hpre.
    + rewrite (IH Hend). apply orb_true_r.
Qed.

Lemma startswith_substring_in (h : string) :
  Text.startswith "<" h = true → substring_in "<" h = true.
Proof.
  destruct h as [|c h]; [done|]. cbn [Text.startswith].
  intros Hc. apply Ascii.eqb_eq in Hc. subst.
  cbn [substring_in String.prefix]. destruct (ascii_dec _ _); [by destruct h|done].
Qed.

(** X24. The include lines of the precompiled header, if the items of a
    dictionary are listed each once.  The headers considered are at most
    [pch_max_headers] names of the frequency table, none of lower count
    than a name left out.  A name is written between angle brackets only if
    the name itself starts with [<]; a name that ends in .h or .hpp is
    written between quotes in the first block; a name without a slash and
    without such an ending, [vector] say, is written between quotes in the
    block of the project headers; and a name with a slash but without [<],
    [>] or [.h] in it is written nowhere. *)
Theorem pch_lines_follow_the_name {D : AdviceEnv} (a : Analyzer)
    (Hitems : ∀ m : gmap string nat, dict_items m ≡ₚ map_to_list m) :
  let common := most_common (pch_max_headers (analysis_config a))
                  (dict_items (header_frequency a)) in
  let lines := pch_include_lines a in
  (length common ≤ Z.to_nat (pch_max_headers (analysis_config a))
   ∧ NoDup common.*1
   ∧ (∀ h c, (h, c) ∈ common → header_frequency a !! h = Some c)
   ∧ (∀ h c h' c', (h, c) ∈ common → header_frequency a !! h' = Some c' →
                   (h', c') ∉ common → c' ≤ c))
  ∧ (∀ h c, SystemAngle h c ∈ lines ↔ (h, c) ∈ common ∧ Text.startswith "<" h = true)
  ∧ (∀ h c, (h, c) ∈ common → Text.startswith "<" h = false →
            Text.endswith ".h" h = true ∨ Text.endswith ".hpp" h = true →
            SystemQuoted h c ∈ lines)
  ∧ (∀ h c, (h, c) ∈ common → Text.startswith "<" h = false →
            Text.contains "/" h = false →
            Text.endswith ".h" h = false → Text.endswith ".hpp" h = false →
            ProjectQuoted h c ∈ lines)
  ∧ (∀ h c, (h, c) ∈ common → Text.contains "/" h = true →
            has_system_mark h = false →
            ∀ line, line ∈ lines → line_header line ≠ Some h).
Proof.
  intros common lines.
  set (sorted := foldr insert_by_count [] (dict_items (header_frequency a))).
  assert (sorted ≡ₚ map_to_list (header_frequency a)) as Hperm.
  { subst sorted. by rewrite sorted_by_count_perm, Hitems. }
  assert (take (Z.to_nat (pch_max_headers (analysis_config a))) sorted = common) as Htake
    by done.
  assert (NoDup sorted.*1) as Hnd.
  { rewrite Hperm. apply NoDup_fst_map_to_list. }
  assert (∀ hc, hc ∈ common → hc ∈ sorted) as Hsub.
  { intros hc Hin. rewrite <- Htake in Hin. by apply elem_of_take in Hin as (i & ? & ?);
      eapply list_elem_of_lookup_2. }
  assert (NoDup common.*1) as Hndc.
  { rewrite <- Htake, fmap_take. apply (sublist_NoDup _ _ Hnd), sublist_take. }
  assert (∀ h c, SystemAngle h c ∈ lines ∨ SystemQuoted h c ∈ lines
                 ↔ (h, c) ∈ common ∧ looks_like_system h = true
                   ∧ has_system_mark h = true) as Hsys.
  { intros h c. subst lines. unfold pch_include_lines. fold common.
    rewrite pch_separate_eq.
    set (S := List.filter _ common). set (P := List.filter _ common).
    assert (∀ l, l ∈ match P with
                     | [] => []
                     | _ => ProjectBanner :: map (λ hc, ProjectQuoted (fst hc) (snd hc)) P
                     end → l = ProjectBanner ∨ ∃ hc, l = ProjectQuoted (fst hc) (snd hc)) as HP.
    { intros l Hl. destruct P as [|p P]; [by apply elem_of_nil in Hl|].
      apply elem_of_cons in Hl as [->|Hl]; [by left|].
      apply list_elem_of_fmap in Hl as (hc & -> & _). right. by exists hc. }
    rewrite !elem_of_app, !list_elem_of_fmap. split.
    - intros [[([h' c'] & Heq & Hin)|Hl]|[([h' c'] & Heq & Hin)|Hl]];
        try (apply HP in Hl as [?|[? ?]]; done).
      + subst S. apply list_elem_of_In, List.filter_In in Hin as [Hin Hc].
        cbn [fst snd] in *. apply andb_true_iff in Hc as [? ?].
        destruct (Text.startswith "<" h'); [|done]. injection Heq as -> ->.
        by rewrite <- list_elem_of_In in Hin.
      + subst S. apply list_elem_of_In, List.filter_In in Hin as [Hin Hc].
        cbn [fst snd] in *. apply andb_true_iff in Hc as [? ?].
        destruct (Text.startswith "<" h'); [done|]. injection Heq as -> ->.
        by rewrite <- list_elem_of_In in Hin.
    - intros (Hin & Hl & Hm).
      assert ((h, c) ∈ S) as HS.
      { subst S. apply list_elem_of_In, List.filter_In. rewrite <- list_elem_of_In.
        cbn [fst]. by rewrite Hl, Hm. }
      destruct (Text.startswith "<" h) eqn:Hlt.
      + left. left. exists (h, c). cbn [fst snd]. by rewrite Hlt.
      + right. left. exists (h, c). cbn [fst snd]. by rewrite Hlt. }
  assert (∀ h c, SystemAngle h c ∈ lines → Text.startswith "<" h = true) as Hangle.
  { intros h c. subst lines. unfold pch_include_lines. fold common.
    rewrite pch_separate_eq.
    set (S := List.filter _ common). set (P := List.filter _ common).
    rewrite elem_of_app, list_elem_of_fmap.
    intros [([h' c'] & Heq & _)|Hl].
    - cbn [fst snd] in Heq. destruct (Text.startswith "<" h') eqn:Hlt; [|done].
      by injection Heq as -> ->.
    - destruct P as [|p P]; [by apply elem_of_nil in Hl|].
      apply elem_of_cons in Hl as [?|Hl]; [done|].
      by apply list_elem_of_fmap in Hl as (hc & ? & _). }
  assert (∀ h c, SystemQuoted h c ∈ lines → Text.startswith "<" h = false) as Hquoted.
  { intros h c. subst lines. unfold pch_include_lines. fold common.
    rewrite pch_separate_eq.
    set (S := List.filter _ common). set (P := List.filter _ common).
    rewrite elem_of_app, list_elem_of_fmap.
    intros [([h' c'] & Heq & _)|Hl].
    - cbn [fst snd] in Heq. destruct (Text.startswith "<" h') eqn:Hlt; [done|].
      by injection Heq as -> ->.
    - destruct P as [|p P]; [by apply elem_of_nil in Hl|].
      apply elem_of_cons in Hl as [?|Hl]; [done|].
      by apply list_elem_of_fmap in Hl as (hc & ? & _). }
  assert (∀ h c, ProjectQuoted h c ∈ lines
                 ↔ (h, c) ∈ common ∧ looks_like_system h = false) as Hproj.
  { intros h c. subst lines. unfold pch_include_lines. fold common.
    rewrite pch_separate_eq.
    set (S := List.filter _ common). set (P := List.filter _ common).
    assert (ProjectQuoted h c ∈ match P with
                     | [] => []
                     | _ => ProjectBanner :: map (λ hc, ProjectQuoted (fst hc) (snd hc)) P
                     end ↔ (h, c) ∈ P) as HP.
    { destruct P as [|p P]; [by rewrite !elem_of_nil|].
      rewrite elem_of_cons, list_elem_of_fmap. split.
      - intros [?|([h' c'] & [= -> ->] & ?)]; done.
      - intros Hin. right. by exists (h, c). }
    assert ((h, c) ∈ P ↔ (h, c) ∈ common ∧ looks_like_system h = false) as HP'.
    { subst P. rewrite list_elem_of_In, List.filter_In, <- list_elem_of_In.
      cbn [fst]. by rewrite negb_true_iff. }
    rewrite elem_of_app, HP, list_elem_of_fmap, HP'. split; [|by right].
    intros [([h' c'] & Heq & _)|?]; [|done].
    cbn [fst snd] in Heq. by destruct (Text.startswith "<" h'). }
  split; [|split; [|split; [|split]]].
  - split; [rewrite <- Htake, length_take; lia|]. split; [done|]. split.
    + intros h c Hin. apply elem_of_map_to_list. rewrite <- Hperm. by apply Hsub.
    + intros h c h' c' Hin Hfreq Hout.
      assert ((h', c') ∈ sorted) as Hin' by (rewrite Hperm; by apply elem_of_map_to_list).
      rewrite <- (take_drop (Z.to_nat (pch_max_headers (analysis_config a))) sorted) in Hin'.
      rewrite Htake in Hin'. apply elem_of_app in Hin' as [?|Hdrop]; [done|].
      pose proof (sorted_by_count_sorted (dict_items (header_frequency a))) as Hs.
      fold sorted in Hs.
      rewrite <- (take_drop (Z.to_nat (pch_max_headers (analysis_config a))) sorted) in Hs.
      rewrite Htake in Hs.
      apply (StronglySorted_app_1_elem_of _ _ _ _ _ Hs Hin Hdrop).
  - intros h c. split.
    + intros Hl. split; [|by apply (Hangle h c)].
      by destruct (proj1 (Hsys h c) (or_introl Hl)).
    + intros [Hin Hlt].
      destruct (proj2 (Hsys h c)) as [?|Hq]; [|done|].
      * split; [done|]. unfold looks_like_system, has_system_mark. rewrite Hlt.
        split; [done|]. cbn [existsb]. by rewrite (startswith_substring_in h Hlt).
      * apply Hquoted in Hq. congruence.
  - intros h c Hin Hlt Hend.
    destruct (proj2 (Hsys h c)) as [Ha|?]; [|by apply Hangle in Ha; congruence|done].
    split; [done|]. unfold looks_like_system, has_system_mark. cbn [existsb]. split.
    + destruct Hend as [-> | ->]; by rewrite ?orb_true_r.
    + destruct Hend as [Hend|Hend].
      * rewrite (endswith_substring_in ".h" ".h" h Hend) by done. by rewrite !orb_true_r.
      * rewrite (endswith_substring_in ".hpp" ".h" h Hend) by done. by rewrite !orb_true_r.
  - intros h c Hin Hlt Hslash Hh Hhpp. apply Hproj. split; [done|].
    unfold looks_like_system. cbn [existsb]. by rewrite Hlt, Hslash, Hh, Hhpp.
  - intros h c Hin Hslash Hmark line Hline Hhead.
    assert (looks_like_system h = true) as Hlooks
      by (unfold looks_like_system; by rewrite Hslash, orb_true_r).
    destruct line as [h' c'|h' c'| |h' c']; simpl in Hhead; [..|done|];
      injection Hhead as ->.
    + destruct (proj1 (Hsys h c') (or_introl Hline)) as (_ & _ & ?). congruence.
    + destruct (proj1 (Hsys h c') (or_intror Hline)) as (_ & _ & ?). congruence.
    + apply Hproj in Hline as [_ ?]. congruence.
Qed.

Lemma pch_lines_follow_the_name_witness :
  let D := toy_advice_env (λ _, 0) in
  let a := three_names_analyzer in
  let common := most_common (pch_max_headers (analysis_config a))
                  (dict_items (header_frequency a)) in
  let lines := pch_include_lines a in
  (length common ≤ Z.to_nat (pch_max_headers (analysis_config a))
   ∧ NoDup common.*1
   ∧ (∀ h c, (h, c) ∈ common → header_frequency a !! h = Some c)
   ∧ (∀ h c h' c', (h, c) ∈ common → header_frequency a !! h' = Some c' →
                   (h', c') ∉ common → c' ≤ c))
  ∧ (∀ h c, SystemAngle h c ∈ lines ↔ (h, c) ∈ common ∧ Text.startswith "<" h = true)
  ∧ (∀ h c, (h, c) ∈ common → Text.startswith "<" h = false →
            Text.endswith ".h" h = true ∨ Text.endswith ".hpp" h = true →
            SystemQuoted h c ∈ lines)
  ∧ (∀ h c, (h, c) ∈ common → Text.startswith "<" h = false →
            Text.contains "/" h = false →
            Text.endswith ".h" h = false → Text.endswith ".hpp" h = false →
            ProjectQuoted h c ∈ lines)
  ∧ (∀ h c, (h, c) ∈ common → Text.contains "/" h = true →
            has_system_mark h = false →
            ∀ line, line ∈ lines → line_header line ≠ Some h).
Proof.
  apply (pch_lines_follow_the_name (D := toy_advice_env (λ _, 0)) three_names_analyzer).
  intros m. reflexivity.
Defined.

(** The three names: [util.h] goes to the first block, [vector] to the
    block of the project headers, and [QtCore/QObject] is left out. *)
Example pch_lines_of_three_names :
  pch_include_lines (D := toy_advice_env (λ _, 0)) three_names_analyzer
  = [SystemQuoted "util.h" 2; ProjectBanner; ProjectQuoted "vector" 3].
Proof. vm_compute. reflexivity. Qed.

(* ===================================================================== *)
(** ** The number of include lines of a text                               *)
(* ===================================================================== *)

Section LineFacts.
Import Text Regex Lines.

Lemma append_line_assoc (l : string) (c : ascii) (rest : string) :
  (l +:+ String c EmptyString) +:+ rest = l +:+ String c rest.
Proof.
  induction l as [|a l IH]; [done|].
  change (String a ((l +:+ String c EmptyString) +:+ rest) = String a (l +:+ String c rest)).
  by f_equal.
Qed.

Lemma length_append (s t : string) :
  String.length (s +:+ t) = String.length s + String.length t.
Proof.
  induction s as [|a s IH]; [done|].
  change (S (String.length (s +:+ t)) = S (String.length s + String.length t)).
  by f_equal.
Qed.

Lemma skip_spaces_keep s x :
  skip_spaces s ≠ EmptyString → skip_spaces (s +:+ x) = skip_spaces s +:+ x.
Proof.
  induction s as [|a s IH]; simpl; [done|].
  destruct (is_space a); [apply IH|done].
Qed.

Lemma strip_prefix_keep lit s r x :
  strip_prefix lit s = Some r → strip_prefix lit (s +:+ x) = Some (r +:+ x).
Proof.
  revert s. induction lit as [|a lit IH]; intros s; simpl.
  - by intros [= ->].
  - destruct s as [|b s]; [done|]. simpl. destruct (Ascii.eqb a b); [apply IH|done].
Qed.

Lemma strip_prefix_newline lit s x :
  one_line lit = true → strip_prefix lit s = None →
  strip_prefix lit (s +:+ String newline x) = None.
Proof.
  revert s. induction lit as [|a lit IH]; intros s; simpl; [done|].
  intros [Ha Hlit]%andb_prop. destruct s as [|b s]; simpl.
  - intros _. unfold is_newline in Ha. by destruct (Ascii.eqb a newline).
  - destruct (Ascii.eqb a b); [by apply IH|done].
Qed.

Lemma one_line_skip_spaces s : one_line s = true → one_line (skip_spaces s) = true.
Proof.
  induction s as [|a s IH]; simpl; [done|].
  intros [Ha Hs]%andb_prop. destruct (is_space a); [by apply IH|].
  simpl. by rewrite Ha, Hs.
Qed.

Lemma one_line_strip_prefix lit s r :
  strip_prefix lit s = Some r → one_line s = true → one_line r = true.
Proof.
  revert s. induction lit as [|a lit IH]; intros s; simpl.
  - by intros [= ->].
  - destruct s as [|b s]; [done|]. destruct (Ascii.eqb a b); [|done].
    intros Hr [_ Hs]%andb_prop. by apply (IH s).
Qed.

Lemma keyword_cases s :
  match_include_keyword s
  = match skip_spaces s with
    | String c s1 =>
        if Ascii.eqb c "#" then strip_prefix "include" (skip_spaces s1) else None
    | EmptyString => None
    end.
Proof.
  unfold match_include_keyword. destruct (skip_spaces s) as [|c s1]; [done|].
  destruct (Ascii.eqb_spec c "#") as [->|Hne]; [done|].
  destruct c as [[] [] [] [] [] [] [] []]; try done.
Qed.

Lemma other_line_cases l :
  other_line l
  = one_line l
    && match skip_spaces l with
       | String c l1 =>
           if Ascii.eqb c "#" then
             match skip_spaces l1 with
             | EmptyString => false
             | String c' w =>
                 match strip_prefix "include" (String c' w) with
                 | Some _ => false
                 | None => true
                 end
             end
           else true
       | EmptyString => false
       end.
Proof.
  unfold other_line. destruct (skip_spaces l) as [|c l1]; [done|].
  destruct (Ascii.eqb_spec c "#") as [->|Hne]; [done|].
  destruct c as [[] [] [] [] [] [] [] []]; try done.
Qed.

Lemma keyword_keep l tail x :
  match_include_keyword l = Some tail →
  match_include_keyword (l +:+ x) = Some (tail +:+ x).
Proof.
  rewrite !keyword_cases. destruct (skip_spaces l) as [|c l1] eqn:Hl; [done|].
  rewrite skip_spaces_keep by by rewrite Hl. rewrite Hl.
  change (String c l1 +:+ x) with (String c (l1 +:+ x)). cbv iota.
  destruct (Ascii.eqb c "#"); [|done]. intros Hs.
  assert (skip_spaces l1 ≠ EmptyString) as Hne by (intros Heq; by rewrite Heq in Hs).
  rewrite skip_spaces_keep by done. by apply strip_prefix_keep.
Qed.

Lemma keyword_one_line l tail :
  match_include_keyword l = Some tail → one_line l = true → one_line tail = true.
Proof.
  rewrite keyword_cases. intros Hk Hl. apply one_line_skip_spaces in Hl.
  destruct (skip_spaces l) as [|c l1]; [done|]. simpl in Hl.
  apply andb_prop in Hl as [_ Hl1]. destruct (Ascii.eqb c "#"); [|done].
  apply (one_line_strip_prefix _ _ _ Hk). by apply one_line_skip_spaces.
Qed.

Lemma count_scan_step fuel c s :
  count_scan (S fuel) false (String c s) = count_scan fuel (is_newline c) s.
Proof. reflexivity. Qed.

Lemma is_newline_newline : is_newline newline = true.
Proof. reflexivity. Qed.

(** After a character that is not a newline nothing matches before the next
    line. *)
Lemma count_scan_rest_of_line fuel t rest :
  one_line t = true → String.length (t +:+ String newline rest) < fuel →
  count_scan fuel false (t +:+ String newline rest) = count_include_lines rest.
Proof.
  revert fuel. induction t as [|a t IH]; intros fuel Ht Hlen;
    rewrite length_append in Hlen; cbn [String.length] in Hlen;
    (destruct fuel as [|fuel]; [lia|]).
  - change (EmptyString +:+ String newline rest) with (String newline rest).
    rewrite count_scan_step, is_newline_newline.
    apply count_scan_enough_fuel; lia.
  - change (String a t +:+ String newline rest) with (String a (t +:+ String newline rest)).
    rewrite count_scan_step. cbn [one_line] in Ht.
    apply andb_prop in Ht as [Ha Ht]. apply negb_true_iff in Ha. rewrite Ha.
    apply IH; [done|]. rewrite length_append. cbn [String.length]. lia.
Qed.

Lemma count_scan_last_line fuel t : one_line t = true → count_scan fuel false t = 0.
Proof.
  revert t. induction fuel as [|fuel IH]; intros t Ht; [done|].
  destruct t as [|a t]; [done|]. rewrite count_scan_step. cbn [one_line] in Ht.
  apply andb_prop in Ht as [Ha Ht]. apply negb_true_iff in Ha. rewrite Ha. by apply IH.
Qed.

Lemma count_scan_bol fuel s :
  count_scan (S fuel) true s
  = match match_include_keyword s with
    | Some r => S (count_scan fuel false r)
    | None =>
        match s with
        | String c s' => count_scan fuel (is_newline c) s'
        | EmptyString => 0
        end
    end.
Proof. reflexivity. Qed.

Lemma all_spaces_line l : Directive.all_spaces l = true →
  Directive.all_spaces (l +:+ String newline EmptyString) = true.
Proof.
  induction l as [|a l IH]; [done|].
  change (String a l +:+ String newline EmptyString)
    with (String a (l +:+ String newline EmptyString)).
  cbn [Directive.all_spaces]. intros [Ha Hl]%andb_prop. rewrite Ha. by apply IH.
Qed.

(** One line more: the count goes up by one for a line that holds a
    directive and stays for a blank line and for another line. *)
Lemma count_line l rest :
  known_line l = true →
  count_include_lines (line l +:+ rest)
  = (if directive_line l then 1 else 0) + count_include_lines rest.
Proof.
  intros Hknown. unfold line. rewrite (append_line_assoc l newline rest).
  unfold count_include_lines at 1. rewrite count_scan_bol.
  assert (String.length (l +:+ String newline rest)
          = String.length l + S (String.length rest)) as Hlen by by rewrite length_append.
  assert (∀ a l', l = String a l' → one_line l = true →
            count_scan (String.length (l +:+ String newline rest)) (is_newline a)
              (l' +:+ String newline rest)
            = count_include_lines rest) as Hstep.
  { intros a l' Heq Hl. rewrite Hlen. subst l. cbn [one_line] in Hl.
    apply andb_prop in Hl as [Ha Hl']. apply negb_true_iff in Ha. rewrite Ha.
    apply count_scan_rest_of_line; [done|]. rewrite length_append.
    cbn [String.length]. lia. }
  destruct (directive_line l) eqn:Hd.
  { unfold directive_line in Hd. apply andb_prop in Hd as [Hl Hk].
    destruct (match_include_keyword l) as [tail|] eqn:Hkey; [|done].
    rewrite (keyword_keep l tail _ Hkey). change (1 + ?x) with (S x). f_equal.
    apply count_scan_rest_of_line; [by apply (keyword_one_line l)|].
    apply match_include_keyword_length in Hkey. rewrite Hlen, length_append.
    cbn [String.length]. lia. }
  change (0 + ?x) with x.
  unfold known_line in Hknown. rewrite Hd in Hknown. cbn [orb] in Hknown.
  apply orb_prop in Hknown as [Hb|Ho].
  - unfold blank_line in Hb. apply andb_prop in Hb as [Hl Hws].
    assert (match_include_keyword (l +:+ String newline rest) = match_include_keyword rest)
      as Hsame.
    { rewrite <- (append_line_assoc l newline rest). unfold match_include_keyword.
      rewrite skip_spaces_app; [done|]. by apply all_spaces_line. }
    rewrite Hsame.
    destruct (match_include_keyword rest) as [r|] eqn:Hr.
    + unfold count_include_lines. rewrite count_scan_bol, Hr. f_equal.
      apply match_include_keyword_length in Hr.
      apply count_scan_enough_fuel; lia.
    + destruct l as [|a l'].
      * change (EmptyString +:+ String newline rest) with (String newline rest).
        cbv iota. by rewrite is_newline_newline.
      * pose proof (Hstep a l' eq_refl Hl) as Hs.
        change (String a l' +:+ String newline rest)
          with (String a (l' +:+ String newline rest)) in *.
        cbv iota. exact Hs.
  - rewrite other_line_cases in Ho. apply andb_prop in Ho as [Hl Ho].
    assert (match_include_keyword (l +:+ String newline rest) = None) as ->.
    { rewrite keyword_cases. destruct (skip_spaces l) as [|c l1] eqn:Hsk; [done|].
      rewrite skip_spaces_keep by by rewrite Hsk. rewrite Hsk.
      change (String c l1 +:+ String newline rest)
        with (String c (l1 +:+ String newline rest)). cbv iota.
      destruct (Ascii.eqb c "#"); [|done].
      destruct (skip_spaces l1) as [|c' w] eqn:Hsk1; [done|].
      rewrite skip_spaces_keep by by rewrite Hsk1. rewrite Hsk1.
      destruct (strip_prefix "include" (String c' w)) eqn:Hsp; [done|].
      apply strip_prefix_newline; [done|done]. }
    destruct l as [|a l']; [done|].
    pose proof (Hstep a l' eq_refl Hl) as Hs.
    change (String a l' +:+ String newline rest)
      with (String a (l' +:+ String newline rest)) in *.
    cbv iota. exact Hs.
Qed.

Lemma count_last l :
  known_line l = true →
  count_include_lines l = if directive_line l then 1 else 0.
Proof.
  intros Hknown. unfold count_include_lines. rewrite count_scan_bol.
  destruct (directive_line l) eqn:Hd.
  { unfold directive_line in Hd. apply andb_prop in Hd as [Hl Hk].
    destruct (match_include_keyword l) as [tail|] eqn:Hkey; [|done].
    f_equal. apply count_scan_last_line. by apply (keyword_one_line l). }
  unfold known_line in Hknown. rewrite Hd in Hknown. cbn [orb] in Hknown.
  assert (one_line l = true) as Hl.
  { apply orb_prop in Hknown as [Hb|Ho].
    - unfold blank_line in Hb. by apply andb_prop in Hb as [? _].
    - unfold other_line in Ho. by apply andb_prop in Ho as [? _]. }
  unfold directive_line in Hd. rewrite Hl in Hd. cbn [andb] in Hd.
  destruct (match_include_keyword l); [done|].
  destruct l as [|a l']; [done|]. cbn [one_line] in Hl. apply andb_prop in Hl as [Ha Hl'].
  apply negb_true_iff in Ha. rewrite Ha. by apply count_scan_last_line.
Qed.

(** The number of include lines of a text is the number of its lines that
    hold a directive. *)
Lemma count_text_of ls last :
  Forall (λ l, known_line l = true) ls → known_line last = true →
  count_include_lines (text_of ls last)
  = length (List.filter directive_line (ls ++ [last])).
Proof.
  intros Hls Hlast. induction Hls as [|l ls Hl _ IH]; cbn [text_of fold_right app List.filter].
  - rewrite count_last by done. by destruct (directive_line last).
  - fold (text_of ls last). rewrite count_line by done. rewrite IH.
    by destruct (directive_line l).
Qed.

End LineFacts.

(* ===================================================================== *)
(** ** The recognizer and the include count on whole texts                 *)
(* ===================================================================== *)






(** The kinds of lines: a directive with white space around the hash sign,
    a pragma, plain code and an empty line are known; a hash sign alone on
    its line is not, since the keyword may follow on the next line. *)
Example line_kinds :
  Lines.directive_line "  # include <a>" = true
  ∧ Lines.directive_line "#pragma once" = false
  ∧ Lines.known_line "#pragma once" = true
  ∧ Lines.known_line "int main() {" = true
  ∧ Lines.known_line EmptyString = true
  ∧ Lines.known_line "#" = false
  ∧ Regex.count_include_lines (Text.line "#" +:+ "include <a>") = 1.
Proof. vm_compute. done. Qed.

Lemma filter_excessive_issues_for {E : Env} (cfg : AnalysisConfig) (file_path : Path)
    (content : string) :
  List.filter (λ i, bool_decide (issue_type i = EXCESSIVE_INCLUDES))
    (issues_for cfg file_path content)
  = (if (max_header_includes cfg <? Z.of_nat (Regex.count_include_lines content))%Z
     then [excessive_includes_issue file_path (Regex.count_include_lines content)
             (max_header_includes cfg)]
     else []).
Proof.
  unfold issues_for. rewrite !List.filter_app.
  assert (∀ (b : bool) i, issue_type i ≠ EXCESSIVE_INCLUDES →
            List.filter (λ i, bool_decide (issue_type i = EXCESSIVE_INCLUDES))
              (if b then [i] else []) = []) as Hother.
  { intros [] i Hi; [|done]. simpl. by rewrite bool_decide_eq_false_2. }
  rewrite (Hother _ (high_complexity_issue _ _)) by done.
  rewrite (Hother _ (large_header_issue _ _)) by done.
  rewrite !app_nil_r. by destruct (_ <? _)%Z.
Qed.

(** C4, as stated, fails: in the project [absolute_include_project] the
    text of [a.cpp] has 26 include lines, more than the threshold 20, and
    the file is in the catalog and is read; but the resolver raises on its
    opening include, the checks on the file are skipped, and the analysis
    ends without an issue. *)
Lemma excessive_includes_missed_when_resolver_raises :
  let E := Toy.env absolute_include_project Toy.ascending in
  let r := Toy.run absolute_include_project Toy.ascending [] Toy.config in
  let content := Text.line ("#include " +:+ Text.quoted "/nowhere/x.h")
                 +:+ Projects.include_lines 25 in
  files r = ["/proj/a.cpp"]
  ∧ open_ignore "/proj/a.cpp" = Some content
  ∧ Regex.count_include_lines content = 26
  ∧ max_header_includes (analysis_config r) = 20%Z
  ∧ _resolve_include_path "/proj/a.cpp" "/nowhere/x.h" = Raises
  ∧ file_sizes r !! "/proj/a.cpp" = Some (String.length content)
  ∧ issues r = [].
Proof. vm_compute. done. Qed.

(** C4, amended.  For a file that is read and whose opening include, if it
    has one, is resolved without an exception, [_analyze_file_includes]
    appends an ExcessiveIncludes issue for the file, of severity Medium,
    exactly when the number of include lines of its text is strictly
    greater than the configured threshold, and then only one; a count equal
    to the threshold adds none.  The number of include lines of a text is
    the number of its lines that hold a directive (white space, the hash
    sign, white space, the keyword), on every text whose other lines are
    blank or start with something else.  The default threshold is 20. *)
Theorem excessive_includes_iff_above_threshold {E : Env}
    (file_path : Path) (content : string) (a : Analyzer)
    (Hchecked : checked_text file_path = Some content) :
  let T := max_header_includes (analysis_config a) in
  let n := Regex.count_include_lines content in
  ∃ new : list Issue,
    issues (exec (_analyze_file_includes file_path) a) = issues a ++ new
    ∧ List.filter (λ i, bool_decide (issue_type i = EXCESSIVE_INCLUDES)) new
      = (if (T <? Z.of_nat n)%Z then [excessive_includes_issue file_path n T] else [])
    ∧ ((∃ i, i ∈ new ∧ issue_type i = EXCESSIVE_INCLUDES
             ∧ issue_file i = OfFile file_path ∧ issue_severity i = MEDIUM)
       ↔ (T < Z.of_nat n)%Z)
    ∧ (Z.of_nat n = T → ∀ i, i ∈ new → issue_type i ≠ EXCESSIVE_INCLUDES)
    ∧ (∀ ls last,
         Forall (λ l, Lines.known_line l = true) ls → Lines.known_line last = true →
         content = Lines.text_of ls last →
         n = length (List.filter Lines.directive_line (ls ++ [last])))
    ∧ max_header_includes default_analysis_config = 20%Z.
Proof.
  intros T n. exists (issues_for (analysis_config a) file_path content).
  pose proof (filter_excessive_issues_for (analysis_config a) file_path content) as Hfilter.
  fold T n in Hfilter.
  split; [by rewrite step_issues, Hchecked|]. split; [done|].
  split; [|split; [|split; [|done]]].
  - split.
    + intros (i & Hi & Hty & _).
      pose proof (filter_excessive_elem _ i Hi Hty) as Hin.
      rewrite Hfilter in Hin. destruct (T <? Z.of_nat n)%Z eqn:Hc; [by apply Z.ltb_lt|].
      by apply elem_of_nil in Hin.
    + intros Hlt%Z.ltb_lt. rewrite Hlt in Hfilter.
      exists (excessive_includes_issue file_path n T). repeat split.
      assert (excessive_includes_issue file_path n T
              ∈ List.filter (λ i, bool_decide (issue_type i = EXCESSIVE_INCLUDES))
                  (issues_for (analysis_config a) file_path content)) as Hin.
      { rewrite Hfilter. by apply list_elem_of_singleton. }
      apply list_elem_of_In, List.filter_In in Hin as [Hin _]. by apply list_elem_of_In.
  - intros Heq i Hi Hty. pose proof (filter_excessive_elem _ i Hi Hty) as Hin.
    rewrite Hfilter in Hin.
    assert ((T <? Z.of_nat n)%Z = false) as Hc by (apply Z.ltb_ge; lia).
    rewrite Hc in Hin. by apply elem_of_nil in Hin.
  - intros ls last Hls Hlast ->. subst n. by apply count_text_of.
Qed.

Lemma excessive_includes_iff_above_threshold_witness :
  let E := Toy.env many_includes_project Toy.ascending in
  let a := new_analyzer [] default_analysis_config in
  let content := Projects.include_lines 25 in
  let T := max_header_includes (analysis_config a) in
  let n := Regex.count_include_lines content in
  ∃ new : list Issue,
    issues (exec (_analyze_file_includes "/proj/big.h") a) = issues a ++ new
    ∧ List.filter (λ i, bool_decide (issue_type i = EXCESSIVE_INCLUDES)) new
      = (if (T <? Z.of_nat n)%Z then [excessive_includes_issue "/proj/big.h" n T] else [])
    ∧ ((∃ i, i ∈ new ∧ issue_type i = EXCESSIVE_INCLUDES
             ∧ issue_file i = OfFile "/proj/big.h" ∧ issue_severity i = MEDIUM)
       ↔ (T < Z.of_nat n)%Z)
    ∧ (Z.of_nat n = T → ∀ i, i ∈ new → issue_type i ≠ EXCESSIVE_INCLUDES)
    ∧ (∀ ls last,
         Forall (λ l, Lines.known_line l = true) ls → Lines.known_line last = true →
         content = Lines.text_of ls last →
         n = length (List.filter Lines.directive_line (ls ++ [last])))
    ∧ max_header_includes default_analysis_config = 20%Z.
Proof.
  apply (excessive_includes_iff_above_threshold
           (E := Toy.env many_includes_project Toy.ascending)
           "/proj/big.h" (Projects.include_lines 25)
           (new_analyzer [] default_analysis_config)).
  vm_compute. reflexivity.
Defined.
